(** * Geometric construction solver: kernel, canonical forms, successor
    generator, heuristic and A* engine, with their specification.

    Sources embedded here:
    - [app/geometry/kernels.py]    (numeric kernel)
    - [app/geometry/primitives.py] (canonical forms, state hash)
    - [app/solver/heuristic.py]    (heuristic)
    - [app/solver/search.py]       (successor generator, search engine)
    - [app/api/main.py], [app/api/schemas.py] (marshalling of the knowns)

    Numbers.  The program computes on [np.float64], that is IEEE 754
    binary64.  The kernel and the canonical forms are written once over
    an interface [Num] of the operations the source uses, and read at
    two instances:
    - [float] (primitive binary64): the arithmetic the program runs on;
      every concrete run below is evaluated at this instance;
    - [R] (exact real arithmetic): the arithmetic the geometry is about.

    Conventions of the embedding.  [x**2] is read as [x * x] (this is
    what the compiled kernel computes; in [normalize_line], which is
    not compiled, [A**2] is the [pow] of the C library, which can
    differ from [A * A] in the last bit); [round(x, 10)] on an
    [np.float64] is numpy's [rint(x * 10**10) / 10**10]; a [dict] is an
    association list in insertion order; [sorted] is a stable insertion
    sort (the order of [list.sort] when no NaN is compared); the heap
    is the list of its nodes in key order; [solve] takes the number of
    turns of its [while] loop it may run as an extra argument, and is
    total in it ([solve_loop_terminates]).

    Ids.  A string stands for the Python [str] with the same code
    points: the embedding covers the ids whose characters are code
    points below 256.  [str.isdigit], [int] and [str] are embedded with
    the cases in which they raise [ValueError]: a tail that passes
    [isdigit] and is no decimal number for [int], and a number of more
    than 4300 digits.  An exception ends [solve] with [Raised].
*)

From Stdlib Require Import Floats ZArith NArith List Bool String Ascii Lia.
From Stdlib Require Import DecimalString DecimalN.
From Stdlib Require Import Sorted Permutation.
From Stdlib Require Import Reals Lra.
Import ListNotations.

Set Warnings "-inexact-float".
Set Implicit Arguments.

(* ================================================================== *)
(** * Numbers *)
(* ================================================================== *)

(** The arithmetic used by the source: [+ - * /], unary minus, [abs],
    [np.sqrt], the comparisons [<] and [==], the literals [0.0], [2],
    [1e-9], the [nan] filling the result buffers and
    [round(x, HASH_PRECISION)]. *)
Class Num (T : Type) : Type := {
  nadd : T -> T -> T;
  nsub : T -> T -> T;
  nmul : T -> T -> T;
  ndiv : T -> T -> T;
  nopp : T -> T;
  nabs : T -> T;
  nsqrt : T -> T;
  nltb : T -> T -> bool;
  neqb : T -> T -> bool;
  nzero : T;
  ntwo : T;
  EPSILON : T;
  nnan : T;
  round_hp : T -> T
}.

Declare Scope num_scope.
Delimit Scope num_scope with num.
Infix "+" := nadd : num_scope.
Infix "-" := nsub : num_scope.
Infix "*" := nmul : num_scope.
Infix "/" := ndiv : num_scope.
Notation "- x" := (nopp x) : num_scope.
Infix "<?" := nltb : num_scope.
Infix "=?" := neqb : num_scope.

(** ** binary64 *)

Module F64.
Local Open Scope float_scope.

(** [HASH_PRECISION = 10]; numpy scales by [10 ** 10]. *)
Definition pow10_hp : float := 1e10.

Definition two52 : float := 4503599627370496.

(** [np.rint]: nearest integer, ties to even, sign kept.  Below
    [2^52] adding and subtracting [2^52] rounds to an integer in the
    default rounding mode; from [2^52] on every binary64 is an
    integer. *)
Definition rint (x : float) : float :=
  let a := abs x in
  if a <? two52 then
    let r := (a + two52) - two52 in
    if x <? 0 then - r else if x =? 0 then x else r
  else x.

(** [round(x, 10)] on an [np.float64]: numpy's
    [rint(x * 10**10) / 10**10]. *)
Definition round (x : float) : float := rint (x * pow10_hp) / pow10_hp.
End F64.

#[export] Instance Num_float : Num float := {
  nadd := PrimFloat.add;
  nsub := PrimFloat.sub;
  nmul := PrimFloat.mul;
  ndiv := PrimFloat.div;
  nopp := PrimFloat.opp;
  nabs := PrimFloat.abs;
  nsqrt := PrimFloat.sqrt;
  nltb := PrimFloat.ltb;
  neqb := PrimFloat.eqb;
  nzero := 0%float;
  ntwo := 2%float;
  EPSILON := 1e-9%float;
  nnan := nan;
  round_hp := F64.round
}.

(** ** Exact reals *)

Module Exact.
Local Open Scope R_scope.

Definition Rltb (x y : R) : bool := if Rlt_dec x y then true else false.
Definition Reqb (x y : R) : bool := if Req_dec_T x y then true else false.

(** Nearest integer, ties to even. *)
Definition rint (x : R) : Z :=
  let f := Int_part x in
  let r := x - IZR f in
  if Rlt_dec r (1/2) then f
  else if Rlt_dec (1/2) r then (f + 1)%Z
  else if Z.even f then f else (f + 1)%Z.

Definition pow10_hp : R := 10000000000.

Definition round (x : R) : R := IZR (rint (x * pow10_hp)) / pow10_hp.
End Exact.

(** The reals have no [nan]; the buffer cells it fills are never read
    (the callers read [results[i]] for [i < count] only), so any value
    serves. *)
#[export] Instance Num_R : Num R := {
  nadd := Rplus;
  nsub := Rminus;
  nmul := Rmult;
  ndiv := Rdiv;
  nopp := Ropp;
  nabs := Rabs;
  nsqrt := R_sqrt.sqrt;
  nltb := Exact.Rltb;
  neqb := Exact.Reqb;
  nzero := 0%R;
  ntwo := 2%R;
  EPSILON := (1 / 1000000000)%R;
  nnan := 0%R;
  round_hp := Exact.round
}.

(* ================================================================== *)
(** * Numeric kernel ([kernels.py]) and canonical forms ([primitives.py]) *)
(* ================================================================== *)

Section Geometry.
Context {T : Type} {NT : Num T}.
Local Open Scope num_scope.

(** [[x, y]], [[A, B, C]] and [[cx, cy, r_sq]]. *)
Definition point : Type := T * T.
Definition line : Type := T * T * T.
Definition circle : Type := T * T * T.

(** [x**2] *)
Definition sq (x : T) : T := x * x.

(** [a > b] *)
Definition ngtb (a b : T) : bool := b <? a.

Definition construct_line_from_points (p1 p2 : point) : line :=
  let '(x1, y1) := p1 in
  let '(x2, y2) := p2 in
  let A := y1 - y2 in
  let B := x2 - x1 in
  let C := x1 * y2 - x2 * y1 in
  (A, B, C).

Definition construct_circle_from_points (center on_circ : point) : circle :=
  let '(cx, cy) := center in
  let '(px, py) := on_circ in
  let r_squared := sq (px - cx) + sq (py - cy) in
  (cx, cy, r_squared).

(** The [results] buffer: [np.full((2, 2), np.nan)]. *)
Definition buffer : Type := point * point.
Definition nan_point : point := (nnan, nnan).
Definition empty_buffer : buffer := (nan_point, nan_point).

(** [results[i]] for [i] in [range(count)], [count <= 2]. *)
Definition buffer_get (b : buffer) (i : nat) : point :=
  match i with O => fst b | _ => snd b end.

Definition intersect_line_line (line1 line2 : line) : buffer * nat :=
  let '(A1, B1, C1) := line1 in
  let '(A2, B2, C2) := line2 in
  let det := A1 * B2 - A2 * B1 in
  if nabs det <? EPSILON then (empty_buffer, 0%nat)
  else
    let x := (B2 * - C1 - B1 * - C2) / det in
    let y := (A1 * - C2 - A2 * - C1) / det in
    (((x, y), nan_point), 1%nat).

(** Foot of the perpendicular from the centre onto the line, and its
    squared distance to the centre, as [intersect_line_circle]
    computes them. *)
Definition x_closest (l : line) (c : circle) : T :=
  let '(A, B, C) := l in
  let '(cx, cy, _) := c in
  (B * B * cx - A * B * cy - A * C) / (A * A + B * B).

Definition y_closest (l : line) (c : circle) : T :=
  let '(A, B, C) := l in
  let '(cx, cy, _) := c in
  (- A * B * cx + A * A * cy - B * C) / (A * A + B * B).

Definition dist_sq (l : line) (c : circle) : T :=
  let '(cx, cy, _) := c in
  sq (x_closest l c - cx) + sq (y_closest l c - cy).

Definition intersect_line_circle (l : line) (c : circle) : buffer * nat :=
  let '(A, B, C) := l in
  let '(cx, cy, r_sq) := c in
  let det_line := A * A + B * B in
  if det_line <? EPSILON then (empty_buffer, 0%nat)
  else
    let xc := x_closest l c in
    let yc := y_closest l c in
    let d_sq := dist_sq l c in
    if ngtb d_sq (r_sq + EPSILON) then (empty_buffer, 0%nat)
    else if nabs (d_sq - r_sq) <? EPSILON then
      (((xc, yc), nan_point), 1%nat)
    else
      let half_chord_length := nsqrt (r_sq - d_sq) in
      let line_dir_norm := nsqrt det_line in
      let p1_x := xc + (half_chord_length * - B) / line_dir_norm in
      let p1_y := yc + (half_chord_length * A) / line_dir_norm in
      let p2_x := xc - (half_chord_length * - B) / line_dir_norm in
      let p2_y := yc - (half_chord_length * A) / line_dir_norm in
      (((p1_x, p1_y), (p2_x, p2_y)), 2%nat).

Definition intersect_circle_circle (c1 c2 : circle) : buffer * nat :=
  let '(x1, y1, r1_sq) := c1 in
  let r1 := nsqrt r1_sq in
  let '(x2, y2, r2_sq) := c2 in
  let r2 := nsqrt r2_sq in
  let d_sq := sq (x1 - x2) + sq (y1 - y2) in
  if d_sq <? EPSILON then (empty_buffer, 0%nat)
  else
    let d := nsqrt d_sq in
    if ngtb d (r1 + r2 + EPSILON) || (d <? nabs (r1 - r2) - EPSILON)
    then (empty_buffer, 0%nat)
    else
      let A := ntwo * (x2 - x1) in
      let B := ntwo * (y2 - y1) in
      let C := (sq x1 - sq x2) + (sq y1 - sq y2) - (r1_sq - r2_sq) in
      intersect_line_circle (A, B, C) c1.

(** ** Canonical forms *)

Definition normalize_point (p : point) : point :=
  (round_hp (fst p), round_hp (snd p)).

(** [A**2 + B**2] is read as [A * A + B * B]: on [np.float64] the
    power is computed by [pow] of the C library, whose result is the
    rounded square up to the last bit. *)
Definition normalize_line (l : line) : line :=
  let '(A, B, C) := l in
  let norm := nsqrt (sq A + sq B) in
  if norm <? EPSILON then (nzero, nzero, nzero)
  else
    let A := A / norm in
    let B := B / norm in
    let C := C / norm in
    let '(A, B, C) :=
      if ngtb (nabs A) EPSILON && (A <? nzero) then (- A, - B, - C)
      else if (nabs A <? EPSILON) && ngtb (nabs B) EPSILON && (B <? nzero)
           then (- A, - B, - C)
           else (A, B, C) in
    (round_hp A, round_hp B, round_hp C).

Definition normalize_circle (c : circle) : circle :=
  let '(cx, cy, r_sq) := c in
  (round_hp cx, round_hp cy, round_hp r_sq).

(** Python's [==] and [<] on tuples of numbers. *)
Definition pair_eqb (a b : T * T) : bool :=
  (fst a =? fst b) && (snd a =? snd b).

Definition triple_eqb (a b : T * T * T) : bool :=
  let '(a1, a2, a3) := a in
  let '(b1, b2, b3) := b in
  (a1 =? b1) && (a2 =? b2) && (a3 =? b3).

Definition pair_ltb (a b : T * T) : bool :=
  if fst a =? fst b then snd a <? snd b else fst a <? fst b.

Definition triple_ltb (a b : T * T * T) : bool :=
  let '(a1, a2, a3) := a in
  let '(b1, b2, b3) := b in
  if a1 =? b1 then (if a2 =? b2 then a3 <? b3 else a2 <? b2) else a1 <? b1.
End Geometry.


(* ================================================================== *)
(** * Python containers and identifiers *)
(* ================================================================== *)

(** A [dict] keeps its keys in insertion order, and the successor
    generator enumerates in that order: an association list, with
    assignment replacing in place or appending. *)
Section Dict.
Variable V : Type.

Definition dict : Type := list (string * V).

Fixpoint dict_get (d : dict) (k : string) : option V :=
  match d with
  | [] => None
  | (k', v) :: d' => if String.eqb k' k then Some v else dict_get d' k
  end.

(** [d[k] = v] *)
Fixpoint dict_set (d : dict) (k : string) (v : V) : dict :=
  match d with
  | [] => [(k, v)]
  | (k', v') :: d' =>
      if String.eqb k' k then (k', v) :: d' else (k', v') :: dict_set d' k v
  end.

Definition keys (d : dict) : list string := map fst d.
Definition values (d : dict) : list V := map snd d.
End Dict.

Section Itertools.
Variables A B : Type.

(** [itertools.combinations(xs, 2)] *)
Fixpoint combinations2 (xs : list A) : list (A * A) :=
  match xs with
  | [] => []
  | x :: rest => map (fun y => (x, y)) rest ++ combinations2 rest
  end.

(** [itertools.product(xs, ys)] *)
Definition product (xs : list A) (ys : list B) : list (A * B) :=
  flat_map (fun x => map (fun y => (x, y)) ys) xs.

(** [itertools.permutations(xs, 2)]: ordered pairs of distinct
    positions, in lexicographic order of the positions. *)
Fixpoint permutations2_from (before after : list A) : list (A * A) :=
  match after with
  | [] => []
  | x :: rest =>
      map (fun y => (x, y)) (before ++ rest)
      ++ permutations2_from (before ++ [x]) rest
  end.

Definition permutations2 (xs : list A) : list (A * A) :=
  permutations2_from [] xs.
End Itertools.

(** [sorted(xs)] by a strict comparison: stable insertion sort (the
    result of any stable sort when [<] is a strict weak order, as it is
    on tuples of numbers none of which is NaN; with NaN among them the
    order [list.sort] leaves depends on its merge strategy and is not
    embedded). *)
Section Sorted.
Variable A : Type.
Variable ltb : A -> A -> bool.

Fixpoint insert_sorted (x : A) (xs : list A) : list A :=
  match xs with
  | [] => [x]
  | y :: ys => if ltb x y then x :: y :: ys else y :: insert_sorted x ys
  end.

Definition sorted (xs : list A) : list A :=
  fold_left (fun acc x => insert_sorted x acc) xs [].
End Sorted.

Section ListEq.
Variable A : Type.
Variable eqb : A -> A -> bool.

Fixpoint list_eqb (xs ys : list A) : bool :=
  match xs, ys with
  | [], [] => true
  | x :: xs', y :: ys' => eqb x y && list_eqb xs' ys'
  | _, _ => false
  end.
End ListEq.

(** Figure identifiers: a letter and a decimal ordinal. *)
Inductive obj_type : Set := point_t | line_t | circle_t.

Definition type_name (t : obj_type) : string :=
  match t with
  | point_t => "point"
  | line_t => "line"
  | circle_t => "circle"
  end.

(** [obj_type[0]] *)
Definition type_letter (t : obj_type) : string :=
  match t with
  | point_t => "p"
  | line_t => "l"
  | circle_t => "c"
  end.

(** [str(n)] for a non-negative [int] *)
Definition str_of_N (n : N) : string := NilEmpty.string_of_uint (N.to_uint n).

(** [f"{obj_type[0]}{obj_id_num}"] *)
Definition make_id (t : obj_type) (n : N) : string :=
  (type_letter t ++ str_of_N n)%string.

(** [k[1:]] *)
Definition tail (k : string) : string :=
  match k with
  | EmptyString => EmptyString
  | String _ rest => rest
  end.

Definition is_digit (c : ascii) : bool :=
  let n := nat_of_ascii c in (48 <=? n)%nat && (n <=? 57)%nat.

Fixpoint all_digits (s : string) : bool :=
  match s with
  | EmptyString => true
  | String c rest => is_digit c && all_digits rest
  end.

(** A non-empty string of the digits [0] to [9]. *)
Definition ascii_digits (s : string) : bool :=
  match s with
  | EmptyString => false
  | _ => all_digits s
  end.

(** The number that a non-empty string of the digits [0] to [9]
    denotes: the ordinal of an id is the one of its tail. *)
Definition ordinal (s : string) : option N :=
  if ascii_digits s then
    match NilEmpty.uint_of_string s with
    | Some u => Some (N.of_uint u)
    | None => None
    end
  else None.

(** ** [str.isdigit], [int] and [str] as Python has them

    A string of this file stands for the Python [str] with the same
    code points: the embedding covers the ids whose characters are code
    points below 256.  Among these, [str.isdigit] accepts the digits
    [0] to [9] and the superscript digits U+00B2, U+00B3 and U+00B9,
    which [int] rejects. *)
Definition is_py_digit (c : ascii) : bool :=
  let n := nat_of_ascii c in
  is_digit c || (n =? 178)%nat || (n =? 179)%nat || (n =? 185)%nat.

Fixpoint all_py_digits (s : string) : bool :=
  match s with
  | EmptyString => true
  | String c rest => is_py_digit c && all_py_digits rest
  end.

(** [s.isdigit()] *)
Definition isdigit (s : string) : bool :=
  match s with
  | EmptyString => false
  | _ => all_py_digits s
  end.

(** [sys.get_int_max_str_digits()]: conversions between [int] and
    [str] raise [ValueError] beyond 4300 digits. *)
Definition INT_MAX_STR_DIGITS : nat := 4300.

(** [int(s)] at its two call sites, the tails that pass [isdigit] and
    the tail of an id that [_add_object] made; [None] stands for
    [ValueError]: a character that is not one of [0] to [9], or more
    than 4300 characters. *)
Definition py_int (s : string) : option N :=
  if (String.length s <=? INT_MAX_STR_DIGITS)%nat then ordinal s else None.

(** [str(n)] raises [ValueError]: [n] has more than 4300 digits. *)
Definition str_raises (n : N) : bool :=
  (10 ^ N.of_nat INT_MAX_STR_DIGITS <=? n)%N.

(** [[int(k[1:]) for k in d if k[1:].isdigit()]]; [None]: one of the
    conversions raised [ValueError]. *)
Fixpoint seed_numbers (ks : list string) : option (list N) :=
  match ks with
  | [] => Some []
  | k :: rest =>
      if isdigit (tail k) then
        match py_int (tail k) with
        | None => None
        | Some n =>
            match seed_numbers rest with
            | None => None
            | Some ns => Some (n :: ns)
            end
        end
      else seed_numbers rest
  end.

(** [max([int(k[1:]) for k in d if k[1:].isdigit()] or [0]) + 1] *)
Definition seed_counter (ks : list string) : option N :=
  match seed_numbers ks with
  | None => None
  | Some ns => Some (fold_right N.max 0 ns + 1)%N
  end.

(** One more than the largest ordinal among the keys: the value of
    [seed_counter] whenever no conversion raises
    ([seed_counter_first_free]). *)
Definition first_free (ks : list string) : N :=
  (fold_right N.max 0
     (flat_map (fun k => match ordinal (tail k) with
                         | Some n => [n]
                         | None => []
                         end) ks) + 1)%N.

(* ================================================================== *)
(** * States, steps and the successor generator ([search.py]) *)
(* ================================================================== *)

Inductive operation_t : Set := Intersection | Line | Circle.

(** [{"operation": .., "inputs": [..], "output": {"type": .., "id": ..}}] *)
Record step : Set := {
  operation : operation_t;
  inputs : list string;
  output_type : obj_type;
  output_id : string
}.

(** [next_ids]: [{'point': .., 'line': .., 'circle': ..}] *)
Record next_ids_t : Set := {
  next_point : N;
  next_line : N;
  next_circle : N
}.

Definition get_next (ids : next_ids_t) (t : obj_type) : N :=
  match t with
  | point_t => next_point ids
  | line_t => next_line ids
  | circle_t => next_circle ids
  end.

Definition set_next (ids : next_ids_t) (t : obj_type) (n : N) : next_ids_t :=
  match t with
  | point_t =>
      {| next_point := n; next_line := next_line ids; next_circle := next_circle ids |}
  | line_t =>
      {| next_point := next_point ids; next_line := n; next_circle := next_circle ids |}
  | circle_t =>
      {| next_point := next_point ids; next_line := next_line ids; next_circle := n |}
  end.

(** The heuristic returns an [int] or [float('inf')]. *)
Inductive cost : Set := Finite (n : nat) | Infinite.

Definition cost_ltb (a b : cost) : bool :=
  match a, b with
  | Finite x, Finite y => (x <? y)%nat
  | Finite _, Infinite => true
  | Infinite, _ => false
  end.

Definition cost_eqb (a b : cost) : bool :=
  match a, b with
  | Finite x, Finite y => (x =? y)%nat
  | Infinite, Infinite => true
  | _, _ => false
  end.

Definition cost_add (g : nat) (h : cost) : cost :=
  match h with
  | Finite n => Finite (g + n)
  | Infinite => Infinite
  end.

Section Solver.
Context {T : Type} {NT : Num T}.

(** [{'points': {..}, 'lines': {..}, 'circles': {..}}] *)
Record objects_t : Type := {
  points : dict (@point T);
  lines : dict (@line T);
  circles : dict (@circle T)
}.

(** A figure with its type tag: the pair [(obj_type, obj_data)]. *)
Inductive figure : Type :=
| Fpoint (p : @point T)
| Fline (l : @line T)
| Fcircle (c : @circle T).

Definition figure_type (f : figure) : obj_type :=
  match f with
  | Fpoint _ => point_t
  | Fline _ => line_t
  | Fcircle _ => circle_t
  end.

(** [objects[f'{t}s'][id]] *)
Definition lookup_figure (o : objects_t) (t : obj_type) (id : string)
  : option figure :=
  match t with
  | point_t => option_map Fpoint (dict_get (points o) id)
  | line_t => option_map Fline (dict_get (lines o) id)
  | circle_t => option_map Fcircle (dict_get (circles o) id)
  end.

(** [State = namedtuple('State', ['objects', 'next_ids'])] *)
Record State : Type := {
  objects : objects_t;
  next_ids : next_ids_t
}.

(** Is the canonical form already carried by one of the values? *)
Definition point_known (d : dict (@point T)) (p : point) : bool :=
  existsb (fun existing_data =>
             pair_eqb (normalize_point existing_data) (normalize_point p))
          (values d).

Definition line_known (d : dict (@line T)) (l : line) : bool :=
  existsb (fun existing_data =>
             triple_eqb (normalize_line existing_data) (normalize_line l))
          (values d).

Definition circle_known (d : dict (@circle T)) (c : circle) : bool :=
  existsb (fun existing_data =>
             triple_eqb (normalize_circle existing_data) (normalize_circle c))
          (values d).

(** [_add_object(current_objects, obj_type, obj_id_num, obj_data)]
    returns [(new_objects, is_new, new_id)]; [is_new] is [True]
    exactly when [new_id] is not [None], so one option carries both.
    The three sub-mappings are copied; only the one of the figure's
    type is assigned to. *)
Definition _add_object (current_objects : objects_t) (obj_id_num : N)
           (obj_data : figure) : objects_t * option string :=
  match obj_data with
  | Fpoint p =>
      if point_known (points current_objects) p then (current_objects, None)
      else
        let new_id := make_id point_t obj_id_num in
        ({| points := dict_set (points current_objects) new_id p;
            lines := lines current_objects;
            circles := circles current_objects |}, Some new_id)
  | Fline l =>
      if line_known (lines current_objects) l then (current_objects, None)
      else
        let new_id := make_id line_t obj_id_num in
        ({| points := points current_objects;
            lines := dict_set (lines current_objects) new_id l;
            circles := circles current_objects |}, Some new_id)
  | Fcircle c =>
      if circle_known (circles current_objects) c then (current_objects, None)
      else
        let new_id := make_id circle_t obj_id_num in
        ({| points := points current_objects;
            lines := lines current_objects;
            circles := dict_set (circles current_objects) new_id c |},
         Some new_id)
  end.

(** An entry of [intersection_configs], with the figures its ids are
    looked up to. *)
Inductive config : Type :=
| ll (l1 l2 : string * @line T)
| lc (l : string * @line T) (c : string * @circle T)
| cc (c1 c2 : string * @circle T).

Definition item_ids (cfg : config) : list string :=
  match cfg with
  | ll l1 l2 => [fst l1; fst l2]
  | lc l c => [fst l; fst c]
  | cc c1 c2 => [fst c1; fst c2]
  end.

Definition intersect (cfg : config) : buffer * nat :=
  match cfg with
  | ll l1 l2 => intersect_line_line (snd l1) (snd l2)
  | lc l c => intersect_line_circle (snd l) (snd c)
  | cc c1 c2 => intersect_circle_circle (snd c1) (snd c2)
  end.

Definition intersection_configs (o : objects_t) : list config :=
  (if (2 <=? List.length (lines o))%nat
   then map (fun c => ll (fst c) (snd c)) (combinations2 (lines o))
   else [])
  ++ (if negb (List.length (lines o) =? 0)%nat && negb (List.length (circles o) =? 0)%nat
      then map (fun p => lc (fst p) (snd p)) (product (lines o) (circles o))
      else [])
  ++ (if (2 <=? List.length (circles o))%nat
      then map (fun c => cc (fst c) (snd c)) (combinations2 (circles o))
      else []).

Definition successor : Type := objects_t * step.

(** The loop [for i in range(count)]: its variables are
    [obj_after_adds], [new_point_ids] and
    [points_generated_in_this_call]; [added_new_point] is [True]
    exactly when [new_point_ids] is not empty. *)
Definition add_result (results : @buffer T) (next_point_id : N)
           (acc : objects_t * list string * N) (i : nat)
  : objects_t * list string * N :=
  let '(obj_after_adds, new_point_ids, generated) := acc in
  let p_data := buffer_get results i in
  match _add_object obj_after_adds (next_point_id + generated) (Fpoint p_data) with
  | (o', Some new_id) => (o', new_point_ids ++ [new_id], (generated + 1)%N)
  | (o', None) => (o', new_point_ids, generated)
  end.

(** One round of the loop over [intersection_configs]: the successor
    it appends, if any, and the new value of
    [points_generated_in_this_call]. *)
Definition intersection_round (o : objects_t) (next_point_id : N)
           (generated : N) (cfg : config) : option successor * N :=
  let '(results, count) := intersect cfg in
  if (count =? 0)%nat then (None, generated)
  else
    let '(obj_after_adds, new_point_ids, generated') :=
      fold_left (add_result results next_point_id) (seq 0 count)
                (o, [], generated) in
    match new_point_ids with
    | [] => (None, generated')
    | first_id :: _ =>
        (Some (obj_after_adds,
               {| operation := Intersection; inputs := item_ids cfg;
                  output_type := point_t; output_id := first_id |}),
         generated')
    end.

Fixpoint intersection_successors (o : objects_t) (next_point_id : N)
         (generated : N) (cfgs : list config) : list successor :=
  match cfgs with
  | [] => []
  | cfg :: rest =>
      match intersection_round o next_point_id generated cfg with
      | (Some s, generated') =>
          s :: intersection_successors o next_point_id generated' rest
      | (None, generated') =>
          intersection_successors o next_point_id generated' rest
      end
  end.

Definition line_successors (o : objects_t) (ids : next_ids_t)
  : list successor :=
  if (2 <=? List.length (points o))%nat then
    flat_map
      (fun pq : (string * point) * (string * point) =>
         let '((p1_id, p1), (p2_id, p2)) := pq in
         let new_line_data := construct_line_from_points p1 p2 in
         match _add_object o (next_line ids) (Fline new_line_data) with
         | (new_objs, Some new_id) =>
             [(new_objs,
               {| operation := Line; inputs := [p1_id; p2_id];
                  output_type := line_t; output_id := new_id |})]
         | (_, None) => []
         end)
      (combinations2 (points o))
  else [].

Definition circle_successors (o : objects_t) (ids : next_ids_t)
  : list successor :=
  if (2 <=? List.length (points o))%nat then
    flat_map
      (fun pq : (string * point) * (string * point) =>
         let '((center_id, center), (on_circ_id, on_circ)) := pq in
         let new_circle_data := construct_circle_from_points center on_circ in
         match _add_object o (next_circle ids) (Fcircle new_circle_data) with
         | (new_objs, Some new_id) =>
             [(new_objs,
               {| operation := Circle; inputs := [center_id; on_circ_id];
                  output_type := circle_t; output_id := new_id |})]
         | (_, None) => []
         end)
      (permutations2 (points o))
  else [].

Definition generate_successors (s : State) : list successor :=
  let o := objects s in
  let ids := next_ids s in
  intersection_successors o (next_point ids) 0 (intersection_configs o)
  ++ line_successors o ids
  ++ circle_successors o ids.

(** [points_generated_in_this_call] at the end of the loop over
    [intersection_configs]. *)
Definition points_generated (o : objects_t) (next_point_id : N)
           (cfgs : list config) : N :=
  fold_left (fun g cfg => snd (intersection_round o next_point_id g cfg))
            cfgs 0%N.

(** [generate_successors(state)] raises [ValueError]: the f-string of
    [_add_object] formats a number of more than 4300 digits.  The new
    points get the numbers [next_ids['point'] + g] for [g] below
    [points_generated], every new line the number [next_ids['line']]
    and every new circle the number [next_ids['circle']];
    [generate_successors] above is the list the call returns when it
    does not raise. *)
Definition generator_raises (s : State) : bool :=
  let o := objects s in
  let ids := next_ids s in
  let g := points_generated o (next_point ids) (intersection_configs o) in
  ((0 <? g)%N && str_raises (next_point ids + g - 1)%N)
  || (match line_successors o ids with
      | [] => false
      | _ :: _ => str_raises (next_line ids)
      end)
  || (match circle_successors o ids with
      | [] => false
      | _ :: _ => str_raises (next_circle ids)
      end).
End Solver.

(* ================================================================== *)
(** * Heuristic ([heuristic.py]) *)
(* ================================================================== *)

Section Heuristic.
Context {T : Type} {NT : Num T}.

Definition calculate_heuristic (current_objects : @objects_t T)
           (target_object_type : string) : cost :=
  let num_points := List.length (points current_objects) in
  let num_lines := List.length (lines current_objects) in
  let num_circles := List.length (circles current_objects) in
  if String.eqb target_object_type "point" then
    if (2 <=? num_lines)%nat || (2 <=? num_circles)%nat
       || ((1 <=? num_lines)%nat && (1 <=? num_circles)%nat)
    then Finite 1
    else if (2 <=? num_points)%nat then
      if (4 <=? num_points)%nat then Finite 3
      else if (3 <=? num_points)%nat then Finite 3
      else if (2 <=? num_points)%nat then Finite 3
      else Finite 5
    else Finite 5
  else if String.eqb target_object_type "line" then
    if (2 <=? num_points)%nat then Finite 1 else Finite 2
  else if String.eqb target_object_type "circle" then
    if (2 <=? num_points)%nat then Finite 1 else Finite 2
  else Infinite.
End Heuristic.

(* ================================================================== *)
(** * State hash ([primitives.py]) and search engine ([search.py]) *)
(* ================================================================== *)

Inductive exn : Set := KeyError | ValueError.

(** What a call of [solve] ends in: [(path | None, stats)] with
    [stats = {"states_explored": n}], or an exception. *)
Inductive outcome : Set :=
| Returned (path : option (list step)) (states_explored : nat)
| Raised (e : exn).

Definition MAX_OPEN_LIST_SIZE : Z := 150000.

Section Search.
Context {T : Type} {NT : Num T}.

(** [(('points',) + ..., ('lines',) + ..., ('circles',) + ...)] *)
Record state_hash : Type := {
  norm_points : list (@point T);
  norm_lines : list (@line T);
  norm_circles : list (@circle T)
}.

Definition get_state_hash (current_objects : @objects_t T) : state_hash :=
  {| norm_points :=
       sorted pair_ltb (map normalize_point (values (points current_objects)));
     norm_lines :=
       sorted triple_ltb (map normalize_line (values (lines current_objects)));
     norm_circles :=
       sorted triple_ltb
              (map normalize_circle (values (circles current_objects))) |}.

Definition hash_eqb (a b : state_hash) : bool :=
  list_eqb pair_eqb (norm_points a) (norm_points b)
  && list_eqb triple_eqb (norm_lines a) (norm_lines b)
  && list_eqb triple_eqb (norm_circles a) (norm_circles b).

(** [h in visited] *)
Definition visited_mem (h : state_hash) (visited : list state_hash) : bool :=
  existsb (hash_eqb h) visited.

(** [SearchNode]; the heap orders nodes by [(priority, tie_breaker)],
    and tie-breakers are pairwise distinct, so no later field is ever
    compared. *)
Record SearchNode : Type := {
  priority : cost;
  tie_breaker : nat;
  g_cost : nat;
  state : @State T;
  path : list step
}.

Definition node_ltb (a b : SearchNode) : bool :=
  cost_ltb (priority a) (priority b)
  || (cost_eqb (priority a) (priority b)
      && (tie_breaker a <? tie_breaker b)%nat).

(** [heapq] on distinct keys is a priority queue: kept here as the
    list of its nodes in increasing key order. *)
Definition heappush (open_list : list SearchNode) (n : SearchNode)
  : list SearchNode :=
  insert_sorted node_ltb n open_list.

Definition heappop (open_list : list SearchNode)
  : option (SearchNode * list SearchNode) :=
  match open_list with
  | [] => None
  | n :: rest => Some (n, rest)
  end.

(** The mutable variables of [solve]: [open_list], [visited] (a set
    that only ever receives keys it does not hold, so its length is
    [len(visited)]) and [tie_breaker_counter]. *)
Record engine : Type := {
  open_list : list SearchNode;
  visited : list state_hash;
  tie_breaker_counter : nat
}.

Inductive loop_state : Type :=
| Continue (e : engine)
| Stop (o : outcome).

Section Run.
(** [target_definition]: [main.py] builds it with [type] one of
    ['point'], ['line'], ['circle'] and [data] of the matching
    shape; the tagged figure carries both. *)
Variable target_definition : @figure T.
Variable max_steps : Z.

Definition target_type : obj_type := figure_type target_definition.

(** [norm_funcs[object_type](data) == target_norm] *)
Definition is_goal (newly_created : @figure T) : bool :=
  match newly_created, target_definition with
  | Fpoint p, Fpoint t => pair_eqb (normalize_point p) (normalize_point t)
  | Fline l, Fline t => triple_eqb (normalize_line l) (normalize_line t)
  | Fcircle c, Fcircle t =>
      triple_eqb (normalize_circle c) (normalize_circle t)
  | _, _ => false
  end.

(** Lines 102-109: the next-id counters stored with a successor. *)
Definition advance_ids (current_ids : next_ids_t) (newly_created_type : obj_type)
           (new_id_num : N) : next_ids_t :=
  if (get_next current_ids newly_created_type <=? new_id_num)%N
  then set_next current_ids newly_created_type (new_id_num + 1)%N
  else current_ids.

(** The body of [for new_objects_state, step_info in successors]. *)
Definition visit (current_state : @State T) (g_cost0 : nat)
           (path0 : list step) (e : engine) (s : @successor T)
  : loop_state :=
  let '(new_objects_state, step_info) := s in
  let new_state_hash := get_state_hash new_objects_state in
  if visited_mem new_state_hash (visited e) then Continue e
  else if (MAX_OPEN_LIST_SIZE <? Z.of_nat (List.length (open_list e)))%Z
  then Continue e
  else
    let visited' := new_state_hash :: visited e in
    let newly_created_id := output_id step_info in
    let newly_created_type := output_type step_info in
    match lookup_figure new_objects_state newly_created_type newly_created_id with
    | None => Stop (Raised KeyError)
    | Some newly_created_data =>
        let new_path := path0 ++ [step_info] in
        if is_goal newly_created_data
        then Stop (Returned (Some new_path) (List.length visited'))
        else
          let new_g := (g_cost0 + 1)%nat in
          match calculate_heuristic new_objects_state (type_name target_type) with
          | Infinite =>
              Continue {| open_list := open_list e; visited := visited';
                          tie_breaker_counter := tie_breaker_counter e |}
          | Finite new_h =>
              match py_int (tail (output_id step_info)) with
              | None => Stop (Raised ValueError)
              | Some new_id_num =>
                  let new_ids :=
                    advance_ids (next_ids current_state) newly_created_type
                                new_id_num in
                  let new_node :=
                    {| priority := Finite (new_g + new_h);
                       tie_breaker := tie_breaker_counter e;
                       g_cost := new_g;
                       state := {| objects := new_objects_state;
                                   next_ids := new_ids |};
                       path := new_path |} in
                  Continue {| open_list := heappush (open_list e) new_node;
                              visited := visited';
                              tie_breaker_counter := S (tie_breaker_counter e) |}
              end
          end
    end.

Fixpoint visit_all (current_state : @State T) (g_cost0 : nat)
         (path0 : list step) (e : engine) (successors : list (@successor T))
  : loop_state :=
  match successors with
  | [] => Continue e
  | s :: rest =>
      match visit current_state g_cost0 path0 e s with
      | Continue e' => visit_all current_state g_cost0 path0 e' rest
      | Stop o => Stop o
      end
  end.

(** One turn of [while open_list]. *)
Definition iteration (e : engine) : loop_state :=
  match heappop (open_list e) with
  | None => Stop (Returned None (List.length (visited e)))
  | Some (n, rest) =>
      let e' := {| open_list := rest; visited := visited e;
                   tie_breaker_counter := tie_breaker_counter e |} in
      if (max_steps <=? Z.of_nat (g_cost n))%Z then Continue e'
      else if generator_raises (state n) then Stop (Raised ValueError)
      else visit_all (state n) (g_cost n) (path n) e'
                     (generate_successors (state n))
  end.

Fixpoint solve_loop (fuel : nat) (e : engine) : option outcome :=
  match fuel with
  | O => None
  | S fuel' =>
      match iteration e with
      | Stop o => Some o
      | Continue e' => solve_loop fuel' e'
      end
  end.

(** The node and the hash [solve] starts the loop with. *)
Definition start_engine (s0 : @State T) : engine :=
  let h_cost := calculate_heuristic (objects s0) (type_name target_type) in
  {| open_list :=
       heappush [] {| priority := cost_add 0 h_cost; tie_breaker := 0;
                      g_cost := 0; state := s0; path := [] |};
     visited := [get_state_hash (objects s0)];
     tie_breaker_counter := 1 |}.

(** [initial_state] when the seeding of the counters raises
    nothing ([initial_ids_state]). *)
Definition initial_state (initial_objects : @objects_t T) : @State T :=
  {| objects := initial_objects;
     next_ids :=
       {| next_point := first_free (keys (points initial_objects));
          next_line := first_free (keys (lines initial_objects));
          next_circle := first_free (keys (circles initial_objects)) |} |}.

Definition initial_engine (initial_objects : @objects_t T) : engine :=
  start_engine (initial_state initial_objects).

End Run.

(** [initial_ids]; [None]: a conversion raised [ValueError]. *)
Definition initial_ids (initial_objects : @objects_t T)
  : option next_ids_t :=
  match seed_counter (keys (points initial_objects)) with
  | None => None
  | Some p =>
      match seed_counter (keys (lines initial_objects)) with
      | None => None
      | Some l =>
          match seed_counter (keys (circles initial_objects)) with
          | None => None
          | Some c =>
              Some {| next_point := p; next_line := l; next_circle := c |}
          end
      end
  end.

(** [solve(initial_objects, target_definition, max_steps)], run for
    at most [fuel] turns of its [while] loop; [None] when the fuel
    runs out first. *)
Definition solve (initial_objects : @objects_t T)
           (target_definition : @figure T) (max_steps : Z) (fuel : nat)
  : option outcome :=
  match initial_ids initial_objects with
  | None => Some (Raised ValueError)
  | Some ids =>
      solve_loop target_definition max_steps fuel
                 (start_engine target_definition
                               {| objects := initial_objects;
                                  next_ids := ids |})
  end.
End Search.
(* ================================================================== *)
(** * Problem instances (binary64) *)
(* ================================================================== *)

Module Instances.
Local Open Scope string_scope.
Local Open Scope float_scope.

Definition origin : @point float := (0, 0).
Definition unit_x : @point float := (1, 0).

(** Knowns [p1 = (0,0)], [p2 = (1,0)] and the line through them, as
    [main.py] marshals them. *)
Definition two_points_and_line : @objects_t float :=
  {| points := [("p1", origin); ("p2", unit_x)];
     lines := [("l1", construct_line_from_points origin unit_x)];
     circles := [] |}.

(** Knowns [p1], [p2], the line through them and the two circles
    centred at one and passing through the other. *)
Definition two_points_line_circles : @objects_t float :=
  {| points := [("p1", origin); ("p2", unit_x)];
     lines := [("l1", construct_line_from_points origin unit_x)];
     circles := [("c1", construct_circle_from_points origin unit_x);
                 ("c2", construct_circle_from_points unit_x origin)] |}.

(** A target no construction below reaches. *)
Definition far_line : @figure float := Fline (1, 0, -5).

(** The third node enqueued when [two_points_line_circles] is
    expanded: the successor of the intersection of [c1] and [c2]. *)
Definition after_circle_circle : @State float :=
  {| objects :=
       {| points := [("p1", origin); ("p2", unit_x);
                     ("p5", (0.5, 0.8660254037844386));
                     ("p6", (0.5, -0.8660254037844386))];
          lines := lines two_points_line_circles;
          circles := circles two_points_line_circles |};
     next_ids := {| next_point := 6; next_line := 2; next_circle := 3 |} |}.

(** Two points whose line has first normalised coefficient exactly
    [1e-9]. *)
Definition gap_p1 : @point float := (0, 1e-9).
Definition gap_p2 : @point float := (1, 0).

Definition steep_line : @line float := (1, 1, 1e6).

(** Knowns [p1 = (0,0)], [p2 = (1,0)], [p3 = (-1,0)], the line
    through [p2] and [p3] and the circle centred at [p1] through
    [p2]: the line cuts the circle at [p2] and [p3]. *)
Definition minus_x : @point float := (-1, 0).

Definition chord_known : @objects_t float :=
  {| points := [("p1", origin); ("p2", unit_x); ("p3", minus_x)];
     lines := [("l1", construct_line_from_points unit_x minus_x)];
     circles := [("c1", construct_circle_from_points origin unit_x)] |}.

Definition chord_config : @config float :=
  lc ("l1", construct_line_from_points unit_x minus_x)
     ("c1", construct_circle_from_points origin unit_x).

(** Knowns [p1], [p2] and the two circles; their intersection yields
    two new points. *)
Definition two_circles : @objects_t float :=
  {| points := [("p1", origin); ("p2", unit_x)];
     lines := [];
     circles := [("c1", construct_circle_from_points origin unit_x);
                 ("c2", construct_circle_from_points unit_x origin)] |}.

Definition two_circles_config : @config float :=
  cc ("c1", construct_circle_from_points origin unit_x)
     ("c2", construct_circle_from_points unit_x origin).

(** Knowns [p1 = (3,4)], [p2 = (0,0)]; the target is [p1] itself. *)
Definition target_given : @objects_t float :=
  {| points := [("p1", (3, 4)); ("p2", origin)];
     lines := [];
     circles := [] |}.

(** The key ['p\u00b2'] (code points 112 and 178: the letter and the
    superscript two) for the point [(3, 4)]. *)
Definition superscript_key : @objects_t float :=
  {| points := [(String "p" (String "178" EmptyString), (3, 4))];
     lines := [];
     circles := [] |}.
End Instances.

(** The counters are above every ordinal in use: for each type, every
    key whose tail reads as a number reads below the counter. *)
Definition ordinals_below (ks : list string) (n : N) : bool :=
  forallb (fun k => match ordinal (tail k) with
                    | Some m => (m <? n)%N
                    | None => true
                    end) ks.

Definition counters_above {T : Type} (s : @State T) : bool :=
  ordinals_below (keys (points (objects s))) (next_point (next_ids s))
  && ordinals_below (keys (lines (objects s))) (next_line (next_ids s))
  && ordinals_below (keys (circles (objects s))) (next_circle (next_ids s)).

(** The states of the nodes in the open list after [n] turns of the
    loop. *)
Fixpoint engine_after {T : Type} {NT : Num T} (target : @figure T)
         (max_steps : Z) (n : nat) (e : @engine T) : option (@engine T) :=
  match n with
  | O => Some e
  | S n' =>
      match iteration target max_steps e with
      | Continue e' => engine_after target max_steps n' e'
      | Stop _ => None
      end
  end.

Definition enqueued_states {T : Type} (e : @engine T) : list (@State T) :=
  map (@state T) (open_list e).

(* ================================================================== *)
(** * Predicates used by the specification *)
(* ================================================================== *)

Section SuccessorPredicates.
Context {T : Type} {NT : Num T}.

(** The step of a successor names a figure of the successor's state,
    under an id whose tail reads as a number. *)
Definition step_resolves (x : @successor T) : Prop :=
  lookup_figure (fst x) (output_type (snd x)) (output_id (snd x)) <> None
  /\ exists n, ordinal (tail (output_id (snd x))) = Some n.

(** The ids collected by the loop over the results all name points of
    the state built so far. *)
Definition ids_resolve (acc : @objects_t T * list string * N) : Prop :=
  let '(o, ids, _) := acc in
  forall id, In id ids ->
    lookup_figure o point_t id <> None
    /\ exists n, ordinal (tail id) = Some n.
End SuccessorPredicates.

(* ================================================================== *)
(** * Termination measure of the search loop *)
(* ================================================================== *)

Section Measure.
Context {T : Type} {NT : Num T}.

(** The state [solve] stores in the node it pushes for a successor. *)
Definition child_state (s : @State T) (x : @successor T) : @State T :=
  {| objects := fst x;
     next_ids :=
       match ordinal (tail (output_id (snd x))) with
       | Some n => advance_ids (next_ids s) (output_type (snd x)) n
       | None => next_ids s
       end |}.

(** Number of nodes of the tree of constructions of depth at most [d]
    rooted at a state. *)
Fixpoint weight (d : nat) (s : @State T) : nat :=
  match d with
  | O => 1
  | S d' =>
      S (list_sum (map (fun x => weight d' (child_state s x))
                       (generate_successors s)))
  end.

(** Steps left before the budget [max_steps] stops a node of cost [g]. *)
Definition depth_left (max_steps : Z) (g : nat) : nat :=
  Z.to_nat (max_steps - Z.of_nat g).

Definition node_weight (max_steps : Z) (n : @SearchNode T) : nat :=
  weight (depth_left max_steps (g_cost n)) (state n).

Definition open_weight (max_steps : Z) (e : @engine T) : nat :=
  list_sum (map (node_weight max_steps) (open_list e)).
End Measure.

(** What [solve] may end in: [(None, stats)], a path of at least one
    step, or the [ValueError] of a conversion between [int] and [str];
    no [KeyError], and never an empty path. *)
Definition allowed_outcome (o : outcome) : Prop :=
  match o with
  | Returned None _ => True
  | Returned (Some p) _ => 1 <= List.length p
  | Raised ValueError => True
  | Raised KeyError => False
  end.

(* ================================================================== *)
(** * Vocabulary for the successor generator's specification *)
(* ================================================================== *)

Section SuccessorVocabulary.
Context {T : Type} {NT : Num T}.

(** [points[id] = p] on a copy of the state. *)
Definition with_point (o : @objects_t T) (id : string) (p : @point T)
  : @objects_t T :=
  {| points := dict_set (points o) id p;
     lines := lines o;
     circles := circles o |}.

Definition intersection_step (cfg : @config T) (id : string) : step :=
  {| operation := Intersection; inputs := item_ids cfg;
     output_type := point_t; output_id := id |}.

(** Value of [points_generated_in_this_call] after the rounds for
    [cfgs]. *)
Definition generated_after (o : @objects_t T) (next_point_id : N)
           (generated : N) (cfgs : list (@config T)) : N :=
  fold_left (fun g cfg => snd (intersection_round o next_point_id g cfg))
            cfgs generated.

(** Is the canonical form of a figure carried by a figure of its type? *)
Definition figure_known (o : @objects_t T) (f : @figure T) : bool :=
  match f with
  | Fpoint p => point_known (points o) p
  | Fline l => line_known (lines o) l
  | Fcircle c => circle_known (circles o) c
  end.
End SuccessorVocabulary.

(* ================================================================== *)
(** * Vocabulary for the exact reading of the kernel *)
(* ================================================================== *)

(** The first two coefficients of a line form a vector of length 1. *)
Definition unit_direction (l : @line R) : Prop :=
  let '(a, b, _) := l in nsqrt (sq a + sq b)%num = 1%R.

(** After the sign convention of [normalize_line] the first
    coefficient is above [1e-9], or of magnitude exactly [1e-9], or
    below it in magnitude with a second coefficient that is not below
    [-1e-9]. *)
Definition settled (A B : R) : Prop :=
  (1 / 1000000000 < A
   \/ Rabs A = 1 / 1000000000
   \/ (Rabs A < 1 / 1000000000 /\ (0 <= B \/ Rabs B <= 1 / 1000000000)))%R.

(** A point lies on a line. *)
Definition on_line (l : @line R) (p : @point R) : Prop :=
  let '(a, b, c) := l in (a * fst p + b * snd p + c = 0)%R.

(** Unfolds the operations of [Num] at the instance in use. *)
Ltac num_ops :=
  cbv [nadd nsub nmul ndiv nopp nabs nsqrt nltb neqb nzero ntwo EPSILON nnan
       round_hp Num_R Num_float sq ngtb] in *.

(** The line [5x + 12y + 13000000 = 0]. *)
Definition skew_line : @line R := (5, 12, 13000000)%R.

(* ================================================================== *)
(** * Vocabulary for the growth of states *)
(* ================================================================== *)

Section GrowthVocabulary.
Context {T : Type} {NT : Num T}.

(** Every (id, figure) pair of [o] is a pair of [o']. *)
Definition keeps (o o' : @objects_t T) : Prop :=
  forall t k f, lookup_figure o t k = Some f -> lookup_figure o' t k = Some f.

(** While the results of one intersection are added to [o], the ids
    stay below the next one to allocate and nothing is lost. *)
Definition round_invariant (o : @objects_t T) (n : N)
           (acc : @objects_t T * list string * N) : Prop :=
  let '(o', _, g) := acc in
  ordinals_below (keys (points o')) (n + g) = true /\ keeps o o'.
End GrowthVocabulary.

Section NoveltyVocabulary.
Context {T : Type} {NT : Num T}.

(** The sub-mappings of the types other than [t] are those of [o]. *)
Definition same_elsewhere (t : obj_type) (o o' : @objects_t T) : Prop :=
  match t with
  | point_t => lines o' = lines o /\ circles o' = circles o
  | line_t => points o' = points o /\ circles o' = circles o
  | circle_t => points o' = points o /\ lines o' = lines o
  end.

(** While the results of one intersection are added to [o]: lines
    and circles are untouched, and the first id collected, if any,
    names a point that was not canonically known in [o]. *)
Definition first_is_new (o : @objects_t T) (n : N)
           (acc : @objects_t T * list string * N) : Prop :=
  let '(o', ids, g) := acc in
  lines o' = lines o /\ circles o' = circles o
  /\ match ids with
     | [] => o' = o
     | id :: _ =>
         exists g0 p,
           (g0 < g)%N /\ id = make_id point_t (n + g0)
           /\ dict_get (points o') id = Some p
           /\ point_known (points o) p = false
     end.
End NoveltyVocabulary.

(* ================================================================== *)
(** * The open list as a priority queue *)
(* ================================================================== *)

Section HeapVocabulary.
Context {T : Type} {NT : Num T}.

(** The open list is in increasing order of [(priority, tie_breaker)]
    and every tie-breaker in it was drawn from the counter. *)
Definition heap_invariant (e : @engine T) : Prop :=
  StronglySorted (fun a b => node_ltb a b = true) (open_list e)
  /\ Forall (fun n => tie_breaker n < tie_breaker_counter e) (open_list e).
End HeapVocabulary.

(* ================================================================== *)
(** * Vocabulary for the properties of the search as a whole *)
(* ================================================================== *)

Section PathVocabulary.
Context {T : Type} {NT : Num T}.

(** [constructs s p s']: the steps [p], each one the step of a
    successor of the state reached so far, lead from [s] to [s'],
    the counters being advanced as [solve] advances them. *)
Inductive constructs (s : @State T) : list step -> @State T -> Prop :=
| constructs_nil : constructs s [] s
| constructs_snoc (p : list step) (s1 : @State T) (x : @successor T) :
    constructs s p s1 ->
    In x (generate_successors s1) ->
    constructs s (p ++ [snd x]) (child_state s1 x).

(** Every open node carries the steps that construct its state from
    the initial one, and as many of them as its cost. *)
Definition nodes_constructed (s0 : @State T) (e : @engine T) : Prop :=
  Forall (fun n => constructs s0 (path n) (state n)
                   /\ List.length (path n) = g_cost n)
         (open_list e).

(** A path returned by the search: a construction from the initial
    state [s0], within the budget, whose last step outputs a figure
    that passes the goal test. *)
Definition returned_path_ok (target : @figure T) (max_steps : Z)
           (s0 : @State T) (p : list step) : Prop :=
  exists p1 s1 (x : @successor T) f,
    p = p1 ++ [snd x]
    /\ constructs s0 p1 s1
    /\ In x (generate_successors s1)
    /\ lookup_figure (fst x) (output_type (snd x)) (output_id (snd x)) = Some f
    /\ is_goal target f = true
    /\ (Z.of_nat (List.length p) <= max_steps)%Z.

(** No construction applies: fewer than two points, and no two
    figures to intersect. *)
Definition stuck (o : @objects_t T) : bool :=
  (List.length (points o) <? 2)%nat
  && (List.length (lines o) + List.length (circles o) <? 2)%nat.

(** The ids a step may take as inputs, by operation. *)
Definition input_pool (o : @objects_t T) (op : operation_t) : list string :=
  match op with
  | Intersection => keys (lines o) ++ keys (circles o)
  | Line | Circle => keys (points o)
  end.

(** The type a step's operation outputs. *)
Definition operation_output (op : operation_t) : obj_type :=
  match op with
  | Intersection => point_t
  | Line => line_t
  | Circle => circle_t
  end.
End PathVocabulary.
(* ================================================================== *)
(** * Vocabulary for the exact reading of circles *)
(* ================================================================== *)

(** A point lies on a circle [(cx, cy, r_sq)]. *)
Definition on_circle (c : @circle R) (p : @point R) : Prop :=
  let '(cx, cy, r_sq) := c in
  ((fst p - cx) * (fst p - cx) + (snd p - cy) * (snd p - cy) = r_sq)%R.

Section RadicalLine.
Context {T : Type} {NT : Num T}.
Local Open Scope num_scope.

(** [radical_line] of [intersect_circle_circle]. *)
Definition radical_line (c1 c2 : @circle T) : @line T :=
  let '(x1, y1, r1_sq) := c1 in
  let '(x2, y2, r2_sq) := c2 in
  let A := ntwo * (x2 - x1) in
  let B := ntwo * (y2 - y1) in
  let C := (sq x1 - sq x2) + (sq y1 - sq y2) - (r1_sq - r2_sq) in
  (A, B, C).
End RadicalLine.
(* ================================================================== *)
(** * Vocabulary for lines and circles along a construction *)
(* ================================================================== *)

(** The line and circle counters are above every ordinal in use. *)
Definition shapes_above {T : Type} (s : @State T) : bool :=
  ordinals_below (keys (lines (objects s))) (next_line (next_ids s))
  && ordinals_below (keys (circles (objects s))) (next_circle (next_ids s)).

(** Every (id, line) and (id, circle) pair of [o] is a pair of [o']. *)
Definition keeps_shapes {T : Type} (o o' : @objects_t T) : Prop :=
  forall t k f, t <> point_t ->
                lookup_figure o t k = Some f -> lookup_figure o' t k = Some f.
(* ================================================================== *)
(** * Marshalling of the knowns ([main.py], [schemas.py]) *)
(* ================================================================== *)

Section Marshalling.
Context {T : Type} {NT : Num T}.

(** [PointKnown], [LineKnown] and [CircleKnown] of [schemas.py].
    [coords] is a list of floats that [np.array] turns into the
    point; the model covers the requests whose [coords] have two
    entries. *)
Inductive known : Type :=
| PointKnown (id : string) (coords : @point T)
| LineKnown (id : string) (points : list string)
| CircleKnown (id : string) (center point_on_circumference : string).

(** What the marshalling block of [solve_problem] ends in: the
    initial objects; [HTTPException(status_code=422)], raised for the
    [KeyError] on the id [missing]; or the [IndexError] of
    [obj.points[i]], which the block does not catch. *)
Inductive marshalled : Type :=
| Marshalled (initial_objects : @objects_t T)
| Http422 (missing : string)
| IndexError.

(** First loop: [initial_objects['points'][obj.id] = coords]. *)
Definition marshal_points (knowns : list known) : dict (@point T) :=
  fold_left (fun d obj =>
               match obj with
               | PointKnown id coords => dict_set d id coords
               | _ => d
               end) knowns [].

(** Second loop: lines and circles, built by the kernel from the
    points of the first loop. *)
Fixpoint marshal_figures (pts : dict (@point T)) (ls : dict (@line T))
         (cs : dict (@circle T)) (knowns : list known) : marshalled :=
  match knowns with
  | [] => Marshalled {| points := pts; lines := ls; circles := cs |}
  | PointKnown _ _ :: rest => marshal_figures pts ls cs rest
  | LineKnown id ids :: rest =>
      match nth_error ids 0 with
      | None => IndexError
      | Some k1 =>
          match dict_get pts k1 with
          | None => Http422 k1
          | Some p1 =>
              match nth_error ids 1 with
              | None => IndexError
              | Some k2 =>
                  match dict_get pts k2 with
                  | None => Http422 k2
                  | Some p2 =>
                      marshal_figures
                        pts
                        (dict_set ls id (construct_line_from_points p1 p2))
                        cs rest
                  end
              end
          end
      end
  | CircleKnown id center_id on_circ_id :: rest =>
      match dict_get pts center_id with
      | None => Http422 center_id
      | Some center =>
          match dict_get pts on_circ_id with
          | None => Http422 on_circ_id
          | Some on_circ =>
              marshal_figures
                pts ls
                (dict_set cs id
                          (construct_circle_from_points center on_circ))
                rest
          end
      end
  end.

Definition marshal (knowns : list known) : marshalled :=
  marshal_figures (marshal_points knowns) [] [] knowns.

(** The ids of the points among the knowns. *)
Definition known_point_ids (knowns : list known) : list string :=
  flat_map (fun obj => match obj with
                       | PointKnown id _ => [id]
                       | _ => []
                       end) knowns.

(** The point ids a known reads: the first two of a line's list, the
    centre and the point on the circumference of a circle. *)
Definition refers (obj : known) (k : string) : Prop :=
  match obj with
  | PointKnown _ _ => False
  | LineKnown _ ids => nth_error ids 0 = Some k \/ nth_error ids 1 = Some k
  | CircleKnown _ c p => k = c \/ k = p
  end.

(** A line names at least two ids. *)
Definition well_formed (obj : known) : Prop :=
  match obj with
  | LineKnown _ ids => 2 <= List.length ids
  | _ => True
  end.

(** The line stored under [id] is the kernel's line through the
    points that a known line of that id names first and second. *)
Definition line_built (pts : dict (@point T)) (knowns : list known)
           (id : string) (l : @line T) : Prop :=
  exists ids k1 k2 p1 p2,
    In (LineKnown id ids) knowns
    /\ nth_error ids 0 = Some k1 /\ nth_error ids 1 = Some k2
    /\ dict_get pts k1 = Some p1 /\ dict_get pts k2 = Some p2
    /\ l = construct_line_from_points p1 p2.

(** The circle stored under [id] is the kernel's circle for the
    centre and the point that a known circle of that id names. *)
Definition circle_built (pts : dict (@point T)) (knowns : list known)
           (id : string) (c : @circle T) : Prop :=
  exists k1 k2 p1 p2,
    In (CircleKnown id k1 k2) knowns
    /\ dict_get pts k1 = Some p1 /\ dict_get pts k2 = Some p2
    /\ c = construct_circle_from_points p1 p2.
End Marshalling.
(* ================================================================== *)
(** * Vocabulary for the size of a state *)
(* ================================================================== *)

(** [o'] has at least as many points, lines and circles as [o]. *)
Definition grows {T : Type} (o o' : @objects_t T) : Prop :=
  List.length (points o) <= List.length (points o')
  /\ List.length (lines o) <= List.length (lines o')
  /\ List.length (circles o) <= List.length (circles o').
(* ================================================================== *)
(** * Runs of [solve] over containers that keep no order *)
(* ================================================================== *)

(** [solve] keeps its open nodes in a [heapq] and its hashes in a
    [set].  Neither container promises an arrangement of its items: a
    set stores them by hash value, and a binary heap only promises that
    [heappop] returns a smallest item.  The runs below let both
    containers hold their items in any arrangement, and rearrange them
    between two turns of the loop. *)
Section Runs.
Context {T : Type} {NT : Num T}.
Variable target_definition : @figure T.
Variable max_steps : Z.

(** [heapq.heappop(heap)]: removes and returns a smallest item, one
    that no other item of the heap is below. *)
Definition pops (heap : list (@SearchNode T)) (n : @SearchNode T)
           (rest : list (@SearchNode T)) : Prop :=
  Permutation heap (n :: rest)
  /\ Forall (fun m => node_ltb m n = false) rest.

(** The same items in [open_list] and in [visited], and the same
    value of the tie-breaker counter. *)
Definition same_contents (e1 e2 : @engine T) : Prop :=
  Permutation (open_list e1) (open_list e2)
  /\ Permutation (visited e1) (visited e2)
  /\ tie_breaker_counter e1 = tie_breaker_counter e2.

(** The body of [while open_list] after the pop (lines 76-113). *)
Definition turn (n : @SearchNode T) (e : @engine T) : @loop_state T :=
  if (max_steps <=? Z.of_nat (g_cost n))%Z then Continue e
  else if generator_raises (state n) then Stop (Raised ValueError)
  else visit_all target_definition (state n) (g_cost n) (path n) e
                 (generate_successors (state n)).

Inductive runs : @engine T -> outcome -> Prop :=
| runs_exhausted (e : @engine T) :
    open_list e = [] ->
    runs e (Returned None (List.length (visited e)))
| runs_stop (e : @engine T) n rest o :
    pops (open_list e) n rest ->
    turn n {| open_list := rest; visited := visited e;
              tie_breaker_counter := tie_breaker_counter e |} = Stop o ->
    runs e o
| runs_turn (e : @engine T) n rest e1 e2 o :
    pops (open_list e) n rest ->
    turn n {| open_list := rest; visited := visited e;
              tie_breaker_counter := tie_breaker_counter e |}
    = Continue e1 ->
    same_contents e1 e2 ->
    runs e2 o ->
    runs e o.

(** An invocation [solve(initial_objects, target_definition,
    max_steps)] and what it ends in. *)
Inductive invocation (initial_objects : @objects_t T) : outcome -> Prop :=
| invocation_unseeded :
    initial_ids initial_objects = None ->
    invocation initial_objects (Raised ValueError)
| invocation_seeded ids e o :
    initial_ids initial_objects = Some ids ->
    same_contents
      (start_engine target_definition
                    {| objects := initial_objects; next_ids := ids |}) e ->
    runs e o ->
    invocation initial_objects o.

(** The tie-breakers of the open nodes are pairwise distinct and were
    all drawn from the counter. *)
Definition distinct_keys (e : @engine T) : Prop :=
  NoDup (map (@tie_breaker T) (open_list e))
  /\ Forall (fun n => tie_breaker n < tie_breaker_counter e) (open_list e).

(** [g + h]: the cost of a node plus the heuristic value of its
    state. *)
Definition f_cost (n : @SearchNode T) : cost :=
  cost_add (g_cost n)
           (calculate_heuristic (objects (state n))
                                (type_name (figure_type target_definition))).

(** Every open node carries its [g + h] as priority and the length of
    its path as cost. *)
Definition priorities_kept (e : @engine T) : Prop :=
  Forall (fun n => priority n = f_cost n /\ g_cost n = List.length (path n))
         (open_list e).
End Runs.
(* ================================================================== *)
(** * The real number a binary64 stands for *)
(* ================================================================== *)

(** A finite binary64 [(-1)^s * m * 2^e] as a fraction of two
    integers. *)
Definition numerator (x : float) : Z :=
  match Prim2SF x with
  | S754_finite s m e => (if s then Z.neg m else Z.pos m) * 2 ^ Z.max 0 e
  | _ => 0
  end.

Definition denominator (x : float) : Z :=
  match Prim2SF x with
  | S754_finite s m e => 2 ^ Z.max 0 (- e)
  | _ => 1
  end.

(** Its value; 0 for the zeros, and for the infinities and NaN, which
    stand for no real number. *)
Definition real_of (x : float) : R :=
  (IZR (numerator x) / IZR (denominator x))%R.

(** Evaluates [real_of] at the binary64 literals of the goal. *)
Ltac real_values :=
  unfold real_of;
  repeat match goal with
         | |- context [numerator ?x] =>
             let n := eval vm_compute in (numerator x) in
             change (numerator x) with n
         | |- context [denominator ?x] =>
             let n := eval vm_compute in (denominator x) in
             change (denominator x) with n
         end.
(* ================================================================== *)
(** * Identifiers and dictionaries *)
(* ================================================================== *)

Lemma all_digits_string_of_uint (d : Decimal.uint) :
  all_digits (NilEmpty.string_of_uint d) = true.
Proof. induction d; simpl; auto. Qed.

Lemma to_uint_not_nil (n : N) : N.to_uint n <> Decimal.Nil.
Proof.
  destruct n as [|p]; simpl.
  - discriminate.
  - apply DecimalPos.Unsigned.to_uint_nonnil.
Qed.

Lemma ascii_digits_str_of_N (n : N) : ascii_digits (str_of_N n) = true.
Proof.
  unfold ascii_digits, str_of_N.
  pose proof (to_uint_not_nil n) as Hn.
  pose proof (all_digits_string_of_uint (N.to_uint n)) as Hd.
  destruct (N.to_uint n); simpl in *; try congruence; exact Hd.
Qed.

Lemma ordinal_str_of_N (n : N) : ordinal (str_of_N n) = Some n.
Proof.
  unfold ordinal. rewrite ascii_digits_str_of_N.
  unfold str_of_N. rewrite NilEmpty.usu.
  now rewrite DecimalN.Unsigned.of_to.
Qed.

Lemma tail_make_id (t : obj_type) (n : N) : tail (make_id t n) = str_of_N n.
Proof. destruct t; reflexivity. Qed.

Lemma ordinal_make_id (t : obj_type) (n : N) :
  ordinal (tail (make_id t n)) = Some n.
Proof. rewrite tail_make_id. apply ordinal_str_of_N. Qed.

Lemma py_int_ordinal (s : string) (n : N) :
  py_int s = Some n -> ordinal s = Some n.
Proof. unfold py_int. destruct (_ <=? _)%nat; [auto|discriminate]. Qed.

Lemma ascii_digits_isdigit (s : string) :
  ascii_digits s = true -> isdigit s = true.
Proof.
  assert (H : forall s, all_digits s = true -> all_py_digits s = true).
  { clear s. induction s as [|c s IH]; simpl; [auto|].
    intros H. apply andb_prop in H. destruct H as [Hc Hs].
    unfold is_py_digit. rewrite Hc, (IH Hs). reflexivity. }
  destruct s as [|c s]; [discriminate|]. apply H.
Qed.

Lemma make_id_inj (t : obj_type) (n m : N) :
  make_id t n = make_id t m -> n = m.
Proof.
  intros H. apply (f_equal (fun s => ordinal (tail s))) in H.
  rewrite !ordinal_make_id in H. congruence.
Qed.

Section DictFacts.
Variable V : Type.
Implicit Types (d : dict V) (k : string) (v : V).

Lemma dict_get_set d k k' v :
  dict_get (dict_set d k' v) k =
  if String.eqb k' k then Some v else dict_get d k.
Proof.
  induction d as [|[k0 v0] d IH]; simpl.
  - reflexivity.
  - destruct (String.eqb k0 k') eqn:E0; simpl.
    + apply String.eqb_eq in E0. subst k0.
      destruct (String.eqb k' k); reflexivity.
    + destruct (String.eqb k0 k) eqn:E1.
      * apply String.eqb_eq in E1. subst k0.
        rewrite String.eqb_sym in E0. now rewrite E0.
      * exact IH.
Qed.

Lemma dict_get_set_same d k v : dict_get (dict_set d k v) k = Some v.
Proof. rewrite dict_get_set. now rewrite String.eqb_refl. Qed.

Lemma dict_get_set_present d k k' v :
  dict_get d k <> None -> dict_get (dict_set d k' v) k <> None.
Proof.
  intros H. rewrite dict_get_set. destruct (String.eqb k' k); congruence.
Qed.

Lemma dict_get_None_not_key d k :
  dict_get d k = None -> ~ In k (keys d).
Proof.
  induction d as [|[k0 v0] d IH]; simpl; intros H.
  - tauto.
  - destruct (String.eqb k0 k) eqn:E; [discriminate|].
    apply String.eqb_neq in E. intros [->|Hin]; [congruence|].
    now apply IH.
Qed.

(** Assigning to a key the dictionary does not hold appends. *)
Lemma dict_set_fresh d k v :
  ~ In k (keys d) -> dict_set d k v = d ++ [(k, v)].
Proof.
  induction d as [|[k0 v0] d IH]; simpl; intros H.
  - reflexivity.
  - destruct (String.eqb k0 k) eqn:E.
    + apply String.eqb_eq in E. subst. tauto.
    + f_equal. apply IH. tauto.
Qed.

Lemma dict_set_length d k v :
  List.length d <= List.length (dict_set d k v).
Proof.
  induction d as [|[k0 v0] d IH]; simpl.
  - lia.
  - destruct (String.eqb k0 k); simpl; lia.
Qed.
End DictFacts.

Lemma list_sum_insert_sorted (A : Type) (ltb : A -> A -> bool) (f : A -> nat)
      (a : A) (l : list A) :
  list_sum (map f (insert_sorted ltb a l)) = f a + list_sum (map f l).
Proof.
  induction l as [|y ys IH]; simpl.
  - reflexivity.
  - destruct (ltb a y); simpl; [reflexivity|]. rewrite IH. lia.
Qed.
(* ================================================================== *)
(** * What the successor generator returns *)
(* ================================================================== *)

Section SuccessorFacts.
Context {T : Type} {NT : Num T}.
Implicit Types (o : @objects_t T) (s : @State T) (f : @figure T).

Lemma add_object_new o n f o' id :
  _add_object o n f = (o', Some id) ->
  id = make_id (figure_type f) n
  /\ lookup_figure o' (figure_type f) id = Some f.
Proof.
  unfold _add_object. intros H.
  destruct f as [p|l|c]; simpl;
    match type of H with (if ?b then _ else _) = _ => destruct b end;
    inversion H; subst; clear H; simpl; split; try reflexivity;
    now rewrite dict_get_set_same.
Qed.

Lemma add_object_keeps o n f o' r t k :
  _add_object o n f = (o', r) ->
  lookup_figure o t k <> None -> lookup_figure o' t k <> None.
Proof.
  unfold _add_object. intros H Hk.
  destruct f as [p|l|c];
    match type of H with (if ?b then _ else _) = _ => destruct b end;
    inversion H; subst; clear H; try exact Hk;
    destruct t; simpl in *; try exact Hk;
    match goal with
    | |- option_map _ (dict_get (dict_set ?d ?k' ?v) ?k) <> None =>
        rewrite dict_get_set; destruct (String.eqb k' k); simpl;
        [discriminate | exact Hk]
    end.
Qed.

Lemma add_object_old o n f : 
  forall o', _add_object o n f = (o', None) -> o' = o.
Proof.
  unfold _add_object. intros o' H.
  destruct f as [p|l|c];
    match type of H with (if ?b then _ else _) = _ => destruct b end;
    congruence.
Qed.

Lemma add_result_resolves results next acc i :
  ids_resolve acc -> ids_resolve (add_result results next acc i).
Proof.
  destruct acc as [[o ids] g]. unfold add_result, ids_resolve.
  destruct (_add_object o (next + g) (Fpoint (buffer_get results i)))
    as [o' [id|]] eqn:E; intros H id0 Hin.
  - apply in_app_or in Hin. destruct Hin as [Hin|[<-|[]]].
    + destruct (H _ Hin) as [Hl Hp]. split; [|exact Hp].
      eapply add_object_keeps; eauto.
    + apply add_object_new in E. destruct E as [-> E]. simpl in E.
      split.
      * simpl. congruence.
      * eexists. apply ordinal_make_id.
  - apply add_object_old in E. subst o'. auto.
Qed.

Lemma fold_add_result_resolves results next idxs acc :
  ids_resolve acc ->
  ids_resolve (fold_left (add_result results next) idxs acc).
Proof.
  revert acc. induction idxs as [|i idxs IH]; simpl; intros acc H.
  - exact H.
  - apply IH. now apply add_result_resolves.
Qed.

Lemma intersection_round_resolves o next g cfg x g' :
  intersection_round o next g cfg = (Some x, g') -> step_resolves x.
Proof.
  unfold intersection_round.
  destruct (intersect cfg) as [results count].
  destruct (count =? 0)%nat; [discriminate|].
  pose proof (@fold_add_result_resolves results next (seq 0 count) (o, [], g)) as H.
  destruct (fold_left _ _ _) as [[o' ids] g1].
  destruct ids as [|id rest]; [discriminate|].
  intros E. inversion E; subst; clear E.
  unfold step_resolves; simpl.
  apply H; simpl; [intros ? []| now left].
Qed.

Lemma intersection_successors_resolve o next cfgs :
  forall g x, In x (intersection_successors o next g cfgs) -> step_resolves x.
Proof.
  induction cfgs as [|cfg rest IH]; simpl; intros g x Hin.
  - destruct Hin.
  - destruct (intersection_round o next g cfg) as [[y|] g'] eqn:E.
    + destruct Hin as [<-|Hin].
      * eapply intersection_round_resolves; eauto.
      * eapply IH; eauto.
    + eapply IH; eauto.
Qed.

Lemma line_successors_resolve o ids x :
  In x (line_successors o ids) -> step_resolves x.
Proof.
  unfold line_successors.
  destruct (2 <=? List.length (points o))%nat; [|intros []].
  intros Hin. apply in_flat_map in Hin.
  destruct Hin as [[[p1_id p1] [p2_id p2]] [_ Hin]].
  destruct (_add_object o (next_line ids) (Fline (construct_line_from_points p1 p2)))
    as [o' [id|]] eqn:E; [|destruct Hin].
  destruct Hin as [<-|[]].
  apply add_object_new in E. destruct E as [-> E].
  split; cbn [fst snd output_id output_type figure_type] in *.
  - congruence.
  - eexists. apply ordinal_make_id.
Qed.

Lemma circle_successors_resolve o ids x :
  In x (circle_successors o ids) -> step_resolves x.
Proof.
  unfold circle_successors.
  destruct (2 <=? List.length (points o))%nat; [|intros []].
  intros Hin. apply in_flat_map in Hin.
  destruct Hin as [[[p1_id p1] [p2_id p2]] [_ Hin]].
  destruct (_add_object o (next_circle ids)
              (Fcircle (construct_circle_from_points p1 p2)))
    as [o' [id|]] eqn:E; [|destruct Hin].
  destruct Hin as [<-|[]].
  apply add_object_new in E. destruct E as [-> E].
  split; cbn [fst snd output_id output_type figure_type] in *.
  - congruence.
  - eexists. apply ordinal_make_id.
Qed.

Lemma generate_successors_resolve s x :
  In x (generate_successors s) -> step_resolves x.
Proof.
  unfold generate_successors. intros Hin.
  apply in_app_or in Hin. destruct Hin as [Hin|Hin].
  - eapply intersection_successors_resolve; eauto.
  - apply in_app_or in Hin. destruct Hin as [Hin|Hin].
    + eapply line_successors_resolve; eauto.
    + eapply circle_successors_resolve; eauto.
Qed.
End SuccessorFacts.
(* ================================================================== *)
(** * The search loop: outcomes and termination *)
(* ================================================================== *)

Section EngineFacts.
Context {T : Type} {NT : Num T}.
Variable target : @figure T.
Variable max_steps : Z.
Implicit Types (e : @engine T) (x : @successor T) (s : @State T).

Lemma visit_stop s g p e x o :
  step_resolves x ->
  visit target s g p e x = Stop o ->
  (exists n, o = Returned (Some (p ++ [snd x])) n) \/ o = Raised ValueError.
Proof.
  intros [Hl _]. unfold visit. destruct x as [o' st]. simpl in Hl.
  cbn [snd].
  destruct (visited_mem _ _); [discriminate|].
  destruct (_ <? _)%Z; [discriminate|].
  destruct (lookup_figure o' (output_type st) (output_id st)) as [f|];
    [|congruence].
  destruct (is_goal target f).
  - intros E. inversion E. eauto.
  - destruct (calculate_heuristic _ _); [|discriminate].
    destruct (py_int _); [discriminate|].
    intros E. inversion E. now right.
Qed.

Lemma visit_all_stop s g p xs :
  forall e o,
    (forall x, In x xs -> step_resolves x) ->
    visit_all target s g p e xs = Stop o ->
    (exists x n, In x xs /\ o = Returned (Some (p ++ [snd x])) n)
    \/ o = Raised ValueError.
Proof.
  induction xs as [|x xs IH]; simpl; intros e o Hr H.
  - discriminate.
  - destruct (visit target s g p e x) eqn:E.
    + destruct (IH _ _ (fun y Hy => Hr y (or_intror Hy)) H)
        as [[y [n [Hy ->]]]| ->]; eauto 6.
    + inversion H; subst.
      apply visit_stop in E; [|apply Hr; now left].
      destruct E as [[n ->]| ->]; eauto 6.
Qed.

Lemma iteration_stop e o :
  iteration target max_steps e = Stop o -> allowed_outcome o.
Proof.
  unfold iteration. destruct (heappop (open_list e)) as [[n rest]|].
  - destruct (max_steps <=? Z.of_nat (g_cost n))%Z; [discriminate|].
    destruct (generator_raises (state n));
      [intros E; inversion E; exact I|].
    intros H. apply visit_all_stop in H.
    + destruct H as [(x & m & _ & ->)| ->]; [|exact I]. simpl.
      rewrite length_app. simpl. lia.
    + intros x. apply generate_successors_resolve.
  - intros E. inversion E. exact I.
Qed.

Lemma solve_loop_proper fuel :
  forall e o, solve_loop target max_steps fuel e = Some o -> allowed_outcome o.
Proof.
  induction fuel as [|fuel IH]; simpl; intros e o H.
  - discriminate.
  - destruct (iteration target max_steps e) eqn:E.
    + eapply IH; eauto.
    + inversion H; subst. eapply iteration_stop; eauto.
Qed.

Lemma solve_loop_more_fuel fuel :
  forall e o fuel',
    solve_loop target max_steps fuel e = Some o -> fuel <= fuel' ->
    solve_loop target max_steps fuel' e = Some o.
Proof.
  induction fuel as [|fuel IH]; simpl; intros e o fuel' H Hle.
  - discriminate.
  - destruct fuel' as [|fuel']; [lia|]. simpl.
    destruct (iteration target max_steps e).
    + apply IH; [exact H | lia].
    + exact H.
Qed.

Lemma solve_loop_unique fuel1 fuel2 e o1 o2 :
  solve_loop target max_steps fuel1 e = Some o1 ->
  solve_loop target max_steps fuel2 e = Some o2 ->
  o1 = o2.
Proof.
  intros H1 H2.
  apply solve_loop_more_fuel with (fuel' := Nat.max fuel1 fuel2) in H1; [|lia].
  apply solve_loop_more_fuel with (fuel' := Nat.max fuel1 fuel2) in H2; [|lia].
  congruence.
Qed.

(** ** Termination *)

Lemma weight_pos d s : 1 <= weight d s.
Proof. destruct d; simpl; lia. Qed.

Lemma visit_weight s g p e x e' :
  visit target s g p e x = Continue e' ->
  open_weight max_steps e'
  <= open_weight max_steps e
     + weight (depth_left max_steps (g + 1)) (child_state s x).
Proof.
  unfold visit. destruct x as [o' st].
  destruct (visited_mem _ _); [intros E; inversion E; lia|].
  destruct (_ <? _)%Z; [intros E; inversion E; lia|].
  destruct (lookup_figure o' (output_type st) (output_id st)) as [f|];
    [|discriminate].
  destruct (is_goal target f); [discriminate|].
  destruct (calculate_heuristic _ _) as [h|].
  - unfold child_state. cbn [fst snd].
    destruct (py_int (tail (output_id st))) as [m|] eqn:Em; [|discriminate].
    rewrite (py_int_ordinal _ Em).
    intros E. inversion E; subst; clear E.
    unfold open_weight, heappush. cbn [open_list].
    rewrite list_sum_insert_sorted. unfold node_weight at 1. cbn [g_cost state].
    lia.
  - intros E. inversion E; subst. unfold open_weight. simpl. lia.
Qed.

Lemma visit_all_weight s g p xs :
  forall e e',
    visit_all target s g p e xs = Continue e' ->
    open_weight max_steps e'
    <= open_weight max_steps e
       + list_sum (map (fun x => weight (depth_left max_steps (g + 1))
                                        (child_state s x)) xs).
Proof.
  induction xs as [|x xs IH]; simpl; intros e e' H.
  - inversion H. lia.
  - destruct (visit target s g p e x) eqn:E; [|discriminate].
    apply visit_weight in E. apply IH in H. lia.
Qed.

Lemma iteration_decreases e e' :
  iteration target max_steps e = Continue e' ->
  open_weight max_steps e' < open_weight max_steps e.
Proof.
  unfold iteration, heappop.
  destruct (open_list e) as [|n rest] eqn:Eo; [discriminate|].
  assert (Hw : open_weight max_steps e
               = node_weight max_steps n
                 + list_sum (map (node_weight max_steps) rest)).
  { unfold open_weight. rewrite Eo. reflexivity. }
  destruct (max_steps <=? Z.of_nat (g_cost n))%Z eqn:Eg.
  - intros E. inversion E; subst; clear E. rewrite Hw.
    unfold open_weight at 1. cbn [open_list].
    assert (1 <= node_weight max_steps n) by apply weight_pos.
    lia.
  - destruct (generator_raises (state n)); [discriminate|].
    intros H. apply visit_all_weight in H. rewrite Hw.
    unfold open_weight at 2 in H. cbn [open_list] in H.
    apply Z.leb_gt in Eg.
    assert (Hd : depth_left max_steps (g_cost n)
                 = S (depth_left max_steps (g_cost n + 1))).
    { unfold depth_left. lia. }
    assert (Hn : node_weight max_steps n
                 = S (list_sum (map (fun x => weight (depth_left max_steps (g_cost n + 1))
                                                     (child_state (state n) x))
                                    (generate_successors (state n))))).
    { unfold node_weight. rewrite Hd. reflexivity. }
    lia.
Qed.

Lemma solve_loop_terminates fuel :
  forall e, open_weight max_steps e < fuel ->
            exists o, solve_loop target max_steps fuel e = Some o.
Proof.
  induction fuel as [|fuel IH]; intros e H.
  - lia.
  - simpl. destruct (iteration target max_steps e) as [e'|o] eqn:E.
    + apply IH. apply iteration_decreases in E. lia.
    + eauto.
Qed.
End EngineFacts.
(* ================================================================== *)
(** * The open list stays sorted on pairwise distinct keys *)
(* ================================================================== *)

Lemma cost_ltb_trans (a b c : cost) :
  cost_ltb a b = true -> cost_ltb b c = true -> cost_ltb a c = true.
Proof.
  destruct a, b, c; simpl; try discriminate; auto.
  rewrite !Nat.ltb_lt. lia.
Qed.

Lemma cost_eqb_eq (a b : cost) : cost_eqb a b = true <-> a = b.
Proof.
  destruct a, b; simpl; try (split; [discriminate|congruence]);
    try tauto.
  rewrite Nat.eqb_eq. split; congruence.
Qed.

Lemma cost_trichotomy (a b : cost) :
  cost_ltb a b = true \/ a = b \/ cost_ltb b a = true.
Proof.
  destruct a as [x|], b as [y|]; simpl; auto.
  rewrite !Nat.ltb_lt. destruct (Nat.lt_total x y) as [H|[H|H]]; auto.
Qed.

Section HeapFacts.
Context {T : Type} {NT : Num T}.
Variable target : @figure T.
Variable max_steps : Z.
Implicit Types (a b c n : @SearchNode T) (e : @engine T).

Lemma node_ltb_trans a b c :
  node_ltb a b = true -> node_ltb b c = true -> node_ltb a c = true.
Proof.
  unfold node_ltb. rewrite !orb_true_iff, !andb_true_iff, !Nat.ltb_lt.
  rewrite !cost_eqb_eq.
  intros [H1|[H1 H1']] [H2|[H2 H2']].
  - left. eapply cost_ltb_trans; eauto.
  - left. congruence.
  - left. congruence.
  - right. split; [congruence|lia].
Qed.

Lemma node_ltb_total a b :
  tie_breaker a <> tie_breaker b ->
  node_ltb a b = false -> node_ltb b a = true.
Proof.
  unfold node_ltb. intros Hne H.
  apply orb_false_iff in H. destruct H as [H1 H2].
  destruct (cost_trichotomy (priority a) (priority b)) as [H|[H|H]].
  - congruence.
  - rewrite H in *. 
    assert (Hr : cost_eqb (priority b) (priority b) = true)
      by now apply cost_eqb_eq.
    rewrite Hr in *. cbn [andb] in *.
    apply Nat.ltb_ge in H2. apply orb_true_iff. right.
    apply Nat.ltb_lt. lia.
  - now rewrite H.
Qed.

Lemma heappush_Forall (P : @SearchNode T -> Prop) l n :
  P n -> Forall P l -> Forall P (heappush l n).
Proof.
  unfold heappush. intros Hn. induction l as [|m l IH]; simpl; intros H.
  - auto.
  - inversion H; subst. destruct (node_ltb n m); auto.
Qed.

Lemma heappush_sorted (l : list (@SearchNode T)) n :
  StronglySorted (fun a b => node_ltb a b = true) l ->
  Forall (fun m => tie_breaker m <> tie_breaker n) l ->
  StronglySorted (fun a b => node_ltb a b = true) (heappush l n).
Proof.
  induction l as [|m l IH]; intros Hs Hd.
  - repeat constructor.
  - inversion Hs as [|? ? Hs' Hm]; subst.
    inversion Hd as [|? ? Hne Hd']; subst.
    unfold heappush in *. cbn [insert_sorted].
    destruct (node_ltb n m) eqn:E.
    + constructor; [exact Hs|]. constructor; [exact E|].
      eapply Forall_impl; [|exact Hm].
      intros c Hc. eapply node_ltb_trans; eauto.
    + constructor; [now apply IH|].
      apply (@heappush_Forall (fun c => node_ltb m c = true)); [|exact Hm].
      apply node_ltb_total; [congruence|exact E].
Qed.

Lemma visit_heap s g p e x e' :
  heap_invariant e ->
  visit target s g p e x = Continue e' -> heap_invariant e'.
Proof.
  unfold visit, heap_invariant. destruct x as [o' st]. intros [Hs Ht].
  destruct (visited_mem _ _); [intros E; inversion E; subst; auto|].
  destruct (_ <? _)%Z; [intros E; inversion E; subst; auto|].
  destruct (lookup_figure o' (output_type st) (output_id st)) as [f|];
    [|discriminate].
  destruct (is_goal target f); [discriminate|].
  destruct (calculate_heuristic _ _) as [h|].
  - destruct (py_int (tail (output_id st))) as [m|]; [|discriminate].
    intros E. inversion E; subst; clear E. cbn [open_list tie_breaker_counter].
    split.
    + apply heappush_sorted; [exact Hs|].
      eapply Forall_impl; [|exact Ht]. cbn [tie_breaker]. intros a Ha.
      cbv beta in *. lia.
    + apply heappush_Forall; [cbn [tie_breaker]; lia|].
      eapply Forall_impl; [|exact Ht]. intros a Ha. cbv beta in *. lia.
  - intros E. inversion E; subst; clear E. auto.
Qed.

Lemma visit_all_heap s g p xs :
  forall e e',
    heap_invariant e ->
    visit_all target s g p e xs = Continue e' -> heap_invariant e'.
Proof.
  induction xs as [|x xs IH]; simpl; intros e e' Hi H.
  - inversion H; subst. exact Hi.
  - destruct (visit target s g p e x) eqn:E; [|discriminate].
    eapply IH; [|exact H]. eapply visit_heap; eauto.
Qed.

Lemma iteration_heap e e' :
  heap_invariant e ->
  iteration target max_steps e = Continue e' -> heap_invariant e'.
Proof.
  unfold iteration, heappop. intros [Hs Ht].
  destruct (open_list e) as [|n rest] eqn:Eo; [discriminate|].
  assert (Hi : heap_invariant {| open_list := rest; visited := visited e;
                 tie_breaker_counter := tie_breaker_counter e |}).
  { split; cbn [open_list tie_breaker_counter].
    - now inversion Hs.
    - now inversion Ht. }
  destruct (max_steps <=? Z.of_nat (g_cost n))%Z.
  - intros E. inversion E; subst. exact Hi.
  - destruct (generator_raises (state n)); [discriminate|].
    apply visit_all_heap. exact Hi.
Qed.

Lemma initial_engine_heap (o : @objects_t T) :
  heap_invariant (initial_engine target o).
Proof.
  split; cbn [initial_engine start_engine open_list tie_breaker_counter heappush
              insert_sorted].
  - repeat constructor.
  - repeat constructor.
Qed.

(** At every turn of the loop the node popped has a key strictly
    below the key of every other node of the open list: [heapq] has
    no choice to make. *)
Lemma popped_node_is_least (o : @objects_t T) (k : nat) e n rest :
  engine_after target max_steps k (initial_engine target o) = Some e ->
  heappop (open_list e) = Some (n, rest) ->
  Forall (fun m => node_ltb n m = true) rest.
Proof.
  intros Hr.
  assert (Hi : heap_invariant e).
  { revert Hr. generalize (initial_engine_heap o).
    generalize (initial_engine target o).
    induction k as [|k IH]; simpl; intros e0 H0 Hr.
    - inversion Hr; subst. exact H0.
    - destruct (iteration target max_steps e0) eqn:E; [|discriminate].
      eapply IH; [|exact Hr]. eapply iteration_heap; eauto. }
  unfold heappop. destruct (open_list e) as [|n0 rest0] eqn:Eo;
    [discriminate|].
  intros E. inversion E; subst; clear E.
  destruct Hi as [Hs _]. rewrite Eo in Hs.
  now inversion Hs.
Qed.
End HeapFacts.
(* ================================================================== *)
(** * Intersections that yield two points *)
(* ================================================================== *)

Section TwoPointRounds.
Context {T : Type} {NT : Num T}.
Implicit Types (o : @objects_t T) (cfg : @config T).

Lemma intersection_successors_app o n pre :
  forall g post,
    intersection_successors o n g (pre ++ post)
    = intersection_successors o n g pre
      ++ intersection_successors o n (generated_after o n g pre) post.
Proof.
  induction pre as [|cfg pre IH]; simpl; intros g post.
  - reflexivity.
  - destruct (intersection_round o n g cfg) as [[x|] g'] eqn:E;
      simpl; rewrite IH; reflexivity.
Qed.

(** The round of a configuration whose kernel call returns two
    points, case by case on which of them are canonically known. *)
Lemma intersection_round_two o n g cfg results :
  intersect cfg = (results, 2%nat) ->
  let r0 := fst results in
  let r1 := snd results in
  let id0 := make_id point_t (n + g) in
  let id1 := make_id point_t (n + (g + 1)) in
  intersection_round o n g cfg =
  if point_known (points o) r0 then
    if point_known (points o) r1 then (None, g)
    else (Some (with_point o id0 r1, intersection_step cfg id0), (g + 1)%N)
  else
    if point_known (points (with_point o id0 r0)) r1
    then (Some (with_point o id0 r0, intersection_step cfg id0), (g + 1)%N)
    else (Some (with_point (with_point o id0 r0) id1 r1,
                intersection_step cfg id0), (g + 1 + 1)%N).
Proof.
  intros Hi. unfold intersection_round. rewrite Hi.
  cbn [Nat.eqb seq fold_left]. unfold add_result at 2.
  cbn [buffer_get _add_object].
  destruct (point_known (points o) (fst results)).
  - unfold add_result. cbn [buffer_get _add_object].
    destruct (point_known (points o) (snd results)); reflexivity.
  - unfold add_result. cbn [buffer_get _add_object app points].
    fold (with_point o (make_id point_t (n + g)) (fst results)).
    destruct (point_known _ (snd results)); reflexivity.
Qed.
End TwoPointRounds.
(* ================================================================== *)
(** * Fresh identifiers: what the counters are for *)
(* ================================================================== *)

Lemma ordinals_below_mono (ks : list string) (n m : N) :
  (n <= m)%N -> ordinals_below ks n = true -> ordinals_below ks m = true.
Proof.
  intros Hle. unfold ordinals_below. rewrite !forallb_forall.
  intros H k Hk. specialize (H k Hk).
  destruct (ordinal (tail k)) as [j|]; [|reflexivity].
  apply N.ltb_lt in H. apply N.ltb_lt. lia.
Qed.

Lemma ordinals_below_fresh (ks : list string) (t : obj_type) (n m : N) :
  ordinals_below ks n = true -> (n <= m)%N -> ~ In (make_id t m) ks.
Proof.
  unfold ordinals_below. rewrite forallb_forall. intros H Hle Hin.
  specialize (H _ Hin). rewrite ordinal_make_id in H.
  apply N.ltb_lt in H. lia.
Qed.

Lemma ordinals_below_app (ks1 ks2 : list string) (n : N) :
  ordinals_below (ks1 ++ ks2) n
  = ordinals_below ks1 n && ordinals_below ks2 n.
Proof. unfold ordinals_below. apply forallb_app. Qed.

(** The seeding of the counters puts them above every ordinal in use. *)
Lemma first_free_above (ks : list string) :
  ordinals_below ks (first_free ks) = true.
Proof.
  unfold ordinals_below, first_free. apply forallb_forall.
  intros k Hk.
  destruct (ordinal (tail k)) as [m|] eqn:E; [|reflexivity].
  apply N.ltb_lt.
  assert (H : (m <= fold_right N.max 0
                      (flat_map (fun k => match ordinal (tail k) with
                                          | Some n => [n]
                                          | None => []
                                          end) ks))%N).
  { induction ks as [|k0 ks IH]; [destruct Hk|].
    simpl. destruct Hk as [->|Hk].
    - rewrite E. simpl. lia.
    - specialize (IH Hk). rewrite fold_right_app.
      destruct (ordinal (tail k0)) as [j|]; simpl; lia. }
  lia.
Qed.

Lemma initial_state_counters_above (T : Type) (o : @objects_t T) :
  counters_above (initial_state o) = true.
Proof.
  unfold counters_above, initial_state. cbn [objects next_ids next_point
    next_line next_circle].
  now rewrite !first_free_above.
Qed.

(** ** Seeding of the counters *)

Lemma ordinal_isdigit (s : string) (n : N) :
  ordinal s = Some n -> isdigit s = true.
Proof.
  unfold ordinal. destruct (ascii_digits s) eqn:E; [|discriminate].
  intros _. now apply ascii_digits_isdigit.
Qed.

Lemma seed_numbers_ordinals (ks : list string) (ns : list N) :
  seed_numbers ks = Some ns ->
  ns = flat_map (fun k => match ordinal (tail k) with
                          | Some n => [n]
                          | None => []
                          end) ks.
Proof.
  revert ns. induction ks as [|k ks IH]; simpl; intros ns H.
  - now inversion H.
  - destruct (isdigit (tail k)) eqn:Ed.
    + destruct (py_int (tail k)) as [n|] eqn:Ei; [|discriminate].
      destruct (seed_numbers ks) as [ms|]; [|discriminate].
      inversion H; subst. rewrite (py_int_ordinal _ Ei). simpl.
      f_equal. now apply IH.
    + destruct (ordinal (tail k)) as [n|] eqn:Eo.
      * apply ordinal_isdigit in Eo. congruence.
      * simpl. now apply IH.
Qed.

Lemma seed_counter_first_free (ks : list string) (n : N) :
  seed_counter ks = Some n -> n = first_free ks.
Proof.
  unfold seed_counter, first_free.
  destruct (seed_numbers ks) as [ns|] eqn:E; [|discriminate].
  intros H. inversion H. now rewrite (seed_numbers_ordinals _ E).
Qed.

(** The seeding raises exactly when the tail of some key passes
    [isdigit] and is rejected by [int]. *)
Lemma seed_counter_raises (ks : list string) :
  seed_counter ks = None
  <-> exists k, In k ks /\ isdigit (tail k) = true /\ py_int (tail k) = None.
Proof.
  unfold seed_counter.
  assert (H : seed_numbers ks = None
              <-> exists k, In k ks /\ isdigit (tail k) = true
                            /\ py_int (tail k) = None).
  { induction ks as [|k ks IH]; simpl.
    - split; [discriminate|intros (k & [] & _)].
    - destruct (isdigit (tail k)) eqn:Ed.
      + destruct (py_int (tail k)) as [n|] eqn:Ei.
        * destruct (seed_numbers ks) as [ms|].
          -- split; [discriminate|].
             intros (k' & [->|Hin] & Hd & Hi); [congruence|].
             assert (Hn : Some ms = None) by (apply IH; eauto).
             discriminate.
          -- split; [|reflexivity]. intros _.
             destruct (proj1 IH eq_refl) as (k' & Hin & Hk'). eauto.
        * split; [|reflexivity]. intros _. exists k. auto.
      + rewrite IH. split.
        * intros (k' & Hin & Hk'). eauto.
        * intros (k' & [->|Hin] & Hd & Hi); [congruence|eauto]. }
  destruct (seed_numbers ks); [|tauto].
  split; [discriminate|]. intros He. apply H in He. discriminate.
Qed.

Lemma initial_ids_state (T : Type) (o : @objects_t T) (ids : next_ids_t) :
  initial_ids o = Some ids ->
  {| objects := o; next_ids := ids |} = initial_state o.
Proof.
  unfold initial_ids, initial_state.
  destruct (seed_counter (keys (points o))) as [p|] eqn:Ep; [|discriminate].
  destruct (seed_counter (keys (lines o))) as [l|] eqn:El; [|discriminate].
  destruct (seed_counter (keys (circles o))) as [c|] eqn:Ec; [|discriminate].
  intros H. inversion H; subst.
  now rewrite (seed_counter_first_free _ Ep), (seed_counter_first_free _ El),
    (seed_counter_first_free _ Ec).
Qed.

Lemma solve_seeded (T : Type) (NT : Num T) (o : @objects_t T)
      (target : @figure T) (max_steps : Z) (fuel : nat) (ids : next_ids_t) :
  initial_ids o = Some ids ->
  solve o target max_steps fuel
  = solve_loop target max_steps fuel (initial_engine target o).
Proof.
  intros H. unfold solve, initial_engine. rewrite H.
  now rewrite (initial_ids_state _ H).
Qed.

Lemma solve_unseeded (T : Type) (NT : Num T) (o : @objects_t T)
      (target : @figure T) (max_steps : Z) (fuel : nat) :
  initial_ids o = None ->
  solve o target max_steps fuel = Some (Raised ValueError).
Proof. intros H. unfold solve. now rewrite H. Qed.

Section FreshIds.
Variable V : Type.
Implicit Types (d : dict V) (k : string) (v : V).

Lemma dict_get_Some_key d k v : dict_get d k = Some v -> In k (keys d).
Proof.
  induction d as [|[k0 v0] d IH]; simpl; intros H.
  - discriminate.
  - destruct (String.eqb k0 k) eqn:E.
    + left. now apply String.eqb_eq.
    + right. now apply IH.
Qed.

Lemma dict_set_keeps d k k' v v' :
  ~ In k' (keys d) -> dict_get d k = Some v ->
  dict_get (dict_set d k' v') k = Some v.
Proof.
  intros Hf Hg. rewrite dict_get_set.
  destruct (String.eqb k' k) eqn:E; [|exact Hg].
  apply String.eqb_eq in E. subst k'.
  elim Hf. eapply dict_get_Some_key; eauto.
Qed.

Lemma keys_dict_set_fresh d k v :
  ~ In k (keys d) -> keys (dict_set d k v) = keys d ++ [k].
Proof.
  intros H. rewrite dict_set_fresh by exact H.
  unfold keys. now rewrite map_app.
Qed.
End FreshIds.

Section SuccessorsGrow.
Context {T : Type} {NT : Num T}.
Implicit Types (o : @objects_t T) (s : @State T) (f : @figure T).

Lemma lookup_point_inv o k f :
  lookup_figure o point_t k = Some f ->
  exists p, f = Fpoint p /\ dict_get (points o) k = Some p.
Proof.
  simpl. destruct (dict_get (points o) k) as [p|]; simpl; [|discriminate].
  intros E. inversion E. eauto.
Qed.

Lemma lookup_line_inv o k f :
  lookup_figure o line_t k = Some f ->
  exists l, f = Fline l /\ dict_get (lines o) k = Some l.
Proof.
  simpl. destruct (dict_get (lines o) k) as [l|]; simpl; [|discriminate].
  intros E. inversion E. eauto.
Qed.

Lemma lookup_circle_inv o k f :
  lookup_figure o circle_t k = Some f ->
  exists c, f = Fcircle c /\ dict_get (circles o) k = Some c.
Proof.
  simpl. destruct (dict_get (circles o) k) as [c|]; simpl; [|discriminate].
  intros E. inversion E. eauto.
Qed.

Lemma add_point_fresh o n p o' r :
  ~ In (make_id point_t n) (keys (points o)) ->
  _add_object o n (Fpoint p) = (o', r) -> keeps o o'.
Proof.
  unfold _add_object. intros Hf H.
  destruct (point_known (points o) p); inversion H; subst; clear H;
    intros t k f Hl; [exact Hl|].
  destruct t; [|exact Hl|exact Hl].
  apply lookup_point_inv in Hl. destruct Hl as (q & -> & Hq).
  simpl. erewrite dict_set_keeps; eauto; reflexivity.
Qed.

Lemma add_line_fresh o n l o' r :
  ~ In (make_id line_t n) (keys (lines o)) ->
  _add_object o n (Fline l) = (o', r) -> keeps o o'.
Proof.
  unfold _add_object. intros Hf H.
  destruct (line_known (lines o) l); inversion H; subst; clear H;
    intros t k f Hl; [exact Hl|].
  destruct t; [exact Hl| |exact Hl].
  apply lookup_line_inv in Hl. destruct Hl as (q & -> & Hq).
  simpl. erewrite dict_set_keeps; eauto; reflexivity.
Qed.

Lemma add_circle_fresh o n c o' r :
  ~ In (make_id circle_t n) (keys (circles o)) ->
  _add_object o n (Fcircle c) = (o', r) -> keeps o o'.
Proof.
  unfold _add_object. intros Hf H.
  destruct (circle_known (circles o) c); inversion H; subst; clear H;
    intros t k f Hl; [exact Hl|].
  destruct t; [exact Hl|exact Hl|].
  apply lookup_circle_inv in Hl. destruct Hl as (q & -> & Hq).
  simpl. erewrite dict_set_keeps; eauto; reflexivity.
Qed.

Lemma add_result_invariant o n results acc i :
  round_invariant o n acc ->
  round_invariant o n (add_result results n acc i).
Proof.
  destruct acc as [[o1 ids] g]. unfold round_invariant, add_result.
  intros [Hb Hk].
  pose proof (@ordinals_below_fresh _ point_t _ _ Hb (N.le_refl _)) as Hf.
  destruct (_add_object o1 (n + g) (Fpoint (buffer_get results i)))
    as [o2 [id|]] eqn:E.
  - split.
    + pose proof E as E'. unfold _add_object in E'.
      destruct (point_known (points o1) (buffer_get results i));
        [discriminate|].
      inversion E'; subst; clear E'. cbn [points].
      rewrite keys_dict_set_fresh by exact Hf.
      rewrite ordinals_below_app. apply andb_true_intro. split.
      * eapply ordinals_below_mono; [|exact Hb]. lia.
      * unfold ordinals_below. cbn [forallb]. rewrite ordinal_make_id.
        rewrite andb_true_r. apply N.ltb_lt. lia.
    + intros t k f Hl. eapply add_point_fresh; eauto.
  - apply add_object_old in E. subst o2. split; assumption.
Qed.

Lemma fold_add_result_invariant o n results idxs :
  forall acc,
    round_invariant o n acc ->
    round_invariant o n (fold_left (add_result results n) idxs acc).
Proof.
  induction idxs as [|i idxs IH]; simpl; intros acc H.
  - exact H.
  - apply IH. now apply add_result_invariant.
Qed.

Lemma intersection_round_keeps o n g cfg x g' :
  ordinals_below (keys (points o)) n = true ->
  intersection_round o n g cfg = (Some x, g') -> keeps o (fst x).
Proof.
  intros Hb. unfold intersection_round.
  destruct (intersect cfg) as [results count].
  destruct (count =? 0)%nat; [discriminate|].
  assert (H0 : round_invariant o n (o, [], g)).
  { split.
    - eapply ordinals_below_mono; [|exact Hb]. lia.
    - intros t k f Hl. exact Hl. }
  pose proof (@fold_add_result_invariant o n results (seq 0 count) _ H0) as H.
  destruct (fold_left _ _ _) as [[o' ids] g1].
  destruct ids as [|id rest]; [discriminate|].
  intros E. inversion E; subst; clear E. exact (proj2 H).
Qed.

Lemma intersection_successors_keep o n cfgs :
  ordinals_below (keys (points o)) n = true ->
  forall g x, In x (intersection_successors o n g cfgs) -> keeps o (fst x).
Proof.
  intros Hb. induction cfgs as [|cfg rest IH]; simpl; intros g x Hin.
  - destruct Hin.
  - destruct (intersection_round o n g cfg) as [[y|] g'] eqn:E.
    + destruct Hin as [<-|Hin].
      * eapply intersection_round_keeps; eauto.
      * eapply IH; eauto.
    + eapply IH; eauto.
Qed.

(** With the counters above every ordinal in use, a successor holds
    every (id, figure) pair of the state it extends. *)
Lemma successors_keep_figures s x :
  counters_above s = true ->
  In x (generate_successors s) ->
  forall t k f,
    lookup_figure (objects s) t k = Some f ->
    lookup_figure (fst x) t k = Some f.
Proof.
  unfold counters_above. intros Hc Hin.
  apply andb_prop in Hc. destruct Hc as [Hc Hcc].
  apply andb_prop in Hc. destruct Hc as [Hp Hl].
  unfold generate_successors in Hin.
  apply in_app_or in Hin. destruct Hin as [Hin|Hin].
  - eapply intersection_successors_keep; eauto.
  - apply in_app_or in Hin. destruct Hin as [Hin|Hin].
    + unfold line_successors in Hin.
      destruct (2 <=? List.length (points (objects s)))%nat; [|destruct Hin].
      apply in_flat_map in Hin.
      destruct Hin as [[[p1_id p1] [p2_id p2]] [_ Hin]].
      destruct (_add_object (objects s) (next_line (next_ids s))
                  (Fline (construct_line_from_points p1 p2)))
        as [o' [id|]] eqn:E; [|destruct Hin].
      destruct Hin as [<-|[]]. cbn [fst].
      eapply add_line_fresh; [|exact E].
      eapply ordinals_below_fresh; [exact Hl|apply N.le_refl].
    + unfold circle_successors in Hin.
      destruct (2 <=? List.length (points (objects s)))%nat; [|destruct Hin].
      apply in_flat_map in Hin.
      destruct Hin as [[[p1_id p1] [p2_id p2]] [_ Hin]].
      destruct (_add_object (objects s) (next_circle (next_ids s))
                  (Fcircle (construct_circle_from_points p1 p2)))
        as [o' [id|]] eqn:E; [|destruct Hin].
      destruct Hin as [<-|[]]. cbn [fst].
      eapply add_circle_fresh; [|exact E].
      eapply ordinals_below_fresh; [exact Hcc|apply N.le_refl].
Qed.
End SuccessorsGrow.
(* ================================================================== *)
(** * [solve] as a whole: what it ends in *)
(* ================================================================== *)

Section SolveFacts.
Context {T : Type} {NT : Num T}.
Variable initial_objects : @objects_t T.
Variable target : @figure T.
Variable max_steps : Z.

Lemma solve_allowed fuel o :
  solve initial_objects target max_steps fuel = Some o -> allowed_outcome o.
Proof.
  unfold solve. destruct (initial_ids initial_objects) as [ids|].
  - apply solve_loop_proper.
  - intros H. inversion H; subst. exact I.
Qed.

Lemma solve_more_fuel fuel fuel' o :
  solve initial_objects target max_steps fuel = Some o ->
  fuel <= fuel' ->
  solve initial_objects target max_steps fuel' = Some o.
Proof.
  unfold solve. destruct (initial_ids initial_objects) as [ids|].
  - apply solve_loop_more_fuel.
  - auto.
Qed.

Lemma solve_unique fuel1 fuel2 o1 o2 :
  solve initial_objects target max_steps fuel1 = Some o1 ->
  solve initial_objects target max_steps fuel2 = Some o2 ->
  o1 = o2.
Proof.
  unfold solve. destruct (initial_ids initial_objects) as [ids|].
  - apply solve_loop_unique.
  - congruence.
Qed.

(** The number of turns that is always enough. *)
Lemma solve_terminates :
  exists o,
    solve initial_objects target max_steps
          (S (open_weight max_steps (initial_engine target initial_objects)))
    = Some o.
Proof.
  destruct (initial_ids initial_objects) as [ids|] eqn:E.
  - rewrite (@solve_seeded _ _ _ target max_steps _ _ E).
    apply solve_loop_terminates. lia.
  - rewrite (@solve_unseeded _ _ _ target max_steps _ E). eauto.
Qed.
End SolveFacts.
(* ================================================================== *)
(** * The outcome does not depend on how the containers keep their items *)
(* ================================================================== *)

Section RunFacts.
Context {T : Type} {NT : Num T}.
Variable target : @figure T.
Variable max_steps : Z.
Implicit Types (n m : @SearchNode T) (e : @engine T).

Lemma iteration_turn e :
  iteration target max_steps e
  = match heappop (open_list e) with
    | None => Stop (Returned None (List.length (visited e)))
    | Some (n, rest) =>
        turn target max_steps n
             {| open_list := rest; visited := visited e;
                tie_breaker_counter := tie_breaker_counter e |}
    end.
Proof. reflexivity. Qed.

Lemma node_ltb_asym n m : node_ltb n m = true -> node_ltb m n = false.
Proof.
  unfold node_ltb.
  rewrite orb_true_iff, andb_true_iff, orb_false_iff, andb_false_iff.
  rewrite Nat.ltb_lt, Nat.ltb_ge.
  destruct (priority n) as [x|], (priority m) as [y|]; simpl;
    rewrite ?Nat.ltb_lt, ?Nat.ltb_ge, ?Nat.eqb_eq;
    intros [H|[H1 H2]]; try discriminate.
  - split; [lia|]. left. apply Nat.eqb_neq. lia.
  - subst. split; [lia|]. right. lia.
  - split; [reflexivity|]. now left.
  - split; [reflexivity|]. right. lia.
Qed.

Lemma visited_mem_permutation h (v v' : list (@state_hash T)) :
  Permutation v v' -> visited_mem h v = visited_mem h v'.
Proof.
  unfold visited_mem. induction 1; simpl.
  - reflexivity.
  - now rewrite IHPermutation.
  - destruct (hash_eqb h y), (hash_eqb h x); reflexivity.
  - congruence.
Qed.

Lemma heappush_permutation (l : list (@SearchNode T)) n :
  Permutation (heappush l n) (n :: l).
Proof.
  unfold heappush. induction l as [|m l IH]; simpl.
  - apply Permutation_refl.
  - destruct (node_ltb n m); [apply Permutation_refl|].
    eapply perm_trans; [apply perm_skip, IH|apply perm_swap].
Qed.

Lemma same_contents_refl e : same_contents e e.
Proof. repeat split; apply Permutation_refl. Qed.

Lemma same_contents_sym e1 e2 : same_contents e1 e2 -> same_contents e2 e1.
Proof.
  intros (Ho & Hv & Hc). repeat split; auto using Permutation_sym.
Qed.

Lemma same_contents_trans e1 e2 e3 :
  same_contents e1 e2 -> same_contents e2 e3 -> same_contents e1 e3.
Proof.
  intros (Ho & Hv & Hc) (Ho' & Hv' & Hc'). repeat split.
  - eapply perm_trans; eauto.
  - eapply perm_trans; eauto.
  - congruence.
Qed.

(** Two loop states that agree up to the arrangement of the
    containers. *)
Definition same_loop_state (a b : @loop_state T) : Prop :=
  match a, b with
  | Continue e1, Continue e2 => same_contents e1 e2
  | Stop o1, Stop o2 => o1 = o2
  | _, _ => False
  end.

Lemma visit_same_contents s g p e1 e2 x :
  same_contents e1 e2 ->
  same_loop_state (visit target s g p e1 x) (visit target s g p e2 x).
Proof.
  intros (Ho & Hv & Hc). unfold visit. destruct x as [o' st].
  rewrite <- (visited_mem_permutation _ Hv).
  rewrite <- (Permutation_length Ho).
  cbn [List.length]. rewrite <- (Permutation_length Hv), <- Hc.
  destruct (visited_mem _ _); [repeat split; assumption|].
  destruct (_ <? _)%Z; [repeat split; assumption|].
  destruct (lookup_figure o' (output_type st) (output_id st)) as [f|];
    [|reflexivity].
  destruct (is_goal target f); [reflexivity|].
  destruct (calculate_heuristic _ _) as [h|].
  - destruct (py_int (tail (output_id st))) as [k|]; [|reflexivity].
    repeat split; cbn [open_list visited tie_breaker_counter].
    + eapply perm_trans; [apply heappush_permutation|].
      eapply perm_trans; [apply perm_skip, Ho|].
      apply Permutation_sym, heappush_permutation.
    + now apply perm_skip.
  - repeat split; cbn [open_list visited tie_breaker_counter]; auto.
Qed.

Lemma visit_all_same_contents s g p xs :
  forall e1 e2,
    same_contents e1 e2 ->
    same_loop_state (visit_all target s g p e1 xs)
                    (visit_all target s g p e2 xs).
Proof.
  induction xs as [|x xs IH]; simpl; intros e1 e2 H.
  - exact H.
  - pose proof (visit_same_contents s g p x H) as Hx.
    destruct (visit target s g p e1 x), (visit target s g p e2 x);
      simpl in Hx; try contradiction.
    + now apply IH.
    + exact Hx.
Qed.

Lemma turn_same_contents n e1 e2 :
  same_contents e1 e2 ->
  same_loop_state (turn target max_steps n e1) (turn target max_steps n e2).
Proof.
  intros H. unfold turn.
  destruct (max_steps <=? Z.of_nat (g_cost n))%Z; [exact H|].
  destruct (generator_raises (state n)); [reflexivity|].
  now apply visit_all_same_contents.
Qed.

(** ** Pairwise distinct tie-breakers *)

Lemma distinct_keys_same_contents e1 e2 :
  same_contents e1 e2 -> distinct_keys e1 -> distinct_keys e2.
Proof.
  intros (Ho & _ & Hc) [Hn Hb]. split.
  - eapply Permutation_NoDup; [|exact Hn]. now apply Permutation_map.
  - rewrite <- Hc. eapply Permutation_Forall; eauto.
Qed.

Lemma visit_distinct s g p e x e' :
  distinct_keys e ->
  visit target s g p e x = Continue e' -> distinct_keys e'.
Proof.
  unfold visit, distinct_keys. destruct x as [o' st]. intros [Hn Hb].
  destruct (visited_mem _ _); [intros E; inversion E; subst; auto|].
  destruct (_ <? _)%Z; [intros E; inversion E; subst; auto|].
  destruct (lookup_figure o' (output_type st) (output_id st)) as [f|];
    [|discriminate].
  destruct (is_goal target f); [discriminate|].
  destruct (calculate_heuristic _ _) as [h|].
  - destruct (py_int (tail (output_id st))) as [k|]; [|discriminate].
    intros E. inversion E; subst; clear E.
    cbn [open_list tie_breaker_counter]. split.
    + eapply Permutation_NoDup.
      * apply Permutation_map, Permutation_sym, heappush_permutation.
      * cbn [map tie_breaker]. constructor; [|exact Hn].
        intros Hin. apply in_map_iff in Hin. destruct Hin as (m & Hm & Hin).
        rewrite Forall_forall in Hb. specialize (Hb m Hin). lia.
    + apply heappush_Forall; [cbn [tie_breaker]; lia|].
      eapply Forall_impl; [|exact Hb]. intros a Ha. cbv beta in *. lia.
  - intros E. inversion E; subst; clear E. auto.
Qed.

Lemma visit_all_distinct s g p xs :
  forall e e',
    distinct_keys e ->
    visit_all target s g p e xs = Continue e' -> distinct_keys e'.
Proof.
  induction xs as [|x xs IH]; simpl; intros e e' Hi H.
  - inversion H; subst. exact Hi.
  - destruct (visit target s g p e x) eqn:E; [|discriminate].
    eapply IH; [|exact H]. eapply visit_distinct; eauto.
Qed.

Lemma turn_distinct n e e' :
  distinct_keys e ->
  turn target max_steps n e = Continue e' -> distinct_keys e'.
Proof.
  unfold turn. intros Hi.
  destruct (max_steps <=? Z.of_nat (g_cost n))%Z.
  - intros E. inversion E; subst. exact Hi.
  - destruct (generator_raises (state n)); [discriminate|].
    now apply visit_all_distinct.
Qed.

Lemma pops_distinct e n rest :
  distinct_keys e ->
  pops (open_list e) n rest ->
  distinct_keys {| open_list := rest; visited := visited e;
                   tie_breaker_counter := tie_breaker_counter e |}.
Proof.
  intros [Hn Hb] [Hp _]. split; cbn [open_list tie_breaker_counter].
  - assert (H : NoDup (map (@tie_breaker T) (n :: rest)))
      by (eapply Permutation_NoDup; [apply Permutation_map, Hp|exact Hn]).
    now inversion H.
  - assert (H : Forall (fun m => tie_breaker m < tie_breaker_counter e)
                       (n :: rest))
      by (eapply Permutation_Forall; eauto).
    now inversion H.
Qed.

(** With pairwise distinct tie-breakers the heap has exactly one
    smallest item: [heappop] has no choice. *)
Lemma pops_unique (l l' : list (@SearchNode T)) n n' rest rest' :
  NoDup (map (@tie_breaker T) l) ->
  Permutation l l' ->
  pops l n rest -> pops l' n' rest' ->
  n = n' /\ Permutation rest rest'.
Proof.
  intros Hn Hl [Hp Hm] [Hp' Hm'].
  assert (Hd : NoDup (map (@tie_breaker T) (n :: rest)))
    by (eapply Permutation_NoDup; [apply Permutation_map, Hp|exact Hn]).
  assert (Hpp : Permutation (n :: rest) (n' :: rest')).
  { eapply perm_trans; [apply Permutation_sym, Hp|].
    eapply perm_trans; [exact Hl|exact Hp']. }
  assert (E : n = n').
  { assert (Hin : In n' (n :: rest)).
    { eapply Permutation_in; [apply Permutation_sym, Hpp|now left]. }
    destruct Hin as [E|Hin]; [exact E|]. exfalso.
    assert (Hin' : In n (n' :: rest')).
    { eapply Permutation_in; [exact Hpp|now left]. }
    destruct Hin' as [E|Hin']; [subst n'|].
    - cbn [map] in Hd. inversion Hd as [|? ? Hnot _]; subst.
      apply Hnot. now apply in_map.
    - rewrite Forall_forall in Hm, Hm'.
      pose proof (Hm _ Hin) as H1. pose proof (Hm' _ Hin') as H2.
      assert (Hne : tie_breaker n' <> tie_breaker n).
      { cbn [map] in Hd. inversion Hd as [|? ? Hnot _]; subst.
        intros Heq. apply Hnot. rewrite <- Heq. now apply in_map. }
      rewrite (@node_ltb_total _ _ _ Hne H1) in H2. discriminate. }
  split; [exact E|]. subst n'. eapply Permutation_cons_inv; eauto.
Qed.

Lemma start_engine_distinct (s0 : @State T) :
  distinct_keys (start_engine target s0).
Proof.
  split; cbn [start_engine open_list tie_breaker_counter heappush
              insert_sorted map tie_breaker].
  - repeat constructor. intros [].
  - repeat constructor.
Qed.

Lemma start_engine_heap (s0 : @State T) :
  heap_invariant (start_engine target s0).
Proof.
  split; cbn [start_engine open_list tie_breaker_counter heappush
              insert_sorted]; repeat constructor.
Qed.

(** ** Every run reaches the outcome [solve_loop] computes *)

Lemma runs_of_solve_loop fuel :
  forall e o,
    heap_invariant e ->
    solve_loop target max_steps fuel e = Some o ->
    runs target max_steps e o.
Proof.
  induction fuel as [|fuel IH]; simpl; intros e o Hi H.
  - discriminate.
  - pose proof (@iteration_heap T NT target max_steps e) as Hh.
    rewrite iteration_turn in H, Hh. unfold heappop in H, Hh.
    destruct (open_list e) as [|n rest] eqn:Eo.
    + inversion H; subst. now apply runs_exhausted.
    + assert (Hp : pops (open_list e) n rest).
      { rewrite Eo. split; [apply Permutation_refl|].
        destruct Hi as [Hs _]. rewrite Eo in Hs.
        inversion Hs as [|? ? _ Hm]; subst.
        eapply Forall_impl; [|exact Hm].
        intros m. apply node_ltb_asym. }
      destruct (turn target max_steps n _) as [e1|o1] eqn:Et.
      * eapply runs_turn; [exact Hp|exact Et|apply same_contents_refl|].
        apply IH; [|exact H]. now apply (Hh e1 Hi).
      * inversion H; subst. eapply runs_stop; eauto.
Qed.

Lemma runs_unique e o :
  runs target max_steps e o ->
  forall e' o',
    same_contents e e' -> distinct_keys e ->
    runs target max_steps e' o' -> o = o'.
Proof.
  induction 1 as [e He|e n rest o Hp Ht|e n rest e1 e2 o Hp Ht Hs _ IH];
    intros e' o' Hc Hd Hr.
  - destruct Hc as (Ho & Hv & _). rewrite He in Ho.
    inversion Hr as [? He'|? n' rest' ? [Hp' _]|? n' rest' ? ? ? [Hp' _]];
      subst.
    + now rewrite (Permutation_length Hv).
    + apply Permutation_nil in Ho. rewrite Ho in Hp'.
      apply Permutation_nil in Hp'. discriminate.
    + apply Permutation_nil in Ho. rewrite Ho in Hp'.
      apply Permutation_nil in Hp'. discriminate.
  - inversion Hr as [? He'|? n' rest' ? Hp' Ht'|? n' rest' e1' e2' ? Hp' Ht'];
      subst.
    + destruct Hc as (Ho & _). rewrite He' in Ho.
      destruct Hp as [Hp _]. apply Permutation_sym in Ho.
      apply Permutation_nil in Ho. rewrite Ho in Hp.
      apply Permutation_nil in Hp. discriminate.
    + destruct (pops_unique (proj1 Hd) (proj1 Hc) Hp Hp') as [<- Hrest].
      pose proof (@turn_same_contents n
                    {| open_list := rest; visited := visited e;
                       tie_breaker_counter := tie_breaker_counter e |}
                    {| open_list := rest'; visited := visited e';
                       tie_breaker_counter := tie_breaker_counter e' |})
        as Hsame.
      rewrite Ht, Ht' in Hsame. apply Hsame.
      destruct Hc as (_ & Hv & Hk). repeat split; assumption.
    + destruct (pops_unique (proj1 Hd) (proj1 Hc) Hp Hp') as [<- Hrest].
      pose proof (@turn_same_contents n
                    {| open_list := rest; visited := visited e;
                       tie_breaker_counter := tie_breaker_counter e |}
                    {| open_list := rest'; visited := visited e';
                       tie_breaker_counter := tie_breaker_counter e' |})
        as Hsame.
      rewrite Ht, Ht' in Hsame. exfalso. apply Hsame.
      destruct Hc as (_ & Hv & Hk). repeat split; assumption.
  - inversion Hr as [? He'|? n' rest' ? Hp' Ht'|? n' rest' e1' e2' ? Hp' Ht' Hs' Hr'];
      subst.
    + destruct Hc as (Ho & _). rewrite He' in Ho.
      destruct Hp as [Hp _]. apply Permutation_sym in Ho.
      apply Permutation_nil in Ho. rewrite Ho in Hp.
      apply Permutation_nil in Hp. discriminate.
    + destruct (pops_unique (proj1 Hd) (proj1 Hc) Hp Hp') as [<- Hrest].
      pose proof (@turn_same_contents n
                    {| open_list := rest; visited := visited e;
                       tie_breaker_counter := tie_breaker_counter e |}
                    {| open_list := rest'; visited := visited e';
                       tie_breaker_counter := tie_breaker_counter e' |})
        as Hsame.
      rewrite Ht, Ht' in Hsame. exfalso. apply Hsame.
      destruct Hc as (_ & Hv & Hk). repeat split; assumption.
    + destruct (pops_unique (proj1 Hd) (proj1 Hc) Hp Hp') as [<- Hrest].
      pose proof (@turn_same_contents n
                    {| open_list := rest; visited := visited e;
                       tie_breaker_counter := tie_breaker_counter e |}
                    {| open_list := rest'; visited := visited e';
                       tie_breaker_counter := tie_breaker_counter e' |})
        as Hsame.
      rewrite Ht, Ht' in Hsame.
      assert (H1 : same_contents e1 e1').
      { apply Hsame. destruct Hc as (_ & Hv & Hk).
        repeat split; assumption. }
      apply (IH e2' o'); [| |exact Hr'].
      * eapply same_contents_trans; [apply same_contents_sym, Hs|].
        eapply same_contents_trans; [exact H1|exact Hs'].
      * eapply distinct_keys_same_contents; [exact Hs|].
        eapply turn_distinct; [|exact Ht].
        eapply pops_distinct; eauto.
Qed.
End RunFacts.
(* ================================================================== *)
(** * Every successor adds a figure that is canonically new *)
(* ================================================================== *)

Section SuccessorsAdd.
Context {T : Type} {NT : Num T}.
Implicit Types (o : @objects_t T) (s : @State T) (f : @figure T).

(** What a step of a successor promises: its output names, in the
    successor's state, a figure of the output's type whose canonical
    form the extended state did not hold; the sub-mappings of the
    other types are unchanged. *)
Lemma add_object_novel o n f o' id :
  _add_object o n f = (o', Some id) ->
  figure_known o f = false /\ same_elsewhere (figure_type f) o o'.
Proof.
  unfold _add_object, figure_known. intros H.
  destruct f as [p|l|c]; simpl;
    match type of H with (if ?b then _ else _) = _ => destruct b eqn:E end;
    inversion H; subst; clear H; simpl; auto.
Qed.

Lemma add_result_first_is_new o n results acc i :
  first_is_new o n acc -> first_is_new o n (add_result results n acc i).
Proof.
  destruct acc as [[o1 ids] g]. unfold first_is_new, add_result.
  intros (Hl & Hc & Hi).
  destruct (_add_object o1 (n + g) (Fpoint (buffer_get results i)))
    as [o2 [id|]] eqn:E.
  - pose proof (add_object_novel _ _ _ E) as [Hn [Hl2 Hc2]].
    pose proof (add_object_new _ _ _ E) as [-> Hg].
    cbn [figure_known] in Hn. cbn [lookup_figure figure_type] in Hg.
    split; [congruence|]. split; [congruence|].
    destruct ids as [|id0 rest]; cbn [app].
    + subst o1. exists g, (buffer_get results i).
      repeat split; try lia; try assumption.
      cbn [figure_type].
      destruct (dict_get (points o2) (make_id point_t (n + g)));
        cbn [option_map] in Hg; congruence.
    + destruct Hi as (g0 & p & Hlt & -> & Hd & Hk).
      exists g0, p. repeat split; try lia; try assumption.
      unfold _add_object in E.
      destruct (point_known (points o1) (buffer_get results i));
        [discriminate|].
      inversion E; subst; clear E. cbn [points].
      rewrite dict_get_set.
      destruct (String.eqb (make_id point_t (n + g))
                           (make_id point_t (n + g0))) eqn:Eq; [|exact Hd].
      apply String.eqb_eq in Eq. apply make_id_inj in Eq. lia.
  - apply add_object_old in E. subst o2. auto.
Qed.

Lemma fold_add_result_first_is_new o n results idxs :
  forall acc,
    first_is_new o n acc ->
    first_is_new o n (fold_left (add_result results n) idxs acc).
Proof.
  induction idxs as [|i idxs IH]; simpl; intros acc H.
  - exact H.
  - apply IH. now apply add_result_first_is_new.
Qed.

Lemma successor_adds_new_figure s x :
  In x (generate_successors s) ->
  same_elsewhere (output_type (snd x)) (objects s) (fst x)
  /\ exists f,
      lookup_figure (fst x) (output_type (snd x)) (output_id (snd x)) = Some f
      /\ figure_type f = output_type (snd x)
      /\ figure_known (objects s) f = false.
Proof.
  unfold generate_successors. intros Hin.
  apply in_app_or in Hin. destruct Hin as [Hin|Hin].
  - (* intersections *)
    revert Hin. generalize 0%N.
    induction (intersection_configs (objects s)) as [|cfg rest IH];
      simpl; intros g Hin; [destruct Hin|].
    destruct (intersection_round (objects s) (next_point (next_ids s)) g cfg)
      as [[y|] g'] eqn:E; [destruct Hin as [<-|Hin]|]; eauto.
    clear IH. unfold intersection_round in E.
    destruct (intersect cfg) as [results count].
    destruct (count =? 0)%nat; [discriminate|].
    assert (H0 : first_is_new (objects s) (next_point (next_ids s))
                              (objects s, [], g))
      by (repeat split; reflexivity).
    pose proof (@fold_add_result_first_is_new _ _ results (seq 0 count) _ H0)
      as H.
    destruct (fold_left _ _ _) as [[o' ids] g1].
    destruct ids as [|id ids]; [discriminate|].
    inversion E; subst; clear E. cbn [fst snd output_type output_id].
    destruct H as (Hl & Hc & g0 & p & _ & _ & Hd & Hk).
    split; [split; assumption|].
    exists (Fpoint p). simpl. rewrite Hd. auto.
  - apply in_app_or in Hin. destruct Hin as [Hin|Hin].
    + unfold line_successors in Hin.
      destruct (2 <=? List.length (points (objects s)))%nat; [|destruct Hin].
      apply in_flat_map in Hin.
      destruct Hin as [[[p1_id p1] [p2_id p2]] [_ Hin]].
      destruct (_add_object (objects s) (next_line (next_ids s))
                  (Fline (construct_line_from_points p1 p2)))
        as [o' [id|]] eqn:E; [|destruct Hin].
      destruct Hin as [<-|[]]. cbn [fst snd output_type output_id].
      pose proof (add_object_novel _ _ _ E) as [Hn Hs].
      pose proof (add_object_new _ _ _ E) as [-> Hg].
      split; [exact Hs|]. eexists. split; [exact Hg|]. auto.
    + unfold circle_successors in Hin.
      destruct (2 <=? List.length (points (objects s)))%nat; [|destruct Hin].
      apply in_flat_map in Hin.
      destruct Hin as [[[p1_id p1] [p2_id p2]] [_ Hin]].
      destruct (_add_object (objects s) (next_circle (next_ids s))
                  (Fcircle (construct_circle_from_points p1 p2)))
        as [o' [id|]] eqn:E; [|destruct Hin].
      destruct Hin as [<-|[]]. cbn [fst snd output_type output_id].
      pose proof (add_object_novel _ _ _ E) as [Hn Hs].
      pose proof (add_object_new _ _ _ E) as [-> Hg].
      split; [exact Hs|]. eexists. split; [exact Hg|]. auto.
Qed.
End SuccessorsAdd.
(* ================================================================== *)
(** * Exact arithmetic: rounding to ten decimals *)
(* ================================================================== *)

Section ExactRounding.
Local Open Scope R_scope.

Lemma Int_part_bounds (x : R) : IZR (Int_part x) <= x < IZR (Int_part x) + 1.
Proof. destruct (base_Int_part x). lra. Qed.

Lemma Int_part_unique (x : R) (n : Z) :
  IZR n <= x < IZR n + 1 -> Int_part x = n.
Proof.
  intros [H1 H2]. destruct (Int_part_bounds x) as [H3 H4].
  assert (Ha : (Int_part x < n + 1)%Z).
  { apply lt_IZR. rewrite plus_IZR. lra. }
  assert (Hb : (n < Int_part x + 1)%Z).
  { apply lt_IZR. rewrite plus_IZR. lra. }
  lia.
Qed.

Lemma rint_near (x : R) : IZR (Exact.rint x) - 1/2 <= x <= IZR (Exact.rint x) + 1/2.
Proof.
  unfold Exact.rint. destruct (Int_part_bounds x) as [H1 H2].
  destruct (Rlt_dec (x - IZR (Int_part x)) (1/2)) as [Ha|Ha].
  - lra.
  - destruct (Rlt_dec (1/2) (x - IZR (Int_part x))) as [Hb|Hb].
    + rewrite plus_IZR. lra.
    + destruct (Z.even (Int_part x)); [|rewrite plus_IZR]; lra.
Qed.

Lemma rint_IZR (n : Z) : Exact.rint (IZR n) = n.
Proof.
  unfold Exact.rint.
  assert (H : Int_part (IZR n) = n) by (apply Int_part_unique; lra).
  rewrite H. destruct (Rlt_dec (IZR n - IZR n) (1/2)); [reflexivity|lra].
Qed.

Lemma rint_mono (x y : R) : x <= y -> (Exact.rint x <= Exact.rint y)%Z.
Proof.
  intros Hxy.
  destruct (Z_le_gt_dec (Exact.rint x) (Exact.rint y)) as [H|H]; [exact H|].
  exfalso.
  assert (H1 : IZR (Exact.rint y) + 1 <= IZR (Exact.rint x)).
  { rewrite <- plus_IZR. apply IZR_le. lia. }
  pose proof (rint_near x) as Hx. pose proof (rint_near y) as Hy.
  assert (Heq : x = y) by lra. subst y. lia.
Qed.

Lemma pow10_hp_pos : 0 < Exact.pow10_hp.
Proof. unfold Exact.pow10_hp. lra. Qed.

(** A number with at most ten decimals is its own rounding. *)
Lemma round_grid (n : Z) :
  Exact.round (IZR n / Exact.pow10_hp) = IZR n / Exact.pow10_hp.
Proof.
  unfold Exact.round.
  replace (IZR n / Exact.pow10_hp * Exact.pow10_hp) with (IZR n).
  - now rewrite rint_IZR.
  - pose proof pow10_hp_pos. field. lra.
Qed.

Lemma round_idempotent (x : R) : Exact.round (Exact.round x) = Exact.round x.
Proof. unfold Exact.round at 2 3. apply round_grid. Qed.

Lemma round_mono (x y : R) : x <= y -> Exact.round x <= Exact.round y.
Proof.
  intros H. unfold Exact.round. pose proof pow10_hp_pos as Hp.
  apply Rmult_le_compat_r.
  - apply Rlt_le. now apply Rinv_0_lt_compat.
  - apply IZR_le. apply rint_mono. apply Rmult_le_compat_r; lra.
Qed.

Lemma round_EPSILON : Exact.round (1 / 1000000000) = 1 / 1000000000.
Proof.
  replace (1 / 1000000000) with (IZR 10 / Exact.pow10_hp)
    by (unfold Exact.pow10_hp; lra).
  apply round_grid.
Qed.

Lemma round_opp_EPSILON : Exact.round (- (1 / 1000000000)) = - (1 / 1000000000).
Proof.
  replace (- (1 / 1000000000)) with (IZR (-10) / Exact.pow10_hp)
    by (unfold Exact.pow10_hp; lra).
  apply round_grid.
Qed.

Lemma round_zero : Exact.round 0 = 0.
Proof.
  replace 0 with (IZR 0 / Exact.pow10_hp) at 1 by (unfold Exact.pow10_hp; lra).
  rewrite round_grid. unfold Exact.pow10_hp. lra.
Qed.

Lemma Rltb_true (x y : R) : Exact.Rltb x y = true <-> x < y.
Proof. unfold Exact.Rltb. destruct (Rlt_dec x y); split; intros; auto; discriminate. Qed.

Lemma Rltb_false (x y : R) : Exact.Rltb x y = false <-> ~ x < y.
Proof. unfold Exact.Rltb. destruct (Rlt_dec x y); split; intros; auto; try discriminate; tauto. Qed.
End ExactRounding.

Ltac rltb_props :=
  repeat match goal with
         | H : Exact.Rltb _ _ = true |- _ => apply Rltb_true in H
         | H : Exact.Rltb _ _ = false |- _ => apply Rltb_false in H
         end.

Ltac rabs_lra :=
  unfold Rabs in *; repeat destruct (Rcase_abs _); lra.

(* ================================================================== *)
(** * Exact arithmetic: canonical forms *)
(* ================================================================== *)

Section ExactCanonical.
Local Open Scope R_scope.

Lemma normalize_point_idempotent_exact (p : @point R) :
  normalize_point (normalize_point p) = normalize_point p.
Proof.
  unfold normalize_point. cbn [fst snd]. num_ops.
  now rewrite !round_idempotent.
Qed.

Lemma normalize_circle_idempotent_exact (c : @circle R) :
  normalize_circle (normalize_circle c) = normalize_circle c.
Proof.
  destruct c as [[cx cy] r]. unfold normalize_circle. num_ops.
  now rewrite !round_idempotent.
Qed.

Lemma settled_after_rounding (A B : R) :
  settled A B ->
  Exact.Rltb (1 / 1000000000) (Rabs (Exact.round A))
  && Exact.Rltb (Exact.round A) 0 = false
  /\ Exact.Rltb (Rabs (Exact.round A)) (1 / 1000000000)
     && Exact.Rltb (1 / 1000000000) (Rabs (Exact.round B))
     && Exact.Rltb (Exact.round B) 0 = false.
Proof.
  intros HS.
  pose proof round_EPSILON as He. pose proof round_opp_EPSILON as Hne.
  pose proof round_zero as H0.
  assert (Hcases :
    1 / 1000000000 <= Exact.round A
    \/ Rabs (Exact.round A) = 1 / 1000000000
    \/ (Rabs (Exact.round A) <= 1 / 1000000000
        /\ (0 <= Exact.round B \/ - (1 / 1000000000) <= Exact.round B))).
  { destruct HS as [H|[H|[H1 H2]]].
    - left. rewrite <- He. apply round_mono. lra.
    - right. left. revert H. unfold Rabs at 1.
      destruct (Rcase_abs A); intros H.
      + replace A with (- (1 / 1000000000)) by lra. rewrite Hne.
        rewrite Rabs_Ropp. apply Rabs_pos_eq. lra.
      + rewrite H. rewrite He. apply Rabs_pos_eq. lra.
    - right. right. split.
      + apply Rabs_le. split.
        * rewrite <- Hne. apply round_mono.
          revert H1. unfold Rabs. destruct (Rcase_abs A); lra.
        * rewrite <- He. apply round_mono.
          revert H1. unfold Rabs. destruct (Rcase_abs A); lra.
      + destruct H2 as [H2|H2].
        * left. rewrite <- H0. now apply round_mono.
        * right. rewrite <- Hne. apply round_mono.
          revert H2. unfold Rabs. destruct (Rcase_abs B); lra. }
  split.
  - apply andb_false_iff.
    destruct (Rlt_dec (Exact.round A) 0) as [Hn|Hn].
    + left. apply Rltb_false. intros Hc.
      destruct Hcases as [H|[H|[H _]]]; lra.
    + right. now apply Rltb_false.
  - apply andb_false_iff.
    destruct (Rlt_dec (Exact.round B) 0) as [Hb|Hb].
    + left. apply andb_false_iff.
      destruct (Rlt_dec (Rabs (Exact.round A)) (1 / 1000000000)) as [Ha|Ha].
      * right. apply Rltb_false. intros Hc.
        destruct Hcases as [H|[H|[_ [H|H]]]].
        -- revert Ha. unfold Rabs. destruct (Rcase_abs _); lra.
        -- lra.
        -- lra.
        -- revert Hc. unfold Rabs. destruct (Rcase_abs _); lra.
      * left. now apply Rltb_false.
    + right. now apply Rltb_false.
Qed.

Lemma normalize_line_shape (l : @line R) :
  normalize_line l = (0, 0, 0)
  \/ exists A B C,
      normalize_line l = (Exact.round A, Exact.round B, Exact.round C)
      /\ settled A B.
Proof.
  destruct l as [[A B] C]. unfold normalize_line. num_ops.
  set (norm := sqrt (A * A + B * B)).
  destruct (Exact.Rltb norm (1 / 1000000000)); [now left|right].
  destruct (Exact.Rltb (1 / 1000000000) (Rabs (A / norm))) eqn:E1;
    destruct (Exact.Rltb (A / norm) 0) eqn:E2;
    destruct (Exact.Rltb (Rabs (A / norm)) (1 / 1000000000)) eqn:E3;
    destruct (Exact.Rltb (1 / 1000000000) (Rabs (B / norm))) eqn:E4;
    destruct (Exact.Rltb (B / norm) 0) eqn:E5;
    cbn [andb]; do 3 eexists; (split; [reflexivity|]);
    rltb_props; unfold settled;
    first [ left; rabs_lra
          | right; left; rabs_lra
          | right; right; split; [rabs_lra|left; rabs_lra]
          | right; right; split; [rabs_lra|right; rabs_lra] ].
Qed.

Lemma normalize_line_unit_fixed (l : @line R) :
  unit_direction (normalize_line l) ->
  normalize_line (normalize_line l) = normalize_line l.
Proof.
  destruct (normalize_line_shape l) as [H|(A & B & C & H & HS)];
    rewrite H; clear H.
  - unfold unit_direction. num_ops.
    replace (0 * 0 + 0 * 0) with 0 by lra. rewrite sqrt_0. lra.
  - intros Hu. unfold unit_direction in Hu. num_ops.
    apply settled_after_rounding in HS. destruct HS as [H1 H2].
    unfold normalize_line. num_ops. rewrite Hu.
    assert (Hlt : Exact.Rltb 1 (1 / 1000000000) = false)
      by (apply Rltb_false; lra).
    rewrite Hlt.
    replace (Exact.round A / 1) with (Exact.round A) by field.
    replace (Exact.round B / 1) with (Exact.round B) by field.
    replace (Exact.round C / 1) with (Exact.round C) by field.
    rewrite H1, H2. now rewrite !round_idempotent.
Qed.
End ExactCanonical.
(* ================================================================== *)
(** * binary64: signs commute with the operations *)
(* ================================================================== *)

Section Binary64Signs.





End Binary64Signs.

(* ================================================================== *)
(** * Exact arithmetic: the kernel *)
(* ================================================================== *)

Section ExactKernel.
Local Open Scope R_scope.



(** The point [(x_closest, y_closest)] is the foot of the
    perpendicular from the centre onto the line. *)
Lemma closest_is_foot_exact (A B C cx cy r_sq : R) :
  A * A + B * B <> 0 ->
  let l := (A, B, C) in
  let c := (cx, cy, r_sq) in
  on_line l (x_closest l c, y_closest l c)
  /\ (x_closest l c - cx) * B - (y_closest l c - cy) * A = 0.
Proof.
  intros H l c. unfold on_line, x_closest, y_closest, l, c. cbn [fst snd].
  num_ops. split; field; exact H.
Qed.

(** In exact arithmetic the tests of [intersect_line_circle] exclude
    each other. *)
Lemma tangent_excludes_outside_exact (d_sq r_sq : R) :
  Rabs (d_sq - r_sq) < 1 / 1000000000 -> ~ r_sq + 1 / 1000000000 < d_sq.
Proof. intros H. rabs_lra. Qed.
End ExactKernel.

(* ================================================================== *)
(** * The branches of [intersect_line_circle] *)
(* ================================================================== *)

Section LineCircleBranches.
Context {T : Type} {NT : Num T}.
Local Open Scope num_scope.

Lemma intersect_line_circle_branches (l : @line T) (c : @circle T) :
  let '(A, B, _) := l in
  let '(_, _, r_sq) := c in
  (A * A + B * B <? EPSILON) = false ->
  intersect_line_circle l c =
  if ngtb (dist_sq l c) (r_sq + EPSILON) then (empty_buffer, 0%nat)
  else if nabs (dist_sq l c - r_sq) <? EPSILON
       then (((x_closest l c, y_closest l c), nan_point), 1%nat)
       else
         let h := nsqrt (r_sq - dist_sq l c) in
         let n := nsqrt (A * A + B * B) in
         (((x_closest l c + (h * - B) / n, y_closest l c + (h * A) / n),
           (x_closest l c - (h * - B) / n, y_closest l c - (h * A) / n)),
          2%nat).
Proof.
  destruct l as [[A B] C], c as [[cx cy] r_sq]. intros H.
  unfold intersect_line_circle. rewrite H. reflexivity.
Qed.
End LineCircleBranches.
(* ================================================================== *)
(** * Exact arithmetic: the two orders of [construct_line_from_points] *)
(* ================================================================== *)

Section ExactOrder.
Local Open Scope R_scope.

Lemma construct_line_swap_exact (p1 p2 : @point R) :
  let '(A, B, C) := construct_line_from_points p1 p2 in
  construct_line_from_points p2 p1 = (- A, - B, - C).
Proof.
  destruct p1 as [x1 y1], p2 as [x2 y2].
  unfold construct_line_from_points. num_ops.
  repeat f_equal; ring.
Qed.

(** Outside the gap [|A / norm| = 1e-9] a line and its opposite have
    the same canonical form. *)
Lemma normalize_line_opp_exact (A B C : R) :
  Rabs (A / sqrt (A * A + B * B)) <> 1 / 1000000000 ->
  @normalize_line R Num_R (- A, - B, - C) = normalize_line (A, B, C).
Proof.
  intros Hgap. unfold normalize_line. num_ops.
  replace (- A * - A + - B * - B) with (A * A + B * B) by ring.
  set (norm := sqrt (A * A + B * B)) in *.
  destruct (Exact.Rltb norm (1 / 1000000000)) eqn:En; [reflexivity|].
  apply Rltb_false in En.
  assert (Hn : norm <> 0) by lra.
  assert (Hsq : norm * norm = A * A + B * B).
  { apply sqrt_sqrt. nra. }
  replace (- A / norm) with (- (A / norm)) by (field; exact Hn).
  replace (- B / norm) with (- (B / norm)) by (field; exact Hn).
  replace (- C / norm) with (- (C / norm)) by (field; exact Hn).
  assert (Hunit : (A / norm) * (A / norm) + (B / norm) * (B / norm) = 1).
  { replace (A / norm * (A / norm) + B / norm * (B / norm))
      with ((A * A + B * B) / (norm * norm)) by (field; exact Hn).
    rewrite Hsq. field. rewrite <- Hsq. nra. }
  set (A1 := A / norm) in *. set (B1 := B / norm) in *.
  set (C1 := C / norm).
  assert (HB : Rabs A1 < 1 / 1000000000 -> 1 / 1000000000 < Rabs B1).
  { intros Ha.
    assert (Ha2 : A1 * A1 < 1 / 1000000000) by (revert Ha; unfold Rabs;
      destruct (Rcase_abs A1); intros; nra).
    unfold Rabs. destruct (Rcase_abs B1); nra. }
  rewrite !Rabs_Ropp.
  destruct (Exact.Rltb (1 / 1000000000) (Rabs A1)) eqn:E1;
    destruct (Exact.Rltb A1 0) eqn:E2;
    destruct (Exact.Rltb (- A1) 0) eqn:E2';
    destruct (Exact.Rltb (Rabs A1) (1 / 1000000000)) eqn:E3;
    destruct (Exact.Rltb (1 / 1000000000) (Rabs B1)) eqn:E4;
    destruct (Exact.Rltb B1 0) eqn:E5;
    destruct (Exact.Rltb (- B1) 0) eqn:E5';
    cbn [andb]; rewrite ?Ropp_involutive; try reflexivity;
    exfalso; rltb_props;
    try (specialize (HB E3)); rabs_lra.
Qed.

Lemma line_order_independent_exact (p1 p2 : @point R) :
  let '(A, B, _) := construct_line_from_points p1 p2 in
  Rabs (A / sqrt (A * A + B * B)) <> 1 / 1000000000 ->
  normalize_line (construct_line_from_points p1 p2)
  = normalize_line (construct_line_from_points p2 p1).
Proof.
  pose proof (construct_line_swap_exact p1 p2) as H.
  destruct (construct_line_from_points p1 p2) as [[A B] C].
  rewrite H. intros Hgap. symmetry. now apply normalize_line_opp_exact.
Qed.
End ExactOrder.
(* ================================================================== *)
(** * Exact arithmetic: a canonical line that is not a fixed point *)
(* ================================================================== *)

Section ExactNotIdempotent.
Local Open Scope R_scope.

Lemma rint_unique (x : R) (n : Z) :
  IZR n - 1/2 < x < IZR n + 1/2 -> Exact.rint x = n.
Proof.
  intros [H1 H2]. pose proof (rint_near x) as [H3 H4].
  assert (Ha : (Exact.rint x < n + 1)%Z).
  { apply lt_IZR. rewrite plus_IZR. lra. }
  assert (Hb : (n < Exact.rint x + 1)%Z).
  { apply lt_IZR. rewrite plus_IZR. lra. }
  lia.
Qed.

Lemma round_unique (x : R) (n : Z) :
  IZR n - 1/2 < x * Exact.pow10_hp < IZR n + 1/2 ->
  Exact.round x = IZR n / Exact.pow10_hp.
Proof. intros H. unfold Exact.round. now rewrite (rint_unique _ H). Qed.

Lemma normalize_skew_line :
  normalize_line skew_line
  = (3846153846 / 10000000000, 9230769231 / 10000000000, 1000000).
Proof.
  unfold skew_line, normalize_line. num_ops.
  replace (5 * 5 + 12 * 12) with (13 * 13) by lra.
  rewrite sqrt_square by lra.
  assert (H1 : Exact.Rltb 13 (1 / 1000000000) = false)
    by (apply Rltb_false; lra).
  rewrite H1.
  assert (H2 : Exact.Rltb (5 / 13) 0 = false) by (apply Rltb_false; lra).
  assert (H3 : Exact.Rltb (Rabs (5 / 13)) (1 / 1000000000) = false).
  { apply Rltb_false. rewrite Rabs_pos_eq; lra. }
  rewrite H2, H3, andb_false_r. cbn [andb].
  rewrite (@round_unique (5 / 13) 3846153846)
    by (unfold Exact.pow10_hp; lra).
  rewrite (@round_unique (12 / 13) 9230769231)
    by (unfold Exact.pow10_hp; lra).
  rewrite (@round_unique (13000000 / 13) 10000000000000000)
    by (unfold Exact.pow10_hp; lra).
  unfold Exact.pow10_hp. repeat f_equal; lra.
Qed.

(** The length of the rounded direction [(0.3846153846, 0.9230769231)]
    exceeds 1. *)
Lemma skew_norm_above_one :
  1 + 1 / 100000000000
  < sqrt (3846153846 / 10000000000 * (3846153846 / 10000000000)
          + 9230769231 / 10000000000 * (9230769231 / 10000000000)).
Proof.
  rewrite <- (sqrt_square (1 + 1 / 100000000000)) at 1 by lra.
  apply sqrt_lt_1_alt. lra.
Qed.

(** Also in exact arithmetic [normalize_line] moves the third
    coefficient of a canonical form whose direction is not of length
    1. *)
Lemma normalize_line_not_idempotent_exact :
  normalize_line (normalize_line skew_line) <> normalize_line skew_line.
Proof.
  rewrite normalize_skew_line. unfold normalize_line. num_ops.
  pose proof skew_norm_above_one as Hn.
  set (norm := sqrt _) in *.
  assert (H1 : Exact.Rltb norm (1 / 1000000000) = false)
    by (apply Rltb_false; lra).
  rewrite H1.
  assert (Hc : 1000000 / norm <= 1000000 - 1 / 1000000).
  { apply Rmult_le_reg_r with norm; [lra|].
    replace (1000000 / norm * norm) with 1000000 by (field; lra).
    nra. }
  assert (Hr : Exact.round (1000000 / norm) <= 1000000 - 1 / 1000000).
  { replace (1000000 - 1 / 1000000)
      with (IZR 9999999999990000 / Exact.pow10_hp)
      by (unfold Exact.pow10_hp; lra).
    rewrite <- round_grid. apply round_mono.
    unfold Exact.pow10_hp. lra. }
  assert (Hr' : Exact.round (- (1000000 / norm)) <= 0).
  { rewrite <- round_zero. apply round_mono.
    assert (0 < 1000000 / norm) by (apply Rdiv_lt_0_compat; lra). lra. }
  destruct (_ && _); [|destruct (_ && _)];
    intros E; inversion E as [[Ea Eb Ec]]; lra.
Qed.
End ExactNotIdempotent.
(* ================================================================== *)
(** * The claims on the kernel and the canonical forms *)
(* ================================================================== *)


(** In exact arithmetic [intersect_line_circle] on a non-degenerate
    line returns count 0 above [r_sq + 1e-9], the point
    [(x_closest, y_closest)] (the foot of the perpendicular from the
    centre, [closest_is_foot_exact]) with count 1 when
    [|dist_sq - r_sq| < 1e-9], and count 2 otherwise; the second test
    excludes the first. *)
Lemma line_circle_cases_exact (A B C cx cy r_sq : R) :
  let l : @line R := (A, B, C) in
  let c : @circle R := (cx, cy, r_sq) in
  (1 / 1000000000 <= A * A + B * B)%R ->
  ((r_sq + 1 / 1000000000 < dist_sq l c)%R ->
   intersect_line_circle l c = (empty_buffer, 0%nat))
  /\ ((Rabs (dist_sq l c - r_sq) < 1 / 1000000000)%R ->
      intersect_line_circle l c
      = (((x_closest l c, y_closest l c), nan_point), 1%nat))
  /\ (~ (r_sq + 1 / 1000000000 < dist_sq l c)%R ->
      ~ (Rabs (dist_sq l c - r_sq) < 1 / 1000000000)%R ->
      snd (intersect_line_circle l c) = 2%nat).
Proof.
  intros l c Hnd.
  assert (Hb : (A * A + B * B <? EPSILON)%num = false).
  { num_ops. apply Rltb_false. lra. }
  pose proof (@intersect_line_circle_branches R Num_R l c Hb) as E.
  split; [|split].
  - intros H. rewrite E. unfold ngtb. num_ops.
    apply Rltb_true in H. now rewrite H.
  - intros H. rewrite E. unfold ngtb. num_ops.
    pose proof (tangent_excludes_outside_exact H) as Hn.
    apply Rltb_false in Hn. rewrite Hn.
    apply Rltb_true in H. now rewrite H.
  - intros H1 H2. rewrite E. unfold ngtb. num_ops.
    apply Rltb_false in H1, H2. now rewrite H1, H2.
Qed.

(** C6.  The claim fails on binary64 at the line [x = 1.0000000005],
    given as [(1, 0, -1.0000000005)], and the unit circle [(0, 0, 1)].
    The line is non-degenerate and every point of it (the foot of the
    perpendicular from the centre is the nearest) lies at a squared
    distance above [r_sq + 1e-9] from the centre, so that the claim
    gives count 0.  The kernel computes a [dist_sq] that is not above
    its [r_sq + EPSILON], and a difference [dist_sq - r_sq] that is not
    below [EPSILON]; it reaches the last branch with a negative
    radicand and returns count 2 with a buffer of four NaN. *)
Theorem line_circle_counts_two_where_none :
  let A := 1%float in
  let B := 0%float in
  let C := (-1.0000000005)%float in
  let cx := 0%float in
  let cy := 0%float in
  let r_sq := 1%float in
  (A * A + B * B <? EPSILON)%num = false
  /\ (forall x y : R,
         on_line (real_of A, real_of B, real_of C) (x, y) ->
         (real_of r_sq + 1 / 1000000000
          < (x - real_of cx) * (x - real_of cx)
            + (y - real_of cy) * (y - real_of cy))%R)
  /\ (r_sq - dist_sq (A, B, C) (cx, cy, r_sq) <? nzero)%num = true
  /\ intersect_line_circle (A, B, C) (cx, cy, r_sq)
     = ((nan_point, nan_point), 2%nat).
Proof.
  intros A B C cx cy r_sq.
  split; [vm_compute; reflexivity|]. split; [|split].
  - intros x y. unfold on_line, A, B, C, cx, cy, r_sq. cbn [fst snd].
    real_values. intros H. nra.
  - vm_compute. reflexivity.
  - vm_compute. reflexivity.
Qed.


(* ================================================================== *)
(** * The claims of the specification *)
(* ================================================================== *)

Section Claims.
Import Instances.
Local Open Scope string_scope.
Local Open Scope float_scope.

(** C1 (heuristic admissibility) fails on the code.  From the knowns
    [p1 = (0,0)], [p2 = (1,0)] and the line through them, with target
    the point [(-1,0)], [solve] returns a path of length 2 (the circle
    centred at [p1] through [p2], then its intersection with the
    line), while the heuristic of the initial state is 3: at the first
    node of the returned path [h = 3 > L - g = 2 - 0]. *)
Theorem heuristic_overestimates :
  solve two_points_and_line (Fpoint (-1, 0)) 20 3
  = Some (Returned
            (Some [ {| operation := Circle; inputs := ["p1"; "p2"];
                       output_type := circle_t; output_id := "c1" |};
                    {| operation := Intersection; inputs := ["l1"; "c1"];
                       output_type := point_t; output_id := "p3" |} ])
            4)
  /\ calculate_heuristic two_points_and_line (type_name point_t) = Finite 3.
Proof. split; vm_compute; reflexivity. Qed.

(** C2 (counters above every used ordinal) fails on the code.  The
    seeding is right ([initial_state_counters_above]); the update on
    enqueueing is not.  From the knowns [p1], [p2], the line through
    them and the circles [c1], [c2], the first turn of the loop
    enqueues the successor of the intersection of [c1] and [c2]: its
    state holds the new points [p5] and [p6], and its point counter
    is 6, which is not above the ordinal of [p6]. *)
Theorem counter_not_above_second_point :
  exists e,
    engine_after far_line 20 1
                 (initial_engine far_line two_points_line_circles) = Some e
    /\ In after_circle_circle (enqueued_states e)
    /\ dict_get (points (objects after_circle_circle)) "p6"
       = Some (0.5, -0.8660254037844386)
    /\ next_point (next_ids after_circle_circle) = 6%N
    /\ counters_above after_circle_circle = false.
Proof.
  eexists. split; [vm_compute; reflexivity|].
  split; [|repeat split; vm_compute; reflexivity].
  cbv [enqueued_states map open_list]. right. right. left. reflexivity.
Qed.

(** On binary64 the canonical form of the line [x + y + 1e6 = 0] is
    not a fixed point of [normalize_line]: the second pass divides
    the rounded coefficients by their norm, which is no longer 1, and
    moves the third coefficient.  The same happens in exact
    arithmetic ([normalize_line_not_idempotent_exact]). *)
Lemma normalize_line_not_idempotent :
  triple_eqb (normalize_line (normalize_line steep_line))
             (normalize_line steep_line) = false.
Proof. vm_compute. reflexivity. Qed.

(** C4, counterexample: the line [l1] and the circle [c1] of
    [chord_known] intersect in two points, both already known; the
    successor generator returns no successor for that pair (no
    intersection successor at all). *)
Lemma no_successor_when_both_known :
  intersection_configs chord_known = [chord_config]
  /\ snd (intersect chord_config) = 2%nat
  /\ ~ In Intersection
       (map (fun x => operation (snd x))
            (generate_successors (initial_state chord_known))).
Proof.
  split; [vm_compute; reflexivity|].
  split; [vm_compute; reflexivity|].
  vm_compute. intuition discriminate.
Qed.

(** C7 (order independence of line construction) fails on the code.
    For [p1 = (0, 1e-9)] and [p2 = (1, 0)] the normalised first
    coefficient is exactly [1e-9] in one order and [-1e-9] in the
    other: neither [abs(A) > 1e-9] nor [abs(A) < 1e-9] holds, no sign
    is fixed, and the two canonical forms are opposite.  Away from
    that case the two orders agree
    ([line_order_independent_exact]). *)
Theorem line_canonical_depends_on_order :
  normalize_line (construct_line_from_points gap_p1 gap_p2)
  = (1e-9, 1, -1e-9)
  /\ normalize_line (construct_line_from_points gap_p2 gap_p1)
     = (-1e-9, -1, 1e-9)
  /\ triple_eqb (normalize_line (construct_line_from_points gap_p1 gap_p2))
                (normalize_line (construct_line_from_points gap_p2 gap_p1))
     = false.
Proof. repeat split; vm_compute; reflexivity. Qed.

(** C10 (successor states only grow) fails on the code.  A successor
    always adds a canonically new figure and leaves the other two
    sub-mappings alone ([successor_adds_new_figure]), and it keeps
    every (id, figure) pair when the counters are above the ordinals
    in use ([successors_keep_figures]).  But the state
    [after_circle_circle] is enqueued by the first turn of the loop
    with point counter 6 although it holds [p6]; its first successor,
    the intersection of [l1] and [c1], stores the new point [(-1,0)]
    under [p6] and so replaces the point that [p6] named. *)
Theorem successor_overwrites_point :
  exists e x,
    engine_after far_line 20 1
                 (initial_engine far_line two_points_line_circles) = Some e
    /\ In after_circle_circle (enqueued_states e)
    /\ In x (generate_successors after_circle_circle)
    /\ dict_get (points (objects after_circle_circle)) "p6"
       = Some (0.5, -0.8660254037844386)
    /\ dict_get (points (fst x)) "p6" = Some (-1, 0).
Proof.
  eexists. eexists. split; [vm_compute; reflexivity|].
  split; [cbv [enqueued_states map open_list]; right; right; left; reflexivity|].
  split; [vm_compute; left; reflexivity|].
  split; vm_compute; reflexivity.
Qed.
End Claims.

(** C4 (amended).  For every state and every intersection
    configuration, at any position of [intersection_configs], whose
    kernel call returns two points [r0], [r1], the successor generator
    contributes at that position: nothing when both points are
    canonically known; otherwise exactly one successor, an
    [Intersection] step on the pair's ids whose output is the first id
    allocated, and whose state is the old one with the points that are
    not canonically known added ([r1] is tested after [r0] was added). *)
Theorem two_point_intersection_successor
        (T : Type) (NT : Num T) (s : @State T)
        (pre post : list (@config T)) (cfg : @config T) (results : @buffer T) :
  intersection_configs (objects s) = pre ++ cfg :: post ->
  intersect cfg = (results, 2%nat) ->
  let o := objects s in
  let n := next_point (next_ids s) in
  let g := generated_after o n 0 pre in
  let r0 := fst results in
  let r1 := snd results in
  let id0 := make_id point_t (n + g) in
  let id1 := make_id point_t (n + (g + 1)) in
  let contribution :=
    if point_known (points o) r0 then
      if point_known (points o) r1 then []
      else [(with_point o id0 r1, intersection_step cfg id0)]
    else
      if point_known (points (with_point o id0 r0)) r1
      then [(with_point o id0 r0, intersection_step cfg id0)]
      else [(with_point (with_point o id0 r0) id1 r1,
             intersection_step cfg id0)] in
  generate_successors s
  = intersection_successors o n 0 pre
    ++ contribution
    ++ intersection_successors o n (generated_after o n 0 (pre ++ [cfg])) post
    ++ line_successors o (next_ids s)
    ++ circle_successors o (next_ids s).
Proof.
  intros Hc Hi o n g r0 r1 id0 id1 contribution.
  unfold generate_successors. cbv zeta. rewrite Hc.
  fold o. fold n.
  rewrite intersection_successors_app. fold g.
  rewrite <- !app_assoc. f_equal.
  change (intersection_successors o n g (cfg :: post))
    with (match intersection_round o n g cfg with
          | (Some x, g') => x :: intersection_successors o n g' post
          | (None, g') => intersection_successors o n g' post
          end).
  assert (Hg : generated_after o n 0 (pre ++ [cfg])
               = snd (intersection_round o n g cfg)).
  { unfold generated_after. rewrite fold_left_app. reflexivity. }
  rewrite Hg. rewrite (intersection_round_two o n g cfg Hi).
  subst contribution r0 r1 id0 id1.
  destruct (point_known (points o) (fst results));
    [destruct (point_known (points o) (snd results))
    |destruct (point_known _ (snd results))]; reflexivity.
Qed.

Lemma two_point_intersection_successor_witness :
  generate_successors (initial_state Instances.two_circles)
  = [(with_point
        (with_point Instances.two_circles "p3"%string
                    (0.5, 0.8660254037844386)%float)
        "p4"%string (0.5, -0.8660254037844386)%float,
      intersection_step Instances.two_circles_config "p3"%string)]
    ++ line_successors Instances.two_circles
         (next_ids (initial_state Instances.two_circles))
    ++ circle_successors Instances.two_circles
         (next_ids (initial_state Instances.two_circles)).
Proof.
  exact (@two_point_intersection_successor float Num_float
           (initial_state Instances.two_circles) [] []
           Instances.two_circles_config
           (fst (intersect Instances.two_circles_config))
           eq_refl eq_refl).
Defined.

(** C8.  The claim fails on [solve] at the knowns [{'p\u00b2': (3, 4)}]
    with the target point [(3, 4)], a figure the initial state already
    holds: the tail of the key passes [str.isdigit], [int] rejects it,
    and [solve] raises [ValueError] at line 44, before the search
    starts, whatever the budget; it returns neither a path nor
    [(None, stats)]. *)
Theorem solve_raises_on_superscript_ordinal :
  figure_known Instances.superscript_key (Fpoint (3, 4)%float) = true
  /\ map (fun k => (isdigit (tail k), py_int (tail k)))
         (keys (points Instances.superscript_key)) = [(true, None)]
  /\ forall (max_steps : Z) (fuel : nat),
      solve Instances.superscript_key (Fpoint (3, 4)%float) max_steps fuel
      = Some (Raised ValueError).
Proof.
  split; [vm_compute; reflexivity|].
  split; [vm_compute; reflexivity|].
  intros max_steps fuel. apply solve_unseeded. vm_compute. reflexivity.
Qed.

(** C9.  [solve] is deterministic: every input has exactly one outcome
    (the path or its absence with [states_explored], or the exception
    raised), whatever arrangement the heap and the set [visited] keep
    their items in and however they rearrange them between two turns of
    the loop.  Every invocation ends, and ends in the outcome that
    [solve] computes.  What makes it so: dictionaries are enumerated in
    insertion order, [visited] is only tested for membership and
    measured, and the tie-breakers of the open nodes are pairwise
    distinct, so that the heap always has exactly one smallest item
    ([pops_unique]). *)
Theorem solve_deterministic
        (T : Type) (NT : Num T) (initial_objects : @objects_t T)
        (target : @figure T) (max_steps : Z) :
  exists o,
    invocation target max_steps initial_objects o
    /\ (forall o', invocation target max_steps initial_objects o' -> o' = o)
    /\ exists fuel, solve initial_objects target max_steps fuel = Some o.
Proof.
  destruct (solve_terminates initial_objects target max_steps) as [o Ho].
  exists o. split; [|split; [|eauto]].
  - unfold solve in Ho.
    destruct (initial_ids initial_objects) as [ids|] eqn:E.
    + eapply invocation_seeded; [exact E|apply same_contents_refl|].
      eapply runs_of_solve_loop; [apply start_engine_heap|exact Ho].
    + inversion Ho; subst. now apply invocation_unseeded.
  - intros o' H. unfold solve in Ho.
    inversion H as [E|ids e ? E Hs Hr]; subst.
    + rewrite E in Ho. congruence.
    + rewrite E in Ho. symmetry.
      eapply runs_unique;
        [|exact Hs|apply start_engine_distinct|exact Hr].
      eapply runs_of_solve_loop; [apply start_engine_heap|exact Ho].
Qed.
(* ================================================================== *)
(** * What a returned path is *)
(* ================================================================== *)

Section PathFacts.
Context {T : Type} {NT : Num T}.
Variable target : @figure T.
Variable max_steps : Z.
Variable s0 : @State T.
Implicit Types (e : @engine T) (x : @successor T) (s : @State T).

Lemma heappush_In (l : list (@SearchNode T)) (n m : @SearchNode T) :
  In m (heappush l n) -> m = n \/ In m l.
Proof.
  unfold heappush. induction l as [|a l IH]; simpl.
  - intros [<-|[]]. now left.
  - destruct (node_ltb n a); simpl.
    + intros [<-|[<-|H]]; auto.
    + intros [<-|H]; auto. destruct (IH H); auto.
Qed.

Lemma visit_constructed s g p e x e' :
  constructs s0 p s -> List.length p = g ->
  In x (generate_successors s) ->
  nodes_constructed s0 e ->
  visit target s g p e x = Continue e' -> nodes_constructed s0 e'.
Proof.
  intros Hc Hg Hin Hn. unfold visit. destruct x as [o' st].
  destruct (visited_mem _ _); [intros E; inversion E; subst; exact Hn|].
  destruct (_ <? _)%Z; [intros E; inversion E; subst; exact Hn|].
  destruct (lookup_figure o' (output_type st) (output_id st)) as [f|];
    [|discriminate].
  destruct (is_goal target f); [discriminate|].
  destruct (calculate_heuristic _ _) as [h|].
  - destruct (py_int (tail (output_id st))) as [m|] eqn:Em; [|discriminate].
    intros E. inversion E; subst e'; clear E.
    unfold nodes_constructed in *. cbn [open_list].
    apply Forall_forall. intros n Hn'.
    apply heappush_In in Hn'. destruct Hn' as [->|Hn'].
    + cbn [path state g_cost]. split.
      * pose proof (@constructs_snoc T NT s0 p s (o', st) Hc Hin) as H.
        unfold child_state in H. cbn [fst snd] in H.
        rewrite (py_int_ordinal _ Em) in H. exact H.
      * rewrite length_app. simpl. lia.
    + rewrite Forall_forall in Hn. now apply Hn.
  - intros E. inversion E; subst e'. exact Hn.
Qed.

Lemma visit_all_constructed s g p xs :
  constructs s0 p s -> List.length p = g ->
  (forall x, In x xs -> In x (generate_successors s)) ->
  forall e e',
    nodes_constructed s0 e ->
    visit_all target s g p e xs = Continue e' -> nodes_constructed s0 e'.
Proof.
  intros Hc Hg. induction xs as [|x xs IH]; simpl; intros Hsub e e' Hn H.
  - inversion H; subst. exact Hn.
  - destruct (visit target s g p e x) eqn:E; [|discriminate].
    eapply IH; [| |exact H].
    + intros y Hy. apply Hsub. now right.
    + eapply visit_constructed; eauto.
Qed.

(** What stops a visit: a successor whose output is a goal. *)
Lemma visit_goal s g p e x o :
  visit target s g p e x = Stop o ->
  o = Raised KeyError \/ o = Raised ValueError
  \/ exists f n,
      lookup_figure (fst x) (output_type (snd x)) (output_id (snd x)) = Some f
      /\ is_goal target f = true
      /\ o = Returned (Some (p ++ [snd x])) n.
Proof.
  unfold visit. destruct x as [o' st]. cbn [fst snd].
  destruct (visited_mem _ _); [discriminate|].
  destruct (_ <? _)%Z; [discriminate|].
  destruct (lookup_figure o' (output_type st) (output_id st)) as [f|];
    [|intros E; inversion E; auto].
  destruct (is_goal target f) eqn:Eg.
  - intros E. inversion E. right. right. eauto.
  - destruct (calculate_heuristic _ _); [|discriminate].
    destruct (py_int _); [discriminate|].
    intros E. inversion E. auto.
Qed.

Lemma visit_all_goal s g p xs :
  forall e o,
    visit_all target s g p e xs = Stop o ->
    o = Raised KeyError \/ o = Raised ValueError
    \/ exists x f n,
        In x xs
        /\ lookup_figure (fst x) (output_type (snd x)) (output_id (snd x))
           = Some f
        /\ is_goal target f = true
        /\ o = Returned (Some (p ++ [snd x])) n.
Proof.
  induction xs as [|x xs IH]; simpl; intros e o H.
  - discriminate.
  - destruct (visit target s g p e x) eqn:E.
    + destruct (IH _ _ H) as [H1|[H1|(y & f & n & Hy & H1)]]; auto.
      right. right. exists y, f, n. tauto.
    + inversion H; subst.
      apply visit_goal in E. destruct E as [H1|[H1|(f & n & H1)]]; auto.
      right. right. exists x, f, n. tauto.
Qed.

Lemma iteration_constructed e e' :
  nodes_constructed s0 e ->
  iteration target max_steps e = Continue e' -> nodes_constructed s0 e'.
Proof.
  unfold iteration, heappop. intros Hn.
  destruct (open_list e) as [|n rest] eqn:Eo; [discriminate|].
  unfold nodes_constructed in Hn. rewrite Eo in Hn.
  inversion Hn as [|? ? [Hc Hg] Hrest]; subst.
  destruct (max_steps <=? Z.of_nat (g_cost n))%Z.
  - intros E. inversion E; subst. exact Hrest.
  - destruct (generator_raises (state n)); [discriminate|].
    apply visit_all_constructed; auto.
Qed.

Lemma iteration_returns e p k :
  nodes_constructed s0 e ->
  iteration target max_steps e = Stop (Returned (Some p) k) ->
  returned_path_ok target max_steps s0 p.
Proof.
  unfold iteration, heappop. intros Hn.
  destruct (open_list e) as [|n rest] eqn:Eo; [discriminate|].
  unfold nodes_constructed in Hn. rewrite Eo in Hn.
  inversion Hn as [|? ? [Hc Hg] Hrest]; subst.
  destruct (max_steps <=? Z.of_nat (g_cost n))%Z eqn:Em; [discriminate|].
  destruct (generator_raises (state n)); [discriminate|].
  intros H. apply visit_all_goal in H.
  destruct H as [H|[H|(x & f & m & Hx & Hl & Hgoal & H)]];
    try discriminate.
  inversion H; subst. exists (path n), (state n), x, f.
  repeat split; auto.
  apply Z.leb_gt in Em. rewrite length_app. simpl. lia.
Qed.

Lemma solve_loop_returns fuel :
  forall e p k,
    nodes_constructed s0 e ->
    solve_loop target max_steps fuel e = Some (Returned (Some p) k) ->
    returned_path_ok target max_steps s0 p.
Proof.
  induction fuel as [|fuel IH]; simpl; intros e p k Hn H.
  - discriminate.
  - destruct (iteration target max_steps e) eqn:E.
    + eapply IH; [|exact H]. eapply iteration_constructed; eauto.
    + inversion H; subst. eapply iteration_returns; eauto.
Qed.
End PathFacts.
(* ================================================================== *)
(** * Shape of the steps, and states with no successor *)
(* ================================================================== *)

Section PairsFacts.
Variables A B : Type.

Lemma combinations2_In (l : list A) (a b : A) :
  In (a, b) (combinations2 l) -> In a l /\ In b l.
Proof.
  induction l as [|c l IH]; simpl; [tauto|].
  intros H. apply in_app_or in H. destruct H as [H|H].
  - apply in_map_iff in H. destruct H as (y & E & Hy).
    inversion E; subst. auto.
  - destruct (IH H). auto.
Qed.

Lemma product_In (l : list A) (r : list B) (a : A) (b : B) :
  In (a, b) (product l r) -> In a l /\ In b r.
Proof.
  unfold product. intros H. apply in_flat_map in H.
  destruct H as (c & Hc & H). apply in_map_iff in H.
  destruct H as (y & E & Hy). inversion E; subst. auto.
Qed.

Lemma permutations2_from_In (after before : list A) (a b : A) :
  In (a, b) (permutations2_from before after) ->
  In a after /\ In b (before ++ after).
Proof.
  revert before. induction after as [|c after IH]; simpl; intros before H.
  - destruct H.
  - apply in_app_or in H. destruct H as [H|H].
    + apply in_map_iff in H. destruct H as (y & E & Hy).
      inversion E; subst. split; [now left|].
      apply in_app_or in Hy. apply in_or_app.
      destruct Hy; [now left|right; now right].
    + apply IH in H. destruct H as [Ha Hb]. split; [now right|].
      rewrite <- app_assoc in Hb. exact Hb.
Qed.

Lemma permutations2_In (l : list A) (a b : A) :
  In (a, b) (permutations2 l) -> In a l /\ In b l.
Proof. intros H. now apply permutations2_from_In in H. Qed.
End PairsFacts.

Section StepFacts.
Context {T : Type} {NT : Num T}.
Implicit Types (o : @objects_t T) (s : @State T) (x : @successor T).

Lemma in_keys (V : Type) (d : dict V) (k : string) (v : V) :
  In (k, v) d -> In k (keys d).
Proof. intros H. unfold keys. now apply (in_map fst) in H. Qed.

Lemma intersection_configs_pool o cfg :
  In cfg (intersection_configs o) ->
  exists a b,
    item_ids cfg = [a; b]
    /\ In a (input_pool o Intersection)
    /\ In b (input_pool o Intersection).
Proof.
  unfold intersection_configs, input_pool. intros H.
  apply in_app_or in H. destruct H as [H|H];
    [|apply in_app_or in H; destruct H as [H|H]].
  - destruct (2 <=? _)%nat; [|destruct H].
    apply in_map_iff in H. destruct H as ([[a la] [b lb]] & <- & H).
    apply combinations2_In in H. destruct H as [Ha Hb].
    exists a, b. cbn [item_ids fst snd]. split; [reflexivity|].
    split; apply in_or_app; left; eapply in_keys; eauto.
  - destruct (_ && _); [|destruct H].
    apply in_map_iff in H. destruct H as ([[a la] [b cb]] & <- & H).
    apply product_In in H. destruct H as [Ha Hb].
    exists a, b. cbn [item_ids fst snd]. split; [reflexivity|].
    split; apply in_or_app; [left|right]; eapply in_keys; eauto.
  - destruct (2 <=? _)%nat; [|destruct H].
    apply in_map_iff in H. destruct H as ([[a ca] [b cb]] & <- & H).
    apply combinations2_In in H. destruct H as [Ha Hb].
    exists a, b. cbn [item_ids fst snd]. split; [reflexivity|].
    split; apply in_or_app; right; eapply in_keys; eauto.
Qed.

Lemma intersection_round_step o n g cfg x g' :
  intersection_round o n g cfg = (Some x, g') ->
  operation (snd x) = Intersection
  /\ inputs (snd x) = item_ids cfg
  /\ output_type (snd x) = point_t.
Proof.
  unfold intersection_round.
  destruct (intersect cfg) as [results count].
  destruct (count =? 0)%nat; [discriminate|].
  destruct (fold_left _ _ _) as [[o' ids] g1].
  destruct ids as [|id rest]; [discriminate|].
  intros E. inversion E; subst. auto.
Qed.

Lemma intersection_successors_step o n cfgs :
  forall g x,
    In x (intersection_successors o n g cfgs) ->
    exists cfg,
      In cfg cfgs
      /\ operation (snd x) = Intersection
      /\ inputs (snd x) = item_ids cfg
      /\ output_type (snd x) = point_t.
Proof.
  induction cfgs as [|cfg rest IH]; simpl; intros g x Hin.
  - destruct Hin.
  - destruct (intersection_round o n g cfg) as [[y|] g'] eqn:E.
    + destruct Hin as [<-|Hin].
      * exists cfg. split; [now left|].
        eapply intersection_round_step; eauto.
      * destruct (IH _ _ Hin) as (c & Hc & H). exists c. tauto.
    + destruct (IH _ _ Hin) as (c & Hc & H). exists c. tauto.
Qed.

(** With fewer than two points every successor is an intersection. *)
Lemma few_points_only_intersections s x :
  (List.length (points (objects s)) < 2)%nat ->
  In x (generate_successors s) -> output_type (snd x) = point_t.
Proof.
  intros Hp. unfold generate_successors. intros Hin.
  apply in_app_or in Hin. destruct Hin as [Hin|Hin].
  - apply intersection_successors_step in Hin.
    destruct Hin as (cfg & _ & _ & _ & Ht). exact Ht.
  - apply Nat.leb_gt in Hp.
    unfold line_successors, circle_successors in Hin.
    rewrite Hp in Hin. destruct Hin.
Qed.

Lemma stuck_no_config o : stuck o = true -> intersection_configs o = [].
Proof.
  unfold stuck, intersection_configs. intros H.
  apply andb_prop in H. destruct H as [_ H]. apply Nat.ltb_lt in H.
  destruct (lines o) as [|l1 [|l2 ls]], (circles o) as [|c1 [|c2 cs]];
    simpl in *; try reflexivity; lia.
Qed.

Lemma stuck_no_successor s :
  stuck (objects s) = true -> generate_successors s = [].
Proof.
  intros H. unfold generate_successors.
  rewrite (stuck_no_config _ H). cbn [intersection_successors app].
  unfold stuck in H. apply andb_prop in H. destruct H as [H _].
  apply Nat.ltb_lt in H. apply Nat.leb_gt in H.
  unfold line_successors, circle_successors. now rewrite H.
Qed.

Lemma heuristic_five_stuck o :
  calculate_heuristic o "point" = Finite 5 <-> stuck o = true.
Proof.
  unfold calculate_heuristic, stuck. cbn [String.eqb Ascii.eqb].
  simpl String.eqb.
  destruct (points o) as [|p1 [|p2 [|p3 [|p4 ps]]]],
           (lines o) as [|l1 [|l2 ls]],
           (circles o) as [|c1 [|c2 cs]];
    simpl; split; intros H; try reflexivity; try discriminate.
Qed.

Lemma lookup_figure_type o t id f :
  lookup_figure o t id = Some f -> figure_type f = t.
Proof.
  destruct t; simpl;
    match goal with |- option_map _ ?d = _ -> _ => destruct d end;
    simpl; intros E; inversion E; reflexivity.
Qed.

Lemma is_goal_type (target f : @figure T) :
  is_goal target f = true -> figure_type f = figure_type target.
Proof. destruct target, f; simpl; intros H; try discriminate; reflexivity. Qed.
End StepFacts.
(* ================================================================== *)
(** * When the successor generator raises *)
(* ================================================================== *)

Section GeneratorRaises.
Context {T : Type} {NT : Num T}.

Lemma fold_add_result_generated (results : @buffer T) next idxs :
  forall o ids g o' ids' g',
    fold_left (add_result results next) idxs (o, ids, g) = (o', ids', g') ->
    (g' + N.of_nat (List.length ids) = g + N.of_nat (List.length ids'))%N
    /\ List.length ids <= List.length ids'.
Proof.
  induction idxs as [|i idxs IH]; cbn [fold_left];
    intros o ids g o' ids' g' H.
  - inversion H; subst. split; lia.
  - remember (add_result results next (o, ids, g) i) as acc eqn:Ea.
    unfold add_result in Ea.
    destruct (_add_object o (next + g) (Fpoint (buffer_get results i)))
      as [o1 [id|]]; subst acc.
    + apply IH in H. rewrite length_app in H. cbn [List.length] in H. lia.
    + now apply IH in H.
Qed.

Lemma intersection_round_none o next g cfg g' :
  intersection_round o next g cfg = (None, g') -> g' = g.
Proof.
  unfold intersection_round. destruct (intersect cfg) as [results count].
  destruct (count =? 0)%nat; [congruence|].
  destruct (fold_left _ _ _) as [[o1 ids] g1] eqn:E.
  apply fold_add_result_generated in E.
  destruct ids as [|id ids]; [|discriminate].
  intros H. inversion H; subst. cbn [List.length] in E. lia.
Qed.

Lemma no_intersection_no_point o next cfgs :
  forall g,
    intersection_successors o next g cfgs = [] ->
    fold_left (fun g cfg => snd (intersection_round o next g cfg)) cfgs g
    = g.
Proof.
  induction cfgs as [|cfg cfgs IH]; simpl; intros g H.
  - reflexivity.
  - destruct (intersection_round o next g cfg) as [[x|] g'] eqn:E;
      [discriminate|].
    cbn [snd]. rewrite (intersection_round_none _ _ _ _ E) in *.
    now apply IH.
Qed.

(** A state without successor formats no id: the generator raises
    nothing on it. *)
Lemma no_successor_no_raise (s : @State T) :
  generate_successors s = [] -> generator_raises s = false.
Proof.
  unfold generate_successors, generator_raises, points_generated.
  intros H. apply app_eq_nil in H. destruct H as [Hi H].
  apply app_eq_nil in H. destruct H as [Hl Hc].
  rewrite (no_intersection_no_point _ _ _ _ Hi), Hl, Hc. reflexivity.
Qed.
End GeneratorRaises.
(* ================================================================== *)
(** * Every open node carries its [g + h] *)
(* ================================================================== *)

Section PriorityFacts.
Context {T : Type} {NT : Num T}.
Variable target : @figure T.
Variable max_steps : Z.
Implicit Types (n m : @SearchNode T) (e : @engine T).

Lemma visit_priorities s g p e x e' :
  g = List.length p ->
  priorities_kept target e ->
  visit target s g p e x = Continue e' -> priorities_kept target e'.
Proof.
  unfold visit, priorities_kept. destruct x as [o' st]. intros Hg Hk.
  destruct (visited_mem _ _); [intros E; inversion E; subst; auto|].
  destruct (_ <? _)%Z; [intros E; inversion E; subst; auto|].
  destruct (lookup_figure o' (output_type st) (output_id st)) as [f|];
    [|discriminate].
  destruct (is_goal target f); [discriminate|].
  destruct (calculate_heuristic _ _) as [h|] eqn:Eh.
  - destruct (py_int (tail (output_id st))) as [k|]; [|discriminate].
    intros E. inversion E; subst; clear E. cbn [open_list].
    apply heappush_Forall; [|exact Hk].
    unfold f_cost. cbn [priority g_cost state objects path].
    unfold target_type in Eh. rewrite Eh. cbn [cost_add].
    rewrite length_app. cbn [List.length]. split; [reflexivity|lia].
  - intros E. inversion E; subst; clear E. exact Hk.
Qed.

Lemma visit_all_priorities s g p xs :
  forall e e',
    g = List.length p ->
    priorities_kept target e ->
    visit_all target s g p e xs = Continue e' -> priorities_kept target e'.
Proof.
  induction xs as [|x xs IH]; simpl; intros e e' Hg Hk H.
  - inversion H; subst. exact Hk.
  - destruct (visit target s g p e x) eqn:E; [|discriminate].
    eapply IH; [exact Hg| |exact H]. eapply visit_priorities; eauto.
Qed.

Lemma iteration_priorities e e' :
  priorities_kept target e ->
  iteration target max_steps e = Continue e' -> priorities_kept target e'.
Proof.
  unfold iteration, heappop, priorities_kept. intros Hk.
  destruct (open_list e) as [|n rest] eqn:Eo; [discriminate|].
  inversion Hk as [|? ? [_ Hn] Hrest]; subst.
  destruct (max_steps <=? Z.of_nat (g_cost n))%Z.
  - intros E. inversion E; subst. exact Hrest.
  - destruct (generator_raises (state n)); [discriminate|].
    apply visit_all_priorities; [exact Hn|exact Hrest].
Qed.

Lemma start_engine_priorities (s0 : @State T) :
  priorities_kept target (start_engine target s0).
Proof.
  unfold priorities_kept.
  cbn [start_engine open_list heappush insert_sorted].
  repeat constructor.
Qed.

Lemma engine_after_priorities k :
  forall e0 e,
    priorities_kept target e0 ->
    engine_after target max_steps k e0 = Some e ->
    priorities_kept target e.
Proof.
  induction k as [|k IH]; simpl; intros e0 e H0 Hr.
  - inversion Hr; subst. exact H0.
  - destruct (iteration target max_steps e0) eqn:E; [|discriminate].
    eapply IH; [|exact Hr]. eapply iteration_priorities; eauto.
Qed.
End PriorityFacts.
(* ================================================================== *)
(** * Further properties of the search *)
(* ================================================================== *)

(** X1.  A path returned by [solve] is a construction: its steps are,
    one after the other, steps of successors of the state reached so
    far, starting from the initial state with its seeded counters, and
    the figure its last step outputs passes the goal test (its type is
    the target's and its canonical form equals the target's). *)
Theorem solve_path_is_a_construction
        (T : Type) (NT : Num T) (initial_objects : @objects_t T)
        (target : @figure T) (max_steps : Z) (fuel : nat)
        (p : list step) (k : nat) :
  solve initial_objects target max_steps fuel = Some (Returned (Some p) k) ->
  exists p1 s1 (x : @successor T) f,
    p = p1 ++ [snd x]
    /\ constructs (initial_state initial_objects) p1 s1
    /\ In x (generate_successors s1)
    /\ lookup_figure (fst x) (output_type (snd x)) (output_id (snd x)) = Some f
    /\ figure_type f = figure_type target
    /\ is_goal target f = true.
Proof.
  intros H.
  destruct (initial_ids initial_objects) as [ids|] eqn:Ei;
    [|rewrite (@solve_unseeded _ _ _ target max_steps fuel Ei) in H; discriminate].
  rewrite (@solve_seeded _ _ _ target max_steps fuel _ Ei) in H.
  apply solve_loop_returns with (s0 := initial_state initial_objects) in H.
  - destruct H as (p1 & s1 & x & f & Hp & Hc & Hx & Hl & Hg & _).
    exists p1, s1, x, f. repeat split; auto. now apply is_goal_type.
  - unfold nodes_constructed, initial_engine, start_engine.
    cbn [open_list heappush insert_sorted].
    repeat constructor.
Qed.

Lemma solve_path_is_a_construction_witness :
  exists p1 s1 (x : @successor float) f,
    [ {| operation := Circle; inputs := ["p1"; "p2"]%string;
         output_type := circle_t; output_id := "c1"%string |};
      {| operation := Intersection; inputs := ["l1"; "c1"]%string;
         output_type := point_t; output_id := "p3"%string |} ]
    = p1 ++ [snd x]
    /\ constructs (initial_state Instances.two_points_and_line) p1 s1
    /\ In x (generate_successors s1)
    /\ lookup_figure (fst x) (output_type (snd x)) (output_id (snd x)) = Some f
    /\ figure_type f = figure_type (Fpoint (-1, 0)%float)
    /\ is_goal (Fpoint (-1, 0)%float) f = true.
Proof.
  apply (@solve_path_is_a_construction float Num_float
           Instances.two_points_and_line (Fpoint (-1, 0)%float) 20 3 _ 4).
  vm_compute. reflexivity.
Defined.

(** X2.  A path returned by [solve] has at most [max_steps] steps. *)
Theorem solve_path_within_budget
        (T : Type) (NT : Num T) (initial_objects : @objects_t T)
        (target : @figure T) (max_steps : Z) (fuel : nat)
        (p : list step) (k : nat) :
  solve initial_objects target max_steps fuel = Some (Returned (Some p) k) ->
  (Z.of_nat (List.length p) <= max_steps)%Z.
Proof.
  intros H.
  destruct (initial_ids initial_objects) as [ids|] eqn:Ei;
    [|rewrite (@solve_unseeded _ _ _ target max_steps fuel Ei) in H; discriminate].
  rewrite (@solve_seeded _ _ _ target max_steps fuel _ Ei) in H.
  apply solve_loop_returns with (s0 := initial_state initial_objects) in H.
  - destruct H as (p1 & s1 & x & f & _ & _ & _ & _ & _ & Hb). exact Hb.
  - unfold nodes_constructed, initial_engine, start_engine.
    cbn [open_list heappush insert_sorted].
    repeat constructor.
Qed.

Lemma solve_path_within_budget_witness :
  (Z.of_nat
     (List.length
        [ {| operation := Circle; inputs := ["p1"; "p2"]%string;
             output_type := circle_t; output_id := "c1"%string |};
          {| operation := Intersection; inputs := ["l1"; "c1"]%string;
             output_type := point_t; output_id := "p3"%string |} ]) <= 2)%Z.
Proof.
  apply (@solve_path_within_budget float Num_float
           Instances.two_points_and_line (Fpoint (-1, 0)%float) 2 3 _ 4).
  vm_compute. reflexivity.
Defined.

(** X3.  For a line or a circle as target the heuristic never
    overestimates: whenever a construction from a state [s] ends in a
    step that outputs a line (a circle), the value
    [calculate_heuristic] gives [s] for that type is at most the number
    of steps of the construction.  (The value is 1 when [s] has two
    points, and 2 otherwise, when the first step can only be an
    intersection.) *)
Theorem heuristic_admissible_for_lines_and_circles
        (T : Type) (NT : Num T) (s s1 : @State T) (p1 : list step)
        (x : @successor T) (t : obj_type) (h : nat) :
  t <> point_t ->
  constructs s p1 s1 ->
  In x (generate_successors s1) ->
  output_type (snd x) = t ->
  calculate_heuristic (objects s) (type_name t) = Finite h ->
  h <= List.length (p1 ++ [snd x]).
Proof.
  intros Ht Hc Hx Hout Hh.
  rewrite length_app. cbn [List.length].
  assert (Hcases : h = 1 \/ (h = 2 /\ List.length (points (objects s)) < 2)).
  { revert Hh. unfold calculate_heuristic.
    destruct t; [exfalso; apply Ht; reflexivity| |];
      cbn [type_name]; simpl String.eqb;
      destruct (2 <=? List.length (points (objects s)))%nat eqn:E;
      intros Hh; inversion Hh; auto; right; split; auto;
      now apply Nat.leb_gt in E. }
  destruct Hcases as [->|[-> Hp]]; [lia|].
  destruct p1 as [|st p1]; [|cbn [List.length]; lia].
  exfalso. inversion Hc as [E|q s2 y Hq Hy E]; subst.
  - apply few_points_only_intersections in Hx; [|exact Hp]. congruence.
  - destruct q; discriminate.
Qed.

Lemma heuristic_admissible_for_lines_and_circles_witness :
  1 <= List.length
         (([] : list step)
            ++ [ {| operation := Line; inputs := ["p1"; "p2"]%string;
                    output_type := line_t; output_id := "l1"%string |} ]).
Proof.
  apply (@heuristic_admissible_for_lines_and_circles float Num_float
           (initial_state Instances.target_given)
           (initial_state Instances.target_given) []
           ({| points := points Instances.target_given;
               lines := [("l1"%string,
                          construct_line_from_points (3, 4)%float (0, 0)%float)];
               circles := [] |},
            {| operation := Line; inputs := ["p1"; "p2"]%string;
               output_type := line_t; output_id := "l1"%string |})
           line_t 1).
  - discriminate.
  - constructor.
  - vm_compute. left. reflexivity.
  - reflexivity.
  - vm_compute. reflexivity.
Defined.

(** X4.  The heuristic value 5 marks a dead end: when
    [calculate_heuristic] returns 5 for a point target (fewer than two
    points and no two figures to intersect), the successor generator
    returns no successor, whatever the counters. *)
Theorem heuristic_five_is_dead_end
        (T : Type) (NT : Num T) (s : @State T) :
  calculate_heuristic (objects s) "point" = Finite 5 ->
  generate_successors s = [].
Proof.
  intros H. apply stuck_no_successor. now apply heuristic_five_stuck.
Qed.

Lemma heuristic_five_is_dead_end_witness :
  generate_successors
    (initial_state
       {| points := [("p1"%string, (0, 0)%float)];
          lines := ([] : dict (@line float));
          circles := ([] : dict (@circle float)) |}) = [].
Proof.
  apply heuristic_five_is_dead_end. vm_compute. reflexivity.
Defined.

(** X5.  When the initial state has no successor, or the budget
    [max_steps] is zero or negative, [solve] makes no search: it raises
    [ValueError] when the seeding of the counters does, and otherwise
    returns [(None, {"states_explored": 1})], for every target and
    after at most two turns of its loop. *)
Theorem solve_without_successor
        (T : Type) (NT : Num T) (initial_objects : @objects_t T)
        (target : @figure T) (max_steps : Z) (fuel : nat) :
  generate_successors (initial_state initial_objects) = []
  \/ (max_steps <= 0)%Z ->
  2 <= fuel ->
  solve initial_objects target max_steps fuel
  = Some (match initial_ids initial_objects with
          | Some _ => Returned None 1
          | None => Raised ValueError
          end).
Proof.
  intros Hs Hf.
  destruct (initial_ids initial_objects) as [ids|] eqn:Ei;
    [|now apply solve_unseeded].
  rewrite (@solve_seeded _ _ _ target max_steps fuel _ Ei).
  apply solve_loop_more_fuel with (fuel := 2); [|exact Hf].
  cbn [solve_loop]. unfold iteration at 1.
  cbn [initial_engine start_engine open_list heappush insert_sorted heappop
       g_cost state path visited tie_breaker_counter].
  destruct (max_steps <=? Z.of_nat 0)%Z eqn:E; [reflexivity|].
  destruct Hs as [Hs|Hs]; [|apply Z.leb_gt in E; simpl in E; lia].
  rewrite (no_successor_no_raise _ Hs), Hs. reflexivity.
Qed.

Lemma solve_without_successor_witness :
  solve {| points := [("p1"%string, (0, 0)%float)];
           lines := ([] : dict (@line float));
           circles := ([] : dict (@circle float)) |}
        (Fline (1, 0, -1)%float) 20 2
  = Some (Returned None 1).
Proof.
  apply (@solve_without_successor float Num_float
           {| points := [("p1"%string, (0, 0)%float)];
              lines := ([] : dict (@line float));
              circles := ([] : dict (@circle float)) |}
           (Fline (1, 0, -1)%float) 20 2);
    [left; vm_compute; reflexivity|apply le_n].
Defined.

(** X6.  Every step the successor generator emits has exactly two
    inputs, both ids of figures of the state it extends (two lines
    or circles for an intersection, two points for a line or a
    circle), and its output type is the one of its operation. *)
Theorem step_inputs_exist
        (T : Type) (NT : Num T) (s : @State T) (x : @successor T) :
  In x (generate_successors s) ->
  output_type (snd x) = operation_output (operation (snd x))
  /\ exists a b,
      inputs (snd x) = [a; b]
      /\ In a (input_pool (objects s) (operation (snd x)))
      /\ In b (input_pool (objects s) (operation (snd x))).
Proof.
  unfold generate_successors. intros Hin.
  apply in_app_or in Hin. destruct Hin as [Hin|Hin].
  - apply intersection_successors_step in Hin.
    destruct Hin as (cfg & Hc & Hop & Hi & Ht).
    rewrite Hop, Ht, Hi. split; [reflexivity|].
    now apply intersection_configs_pool.
  - apply in_app_or in Hin. destruct Hin as [Hin|Hin].
    + unfold line_successors in Hin.
      destruct (2 <=? List.length (points (objects s)))%nat; [|destruct Hin].
      apply in_flat_map in Hin.
      destruct Hin as [[[p1_id p1] [p2_id p2]] [Hp Hin]].
      destruct (_add_object _ _ _) as [o' [id|]]; [|destruct Hin].
      destruct Hin as [<-|[]]. cbn [snd operation inputs output_type].
      split; [reflexivity|]. exists p1_id, p2_id.
      apply combinations2_In in Hp. destruct Hp as [H1 H2].
      split; [reflexivity|]. split; eapply in_keys; eauto.
    + unfold circle_successors in Hin.
      destruct (2 <=? List.length (points (objects s)))%nat; [|destruct Hin].
      apply in_flat_map in Hin.
      destruct Hin as [[[p1_id p1] [p2_id p2]] [Hp Hin]].
      destruct (_add_object _ _ _) as [o' [id|]]; [|destruct Hin].
      destruct Hin as [<-|[]]. cbn [snd operation inputs output_type].
      split; [reflexivity|]. exists p1_id, p2_id.
      apply permutations2_In in Hp. destruct Hp as [H1 H2].
      split; [reflexivity|]. split; eapply in_keys; eauto.
Qed.

Lemma step_inputs_exist_witness :
  let x := (with_point
              (with_point Instances.two_circles "p3"%string
                          (0.5, 0.8660254037844386)%float)
              "p4"%string (0.5, -0.8660254037844386)%float,
            intersection_step Instances.two_circles_config "p3"%string) in
  output_type (snd x) = operation_output (operation (snd x))
  /\ exists a b,
      inputs (snd x) = [a; b]
      /\ In a (input_pool (objects (initial_state Instances.two_circles))
                          (operation (snd x)))
      /\ In b (input_pool (objects (initial_state Instances.two_circles))
                          (operation (snd x))).
Proof.
  apply (@step_inputs_exist float Num_float
           (initial_state Instances.two_circles)).
  vm_compute. left. reflexivity.
Defined.

(** X7.  When the counters of a state are above every ordinal in use,
    each successor extends the state: every (id, figure) pair of the
    state is a pair of the successor, the sub-mappings of the two types
    other than the step's output type are unchanged, and the figure the
    step outputs is one whose canonical form the state did not hold. *)
Theorem successor_extends_state
        (T : Type) (NT : Num T) (s : @State T) (x : @successor T) :
  counters_above s = true ->
  In x (generate_successors s) ->
  keeps (objects s) (fst x)
  /\ same_elsewhere (output_type (snd x)) (objects s) (fst x)
  /\ exists f,
      lookup_figure (fst x) (output_type (snd x)) (output_id (snd x)) = Some f
      /\ figure_known (objects s) f = false.
Proof.
  intros Hc Hin. split; [|split].
  - intros t k f. now apply successors_keep_figures.
  - now apply successor_adds_new_figure.
  - destruct (successor_adds_new_figure _ _ Hin) as (_ & f & Hl & _ & Hk).
    eauto.
Qed.

Lemma successor_extends_state_witness :
  let x := (with_point
              (with_point Instances.two_circles "p3"%string
                          (0.5, 0.8660254037844386)%float)
              "p4"%string (0.5, -0.8660254037844386)%float,
            intersection_step Instances.two_circles_config "p3"%string) in
  keeps (objects (initial_state Instances.two_circles)) (fst x)
  /\ same_elsewhere (output_type (snd x))
                    (objects (initial_state Instances.two_circles)) (fst x)
  /\ exists f,
      lookup_figure (fst x) (output_type (snd x)) (output_id (snd x)) = Some f
      /\ figure_known (objects (initial_state Instances.two_circles)) f = false.
Proof.
  apply (@successor_extends_state float Num_float
           (initial_state Instances.two_circles)).
  - vm_compute. reflexivity.
  - vm_compute. left. reflexivity.
Defined.

(** X8.  Seeding of the counters.  When it raises nothing, the
    state [solve] starts from is [initial_state]: each counter is one
    more than the largest number read off the keys of its type (1 when
    no key has a tail of digits), and every counter is above every
    ordinal in use.  It raises [ValueError] exactly when some key has a
    tail that passes [str.isdigit] and that [int] rejects. *)
Theorem seeded_counters_are_fresh
        (T : Type) (initial_objects : @objects_t T) :
  (forall ids,
      initial_ids initial_objects = Some ids ->
      {| objects := initial_objects; next_ids := ids |}
      = initial_state initial_objects
      /\ counters_above {| objects := initial_objects; next_ids := ids |}
         = true)
  /\ (initial_ids initial_objects = None
      <-> exists k,
          In k (keys (points initial_objects)
                ++ keys (lines initial_objects)
                ++ keys (circles initial_objects))
          /\ isdigit (tail k) = true /\ py_int (tail k) = None)
  /\ (forall ks, (forall k, In k ks -> isdigit (tail k) = false) ->
                 seed_counter ks = Some 1%N).
Proof.
  split; [|split].
  - intros ids H. rewrite (initial_ids_state _ H).
    split; [reflexivity|apply initial_state_counters_above].
  - unfold initial_ids. split.
    + intros H.
      destruct (seed_counter (keys (points initial_objects))) as [p|] eqn:Ep.
      * destruct (seed_counter (keys (lines initial_objects))) as [l|] eqn:El.
        -- destruct (seed_counter (keys (circles initial_objects)))
             as [c|] eqn:Ec; [discriminate|].
           apply seed_counter_raises in Ec. destruct Ec as (k & Hk & Hd).
           exists k. split; [|exact Hd].
           apply in_or_app. right. apply in_or_app. now right.
        -- apply seed_counter_raises in El. destruct El as (k & Hk & Hd).
           exists k. split; [|exact Hd].
           apply in_or_app. right. apply in_or_app. now left.
      * apply seed_counter_raises in Ep. destruct Ep as (k & Hk & Hd).
        exists k. split; [|exact Hd]. apply in_or_app. now left.
    + intros (k & Hk & Hd).
      apply in_app_or in Hk. destruct Hk as [Hk|Hk].
      * rewrite (proj2 (seed_counter_raises _)); [reflexivity|eauto].
      * destruct (seed_counter (keys (points initial_objects)));
          [|reflexivity].
        apply in_app_or in Hk. destruct Hk as [Hk|Hk].
        -- rewrite (proj2 (seed_counter_raises _)); [reflexivity|eauto].
        -- destruct (seed_counter (keys (lines initial_objects)));
             [|reflexivity].
           rewrite (proj2 (seed_counter_raises _)); [reflexivity|eauto].
  - intros ks H. unfold seed_counter.
    assert (E : seed_numbers ks = Some []).
    { induction ks as [|k ks IH]; [reflexivity|]. simpl.
      rewrite (H k (or_introl eq_refl)). apply IH.
      intros k' Hk'. apply H. now right. }
    rewrite E. reflexivity.
Qed.

(** X9.  Best-first order: at every turn of the loop the node that is
    expanded carries as priority its [g + h] (its cost, which is the
    length of its path, plus the heuristic value of its state), and
    that [g + h] is the least of the open list; among the nodes of
    that value it has the oldest tie-breaker. *)
Theorem expansion_is_best_first
        (T : Type) (NT : Num T) (initial_objects : @objects_t T)
        (target : @figure T) (max_steps : Z) (turns : nat)
        (e : @engine T) (n : @SearchNode T) (rest : list (@SearchNode T)) :
  engine_after target max_steps turns (initial_engine target initial_objects)
  = Some e ->
  heappop (open_list e) = Some (n, rest) ->
  priority n = f_cost target n
  /\ g_cost n = List.length (path n)
  /\ forall m, In m rest ->
       cost_ltb (f_cost target n) (f_cost target m) = true
       \/ (f_cost target n = f_cost target m
           /\ tie_breaker n < tie_breaker m).
Proof.
  intros He Hp.
  pose proof (@engine_after_priorities _ _ target max_steps turns _ _
                (@start_engine_priorities _ _ target
                   (initial_state initial_objects))
                He) as Hk.
  pose proof (popped_node_is_least _ _ _ _ He Hp) as H.
  unfold heappop in Hp. unfold priorities_kept in Hk.
  destruct (open_list e) as [|n0 rest0]; [discriminate|].
  inversion Hp; subst; clear Hp.
  inversion Hk as [|? ? [Hn Hg] Hrest]; subst.
  split; [exact Hn|]. split; [exact Hg|].
  intros m Hm. rewrite Forall_forall in H, Hrest.
  specialize (H m Hm). destruct (Hrest m Hm) as [Hpm _].
  rewrite <- Hn, <- Hpm.
  unfold node_ltb in H. apply orb_true_iff in H. destruct H as [H|H]; [now left|].
  apply andb_true_iff in H. destruct H as [H1 H2]. right.
  apply cost_eqb_eq in H1. apply Nat.ltb_lt in H2. auto.
Qed.

Lemma expansion_is_best_first_witness :
  exists e n rest,
    engine_after Instances.far_line 20 1
                 (initial_engine Instances.far_line
                                 Instances.two_points_line_circles) = Some e
    /\ heappop (open_list e) = Some (n, rest)
    /\ rest <> []
    /\ priority n = f_cost Instances.far_line n
    /\ g_cost n = List.length (path n)
    /\ Forall (fun m =>
                 cost_ltb (f_cost Instances.far_line n)
                          (f_cost Instances.far_line m) = true
                 \/ (f_cost Instances.far_line n = f_cost Instances.far_line m
                     /\ tie_breaker n < tie_breaker m)) rest.
Proof.
  destruct (engine_after Instances.far_line 20 1
              (initial_engine Instances.far_line
                              Instances.two_points_line_circles))
    as [e|] eqn:He; [|vm_compute in He; discriminate].
  pose proof He as He'. vm_compute in He'. injection He' as He'.
  destruct (heappop (open_list e)) as [[n rest]|] eqn:Hp;
    [|rewrite <- He' in Hp; vm_compute in Hp; discriminate].
  exists e, n, rest. split; [reflexivity|]. split; [exact Hp|]. split.
  - intros ->. rewrite <- He' in Hp. vm_compute in Hp. discriminate.
  - destruct (@expansion_is_best_first float Num_float
                Instances.two_points_line_circles Instances.far_line 20 1
                e n rest He Hp) as (H1 & H2 & H3).
    split; [exact H1|]. split; [exact H2|].
    apply Forall_forall. exact H3.
Defined.
(* ================================================================== *)
(** * The kernel in exact arithmetic: results lie on the figures *)
(* ================================================================== *)

Section ExactIncidence.
Local Open Scope R_scope.

Lemma line_circle_two_exact (l : @line R) (c : @circle R) q1 q2 :
  intersect_line_circle l c = ((q1, q2), 2%nat) ->
  let '(A, B, _) := l in
  let '(_, _, r_sq) := c in
  1 / 1000000000 <= A * A + B * B
  /\ (dist_sq l c <= r_sq - 1 / 1000000000
      \/ dist_sq l c = r_sq + 1 / 1000000000)
  /\ q1 = (x_closest l c + (sqrt (r_sq - dist_sq l c) * - B)
                           / sqrt (A * A + B * B),
           y_closest l c + (sqrt (r_sq - dist_sq l c) * A)
                           / sqrt (A * A + B * B))
  /\ q2 = (x_closest l c - (sqrt (r_sq - dist_sq l c) * - B)
                           / sqrt (A * A + B * B),
           y_closest l c - (sqrt (r_sq - dist_sq l c) * A)
                           / sqrt (A * A + B * B)).
Proof.
  destruct l as [[A B] C], c as [[cx cy] r_sq]. intros H.
  destruct (Exact.Rltb (A * A + B * B) (1 / 1000000000)) eqn:Ed.
  - unfold intersect_line_circle in H. num_ops. rewrite Ed in H.
    discriminate.
  - pose proof (intersect_line_circle_branches (A, B, C) (cx, cy, r_sq)) as Hb.
    cbv beta iota in Hb. num_ops. rewrite (Hb Ed) in H. clear Hb.
    destruct (Exact.Rltb (r_sq + 1 / 1000000000)
                         (dist_sq (A, B, C) (cx, cy, r_sq))) eqn:E1;
      [discriminate|].
    destruct (Exact.Rltb (Rabs (dist_sq (A, B, C) (cx, cy, r_sq) - r_sq))
                         (1 / 1000000000)) eqn:E2; [discriminate|].
    cbv zeta in H. rltb_props.
    split; [lra|]. split; [|split; congruence].
    clear H. set (d := dist_sq (A, B, C) (cx, cy, r_sq)) in *.
    clearbody d. revert E2. unfold Rabs. destruct (Rcase_abs _); intros;
      [left|right; apply Rle_antisym]; lra.
Qed.

Lemma chord_points_exact (A B C cx cy r_sq : R) :
  let l := (A, B, C) in
  let c := (cx, cy, r_sq) in
  let h := sqrt (r_sq - dist_sq l c) in
  let n := sqrt (A * A + B * B) in
  0 < A * A + B * B ->
  dist_sq l c <= r_sq ->
  forall s, (s = 1 \/ s = -1) ->
    let q := (x_closest l c + s * ((h * - B) / n),
              y_closest l c + s * ((h * A) / n)) in
    on_line l q /\ on_circle c q.
Proof.
  intros l c h n Hd Hr s Hs q.
  assert (Hd0 : A * A + B * B <> 0) by lra.
  destruct (@closest_is_foot_exact A B C cx cy r_sq Hd0) as [Hon Hperp].
  fold l c in Hon, Hperp.
  assert (Hn : n * n = A * A + B * B) by (apply sqrt_sqrt; lra).
  assert (Hn0 : n <> 0) by (intros E; rewrite E in Hn; lra).
  assert (Hh : h * h = r_sq - dist_sq l c) by (apply sqrt_sqrt; lra).
  assert (Hs2 : s * s = 1) by (destruct Hs; subst; ring).
  set (xc := x_closest l c) in *. set (yc := y_closest l c) in *.
  assert (Hdist : dist_sq l c = (xc - cx) * (xc - cx) + (yc - cy) * (yc - cy)).
  { unfold dist_sq, l, c, xc, yc. num_ops. reflexivity. }
  unfold on_line, on_circle, l, c, q in *. cbn [fst snd] in *.
  split.
  - replace (A * (xc + s * (h * - B / n)) + B * (yc + s * (h * A / n)) + C)
      with (A * xc + B * yc + C) by (field; exact Hn0).
    exact Hon.
  - replace ((xc + s * (h * - B / n) - cx) * (xc + s * (h * - B / n) - cx)
             + (yc + s * (h * A / n) - cy) * (yc + s * (h * A / n) - cy))
      with ((xc - cx) * (xc - cx) + (yc - cy) * (yc - cy)
            + (s * s) * (h * h) * (A * A + B * B) / (n * n)
            - 2 * s * h * ((xc - cx) * B - (yc - cy) * A) / n)
      by (field; exact Hn0).
    rewrite Hperp, Hs2, Hh, Hn, Hdist. field. lra.
Qed.

Lemma line_circle_incidence_exact
        (A B C cx cy r_sq : R) (q1 q2 : @point R) :
  intersect_line_circle (A, B, C) (cx, cy, r_sq) = ((q1, q2), 2%nat) ->
  dist_sq (A, B, C) (cx, cy, r_sq) <> (r_sq + 1 / 1000000000)%R ->
  on_line (A, B, C) q1 /\ on_circle (cx, cy, r_sq) q1
  /\ on_line (A, B, C) q2 /\ on_circle (cx, cy, r_sq) q2
  /\ q1 <> q2.
Proof.
  intros H Hgap.
  pose proof (line_circle_two_exact _ _ H) as Hr. cbv beta iota in Hr.
  destruct Hr as (Hd & [Hin|Hin] & H1 & H2); [|contradiction].
  assert (Hd' : (0 < A * A + B * B)%R) by lra.
  assert (Hr' : (dist_sq (A, B, C) (cx, cy, r_sq) <= r_sq)%R) by lra.
  pose proof (@chord_points_exact A B C cx cy r_sq Hd' Hr') as Hc.
  cbv zeta in Hc.
  pose proof (Hc 1%R (or_introl eq_refl)) as [Ha Hb].
  pose proof (Hc (-1)%R (or_intror eq_refl)) as [Ha' Hb'].
  set (h := sqrt (r_sq - dist_sq (A, B, C) (cx, cy, r_sq))) in *.
  set (n := sqrt (A * A + B * B)) in *.
  set (xc := x_closest (A, B, C) (cx, cy, r_sq)) in *.
  set (yc := y_closest (A, B, C) (cx, cy, r_sq)) in *.
  assert (Hn : (n * n = A * A + B * B)%R) by (apply sqrt_sqrt; lra).
  assert (Hn0 : n <> 0%R) by (intros E; rewrite E in Hn; lra).
  assert (Hh : (h * h = r_sq - dist_sq (A, B, C) (cx, cy, r_sq))%R)
    by (apply sqrt_sqrt; lra).
  assert (E1 : q1 = (xc + 1 * (h * - B / n), yc + 1 * (h * A / n))%R).
  { rewrite H1. f_equal; ring. }
  assert (E2 : q2 = (xc + -1 * (h * - B / n), yc + -1 * (h * A / n))%R).
  { rewrite H2. f_equal; ring. }
  rewrite E1, E2. repeat split; try assumption.
  intros E. inversion E as [[Ex Ey]].
  assert (Hx : (h * - B / n = 0)%R) by lra.
  assert (Hy : (h * A / n = 0)%R) by lra.
  assert (Hs : ((h * - B / n) * (h * - B / n) + (h * A / n) * (h * A / n)
                = (h * h) * (A * A + B * B) / (n * n))%R)
    by (field; exact Hn0).
  rewrite Hx, Hy, Hh, Hn in Hs.
  replace ((r_sq - dist_sq (A, B, C) (cx, cy, r_sq)) * (A * A + B * B)
           / (A * A + B * B))%R
    with (r_sq - dist_sq (A, B, C) (cx, cy, r_sq))%R in Hs by (field; lra).
  lra.
Qed.

Lemma intersect_circle_circle_radical (c1 c2 : @circle R) q1 q2 :
  intersect_circle_circle c1 c2 = ((q1, q2), 2%nat) ->
  intersect_line_circle (radical_line c1 c2) c1 = ((q1, q2), 2%nat).
Proof.
  destruct c1 as [[x1 y1] r1], c2 as [[x2 y2] r2].
  unfold intersect_circle_circle, radical_line.
  destruct (_ <? _)%num; [discriminate|].
  destruct (_ || _)%bool; [discriminate|].
  intros H. exact H.
Qed.

Lemma radical_line_power (c1 c2 : @circle R) (q : @point R) :
  on_line (radical_line c1 c2) q -> on_circle c1 q -> on_circle c2 q.
Proof.
  destruct c1 as [[x1 y1] r1], c2 as [[x2 y2] r2], q as [x y].
  unfold on_line, on_circle, radical_line. num_ops. cbn [fst snd].
  intros H1 H2. nra.
Qed.

Lemma line_circle_count_two (A B C cx cy r_sq : R) :
  1 / 1000000000 <= A * A + B * B ->
  dist_sq (A, B, C) (cx, cy, r_sq) <= r_sq - 1 / 1000000000 ->
  snd (intersect_line_circle (A, B, C) (cx, cy, r_sq)) = 2%nat.
Proof.
  intros Hd Hr.
  pose proof (@intersect_line_circle_branches R Num_R
                (A, B, C) (cx, cy, r_sq)) as Hb.
  cbv beta iota in Hb. rewrite Hb; clear Hb.
  - set (d := dist_sq (A, B, C) (cx, cy, r_sq)) in *. clearbody d.
    num_ops. unfold Exact.Rltb.
    destruct (Rlt_dec (r_sq + 1 / 1000000000) d); [lra|].
    destruct (Rlt_dec (Rabs (d - r_sq)) (1 / 1000000000)) as [Hlt|_];
      [revert Hlt; unfold Rabs; destruct (Rcase_abs _); intros; lra|].
    reflexivity.
  - num_ops. unfold Exact.Rltb.
    destruct (Rlt_dec (A * A + B * B) (1 / 1000000000)); [lra|reflexivity].
Qed.

Lemma circle_circle_as_radical (x1 y1 r1_sq x2 y2 r2_sq : R) :
  let d_sq := (x1 - x2) * (x1 - x2) + (y1 - y2) * (y1 - y2) in
  1 / 1000000000 <= d_sq ->
  sqrt d_sq <= sqrt r1_sq + sqrt r2_sq + 1 / 1000000000 ->
  Rabs (sqrt r1_sq - sqrt r2_sq) - 1 / 1000000000 <= sqrt d_sq ->
  intersect_circle_circle (x1, y1, r1_sq) (x2, y2, r2_sq)
  = intersect_line_circle
      (radical_line (x1, y1, r1_sq) (x2, y2, r2_sq)) (x1, y1, r1_sq).
Proof.
  intros d_sq H1 H2 H3.
  unfold intersect_circle_circle, radical_line. num_ops. fold d_sq.
  unfold Exact.Rltb.
  destruct (Rlt_dec d_sq (1 / 1000000000)); [lra|].
  destruct (Rlt_dec (sqrt r1_sq + sqrt r2_sq + 1 / 1000000000) (sqrt d_sq));
    [lra|].
  destruct (Rlt_dec (sqrt d_sq)
                    (Rabs (sqrt r1_sq - sqrt r2_sq) - 1 / 1000000000));
    [lra|].
  reflexivity.
Qed.
End ExactIncidence.

Lemma count_two_eta (T : Type) (r : (T * T) * (T * T) * nat) :
  snd r = 2 -> r = ((fst (fst r), snd (fst r)), 2).
Proof. destruct r as [[q1 q2] n]. simpl. intros ->. reflexivity. Qed.
(* ================================================================== *)
(** * Further properties of the kernel (exact arithmetic) *)
(* ================================================================== *)

(** X10.  In exact arithmetic the line [construct_line_from_points]
    builds passes through both points, and its first two coefficients
    are both zero exactly when the two points are equal. *)
Theorem constructed_line_through_points (p1 p2 : @point R) :
  on_line (construct_line_from_points p1 p2) p1
  /\ on_line (construct_line_from_points p1 p2) p2
  /\ (fst (fst (construct_line_from_points p1 p2)) = 0%R
      /\ snd (fst (construct_line_from_points p1 p2)) = 0%R
      <-> p1 = p2).
Proof.
  destruct p1 as [x1 y1], p2 as [x2 y2].
  unfold on_line, construct_line_from_points. num_ops. cbn [fst snd].
  split; [ring|]. split; [ring|]. split.
  - intros [H1 H2]. f_equal; lra.
  - intros H. inversion H; subst. split; ring.
Qed.

(** X11.  In exact arithmetic, when [intersect_line_circle] returns
    two points and the squared distance from the centre to the line is
    not exactly [r_sq + 1e-9] (the one value the tangent tests let
    through with a negative [r_sq - dist_sq]), both points lie on the
    line and on the circle, and they are distinct. *)
Theorem line_circle_points_on_both
        (A B C cx cy r_sq : R) (q1 q2 : @point R) :
  intersect_line_circle (A, B, C) (cx, cy, r_sq) = ((q1, q2), 2%nat) ->
  dist_sq (A, B, C) (cx, cy, r_sq) <> (r_sq + 1 / 1000000000)%R ->
  on_line (A, B, C) q1 /\ on_circle (cx, cy, r_sq) q1
  /\ on_line (A, B, C) q2 /\ on_circle (cx, cy, r_sq) q2
  /\ q1 <> q2.
Proof. exact (@line_circle_incidence_exact A B C cx cy r_sq q1 q2). Qed.

Lemma line_circle_points_on_both_witness :
  let r := @intersect_line_circle R Num_R (0, 1, 0)%R (0, 0, 1)%R in
  on_line (0, 1, 0)%R (fst (fst r)) /\ on_circle (0, 0, 1)%R (fst (fst r))
  /\ on_line (0, 1, 0)%R (snd (fst r)) /\ on_circle (0, 0, 1)%R (snd (fst r))
  /\ fst (fst r) <> snd (fst r).
Proof.
  intros r.
  assert (Hd : dist_sq (0, 1, 0)%R (0, 0, 1)%R = 0%R).
  { unfold dist_sq, x_closest, y_closest. num_ops. field. }
  assert (Hr : r = ((fst (fst r), snd (fst r)), 2%nat)).
  { apply count_two_eta. apply line_circle_count_two; [|rewrite Hd]; lra. }
  apply (@line_circle_points_on_both 0 1 0 0 0 1
           (fst (fst r)) (snd (fst r)) Hr).
  rewrite Hd. lra.
Defined.

(** X12.  In exact arithmetic, when [intersect_circle_circle] returns
    two points and the squared distance from the first centre to the
    radical line is not exactly [r1_sq + 1e-9], both points lie on both
    circles, and they are distinct. *)
Theorem circle_circle_points_on_both
        (x1 y1 r1_sq x2 y2 r2_sq : R) (q1 q2 : @point R) :
  intersect_circle_circle (x1, y1, r1_sq) (x2, y2, r2_sq)
  = ((q1, q2), 2%nat) ->
  dist_sq (radical_line (x1, y1, r1_sq) (x2, y2, r2_sq)) (x1, y1, r1_sq)
  <> (r1_sq + 1 / 1000000000)%R ->
  on_circle (x1, y1, r1_sq) q1 /\ on_circle (x2, y2, r2_sq) q1
  /\ on_circle (x1, y1, r1_sq) q2 /\ on_circle (x2, y2, r2_sq) q2
  /\ q1 <> q2.
Proof.
  intros H Hgap. apply intersect_circle_circle_radical in H.
  remember (radical_line (x1, y1, r1_sq) (x2, y2, r2_sq)) as l eqn:El.
  destruct l as [[A B] C].
  destruct (line_circle_incidence_exact H Hgap)
    as (Hl1 & Hc1 & Hl2 & Hc2 & Hne).
  rewrite El in Hl1, Hl2.
  repeat split; try assumption.
  - exact (radical_line_power _ _ _ Hl1 Hc1).
  - exact (radical_line_power _ _ _ Hl2 Hc2).
Qed.

Lemma circle_circle_points_on_both_witness :
  let r := @intersect_circle_circle R Num_R (0, 0, 1)%R (1, 0, 1)%R in
  on_circle (0, 0, 1)%R (fst (fst r)) /\ on_circle (1, 0, 1)%R (fst (fst r))
  /\ on_circle (0, 0, 1)%R (snd (fst r)) /\ on_circle (1, 0, 1)%R (snd (fst r))
  /\ fst (fst r) <> snd (fst r).
Proof.
  intros r.
  assert (Hd : dist_sq (radical_line (0, 0, 1)%R (1, 0, 1)%R) (0, 0, 1)%R
               = (1 / 4)%R).
  { unfold dist_sq, x_closest, y_closest, radical_line. num_ops. field. }
  assert (Hr : r = ((fst (fst r), snd (fst r)), 2%nat)).
  { apply count_two_eta. unfold r.
    rewrite circle_circle_as_radical.
    - remember (radical_line (0, 0, 1)%R (1, 0, 1)%R) as l eqn:El.
      destruct l as [[A B] C].
      apply line_circle_count_two; [|rewrite Hd; lra].
      unfold radical_line in El. num_ops. inversion El; subst. lra.
    - lra.
    - replace ((0 - 1) * (0 - 1) + (0 - 0) * (0 - 0))%R with 1%R by ring.
      rewrite sqrt_1. lra.
    - replace ((0 - 1) * (0 - 1) + (0 - 0) * (0 - 0))%R with 1%R by ring.
      rewrite sqrt_1. unfold Rabs. destruct (Rcase_abs _); lra. }
  apply (@circle_circle_points_on_both 0 0 1 1 0 1
           (fst (fst r)) (snd (fst r)) Hr).
  rewrite Hd. lra.
Defined.
(* ================================================================== *)
(** * Canonical form of a line and the representative of its equation *)
(* ================================================================== *)

Section ExactScale.
Local Open Scope R_scope.

Lemma sqrt_scaled (k A B : R) :
  0 < k ->
  sqrt (k * A * (k * A) + k * B * (k * B)) = k * sqrt (A * A + B * B).
Proof.
  intros Hk.
  replace (k * A * (k * A) + k * B * (k * B))
    with ((k * k) * (A * A + B * B)) by ring.
  rewrite sqrt_mult; [|nra|nra].
  rewrite sqrt_square; [reflexivity|lra].
Qed.

Lemma normalize_line_scale_pos (k A B C : R) :
  0 < k ->
  1 / 1000000000 <= sqrt (A * A + B * B) ->
  1 / 1000000000 <= k * sqrt (A * A + B * B) ->
  @normalize_line R Num_R (k * A, k * B, k * C) = normalize_line (A, B, C).
Proof.
  intros Hk H1 H2. unfold normalize_line. num_ops.
  rewrite (sqrt_scaled A B Hk).
  set (norm := sqrt (A * A + B * B)) in *.
  destruct (Exact.Rltb (k * norm) (1 / 1000000000)) eqn:E1;
    [apply Rltb_true in E1; lra|].
  destruct (Exact.Rltb norm (1 / 1000000000)) eqn:E2;
    [apply Rltb_true in E2; lra|].
  assert (Hn : norm <> 0) by lra.
  replace (k * A / (k * norm)) with (A / norm) by (field; lra).
  replace (k * B / (k * norm)) with (B / norm) by (field; lra).
  replace (k * C / (k * norm)) with (C / norm) by (field; lra).
  reflexivity.
Qed.

(** X13.  In exact arithmetic the canonical form of a line does not
    depend on the representative of its equation: multiplying the three
    coefficients by [k <> 0] leaves [normalize_line] unchanged, provided
    both triples pass the degeneracy test ([norm >= 1e-9]) and, for
    negative [k], the first normalised coefficient is not of magnitude
    exactly [1e-9]. *)
Theorem normalize_line_scale_invariant (k A B C : R) :
  k <> 0 ->
  (1 / 1000000000 <= sqrt (A * A + B * B)) ->
  (1 / 1000000000 <= Rabs k * sqrt (A * A + B * B)) ->
  ((k < 0) ->
   Rabs (A / sqrt (A * A + B * B)) <> (1 / 1000000000)) ->
  @normalize_line R Num_R (k * A, k * B, k * C) = normalize_line (A, B, C).
Proof.
  intros Hk H1 H2 Hgap.
  destruct (Rlt_dec 0 k) as [Hpos|Hneg].
  - apply normalize_line_scale_pos; auto.
    rewrite Rabs_right in H2; lra.
  - assert (Hk' : k < 0) by lra.
    rewrite Rabs_left in H2 by exact Hk'.
    replace (k * A) with (- (- k * A)) by ring.
    replace (k * B) with (- (- k * B)) by ring.
    replace (k * C) with (- (- k * C)) by ring.
    rewrite normalize_line_opp_exact.
    + apply normalize_line_scale_pos; auto. lra.
    + rewrite sqrt_scaled by lra.
      replace (- k * A / (- k * sqrt (A * A + B * B)))
        with (A / sqrt (A * A + B * B)) by (field; lra).
      exact (Hgap Hk').
Qed.

Lemma normalize_line_scale_invariant_witness :
  @normalize_line R Num_R (-2 * 0, -2 * 1, -2 * 3)
  = normalize_line (0, 1, 3).
Proof.
  assert (Hs : sqrt (0 * 0 + 1 * 1) = 1).
  { replace (0 * 0 + 1 * 1) with 1 by ring. apply sqrt_1. }
  apply normalize_line_scale_invariant.
  - lra.
  - rewrite Hs. lra.
  - rewrite Hs. rewrite Rabs_left by lra. lra.
  - intros _. rewrite Hs. unfold Rdiv. rewrite Rmult_0_l, Rabs_R0. lra.
Defined.

(** X14.  In exact arithmetic the two orders of a pair of points give
    the same canonical line: [normalize_line] of
    [construct_line_from_points p1 p2] and of
    [construct_line_from_points p2 p1] are equal, provided the first
    normalised coefficient is not of magnitude exactly [1e-9]. *)
Theorem line_through_points_order_independent (x1 y1 x2 y2 : R) :
  Rabs ((y1 - y2)
        / sqrt ((y1 - y2) * (y1 - y2) + (x2 - x1) * (x2 - x1)))
  <> (1 / 1000000000) ->
  @normalize_line R Num_R (construct_line_from_points (x1, y1) (x2, y2))
  = normalize_line (construct_line_from_points (x2, y2) (x1, y1)).
Proof.
  intros H.
  pose proof (line_order_independent_exact (x1, y1) (x2, y2)) as L.
  unfold construct_line_from_points in L at 1. num_ops.
  exact (L H).
Qed.

Lemma line_through_points_order_independent_witness :
  @normalize_line R Num_R (construct_line_from_points (0, 0) (1, 0))
  = normalize_line (construct_line_from_points (1, 0) (0, 0)).
Proof.
  apply line_through_points_order_independent.
  replace (0 - 0) with 0 by ring.
  unfold Rdiv. rewrite Rmult_0_l, Rabs_R0. lra.
Defined.
End ExactScale.
(* ================================================================== *)
(** * The state hash as a multiset of canonical forms *)
(* ================================================================== *)

Section SortedFacts.
Variable A : Type.
Variable ltb : A -> A -> bool.

Lemma insert_sorted_perm (x : A) (l : list A) :
  Permutation (insert_sorted ltb x l) (x :: l).
Proof.
  induction l as [|y ys IH]; simpl; [reflexivity|].
  destruct (ltb x y); [reflexivity|].
  rewrite IH. apply perm_swap.
Qed.

Lemma fold_insert_perm (xs acc : list A) :
  Permutation (fold_left (fun acc x => insert_sorted ltb x acc) xs acc)
              (xs ++ acc).
Proof.
  revert acc. induction xs as [|x xs IH]; intros acc; simpl; [reflexivity|].
  rewrite IH. rewrite insert_sorted_perm. symmetry. apply Permutation_middle.
Qed.

Lemma sorted_perm (xs : list A) : Permutation (sorted ltb xs) xs.
Proof.
  unfold sorted. rewrite fold_insert_perm. now rewrite app_nil_r.
Qed.

Hypothesis ltb_irrefl : forall a, ltb a a = false.
Hypothesis ltb_trans :
  forall a b c, ltb a b = true -> ltb b c = true -> ltb a c = true.
Hypothesis ltb_total :
  forall a b, ltb a b = false -> ltb b a = false -> a = b.

Lemma not_above_trans (a b c : A) :
  ltb b a = false -> ltb c b = false -> ltb c a = false.
Proof.
  intros Hab Hbc. destruct (ltb c a) eqn:E; [|reflexivity].
  destruct (ltb a b) eqn:E'.
  - rewrite (@ltb_trans _ _ _ E E') in Hbc. discriminate.
  - rewrite (@ltb_total _ _ E' Hab) in E. congruence.
Qed.

Lemma insert_sorted_ordered (x : A) (l : list A) :
  StronglySorted (fun a b => ltb b a = false) l ->
  StronglySorted (fun a b => ltb b a = false) (insert_sorted ltb x l).
Proof.
  induction 1 as [|y ys Hs IH Hy]; simpl.
  - constructor; constructor.
  - destruct (ltb x y) eqn:E.
    + assert (Hxy : ltb y x = false).
      { destruct (ltb y x) eqn:E'; [|reflexivity].
        rewrite <- (ltb_irrefl x). symmetry. eapply ltb_trans; eauto. }
      constructor; [constructor; assumption|].
      constructor; [exact Hxy|].
      rewrite Forall_forall in *. intros z Hz.
      eapply not_above_trans; [exact Hxy|]. now apply Hy.
    + constructor; [exact IH|].
      rewrite Forall_forall in *. intros z Hz.
      apply (Permutation_in _ (insert_sorted_perm x ys)) in Hz.
      destruct Hz as [<-|Hz]; [exact E|now apply Hy].
Qed.

Lemma sorted_ordered (xs : list A) :
  StronglySorted (fun a b => ltb b a = false) (sorted ltb xs).
Proof.
  unfold sorted.
  assert (H : StronglySorted (fun a b => ltb b a = false) (@nil A))
    by constructor.
  revert H. generalize (@nil A).
  induction xs as [|x xs IH]; intros acc H; simpl; [exact H|].
  apply IH. now apply insert_sorted_ordered.
Qed.

Lemma ordered_perm_unique (l1 l2 : list A) :
  StronglySorted (fun a b => ltb b a = false) l1 ->
  StronglySorted (fun a b => ltb b a = false) l2 ->
  Permutation l1 l2 -> l1 = l2.
Proof.
  intros H1. revert l2.
  induction H1 as [|a l1 Hs1 IH Ha]; intros l2 H2 Hp.
  - apply Permutation_nil in Hp. now subst.
  - destruct H2 as [|b l2 Hs2 Hb].
    + apply Permutation_sym, Permutation_nil in Hp. discriminate.
    + assert (E : a = b).
      { rewrite Forall_forall in Ha, Hb.
        assert (Hab : ltb b a = false).
        { assert (Hin : In b (a :: l1))
            by (eapply Permutation_in; [symmetry; exact Hp|now left]).
          destruct Hin as [->|Hin]; [apply ltb_irrefl|now apply Ha]. }
        assert (Hba : ltb a b = false).
        { assert (Hin : In a (b :: l2))
            by (eapply Permutation_in; [exact Hp|now left]).
          destruct Hin as [->|Hin]; [apply ltb_irrefl|now apply Hb]. }
        now apply ltb_total. }
      subst b. f_equal. apply IH; [exact Hs2|].
      eapply Permutation_cons_inv; exact Hp.
Qed.

Lemma sorted_of_permutation (l1 l2 : list A) :
  Permutation l1 l2 <-> sorted ltb l1 = sorted ltb l2.
Proof.
  split.
  - intros Hp. apply ordered_perm_unique; try apply sorted_ordered.
    rewrite !sorted_perm. exact Hp.
  - intros E. rewrite <- (sorted_perm l1), E. apply sorted_perm.
Qed.
End SortedFacts.

Ltac exact_order :=
  unfold pair_ltb, triple_ltb; num_ops; unfold Exact.Reqb, Exact.Rltb;
  cbn [fst snd];
  repeat match goal with
         | |- context [Req_dec_T ?a ?b] => destruct (Req_dec_T a b)
         | |- context [Rlt_dec ?a ?b] => destruct (Rlt_dec a b)
         end;
  intros; subst; try discriminate; try reflexivity; try lra.

Section ExactOrderOfTuples.
Local Open Scope R_scope.

Lemma pair_ltb_irrefl (a : R * R) : pair_ltb a a = false.
Proof. destruct a as [a1 a2]. exact_order. Qed.

Lemma pair_ltb_trans (a b c : R * R) :
  pair_ltb a b = true -> pair_ltb b c = true -> pair_ltb a c = true.
Proof. destruct a as [a1 a2], b as [b1 b2], c as [c1 c2]. exact_order. Qed.

Lemma pair_ltb_total (a b : R * R) :
  pair_ltb a b = false -> pair_ltb b a = false -> a = b.
Proof.
  destruct a as [a1 a2], b as [b1 b2]. exact_order; f_equal; lra.
Qed.

Lemma triple_ltb_irrefl (a : R * R * R) : triple_ltb a a = false.
Proof. destruct a as [[a1 a2] a3]. exact_order. Qed.

Lemma triple_ltb_trans (a b c : R * R * R) :
  triple_ltb a b = true -> triple_ltb b c = true -> triple_ltb a c = true.
Proof.
  destruct a as [[a1 a2] a3], b as [[b1 b2] b3], c as [[c1 c2] c3].
  exact_order.
Qed.

Lemma triple_ltb_total (a b : R * R * R) :
  triple_ltb a b = false -> triple_ltb b a = false -> a = b.
Proof.
  destruct a as [[a1 a2] a3], b as [[b1 b2] b3]. exact_order; f_equal; lra.
Qed.
End ExactOrderOfTuples.

(** X15.  In exact arithmetic [get_state_hash] identifies a state with
    the multisets of its canonical forms: two collections of objects
    have the same hash exactly when, for each type, their canonical
    forms are the same up to order.  In particular the hash depends
    neither on the ids nor on the insertion order of the figures. *)
Theorem state_hash_is_canonical_multiset (o o' : @objects_t R) :
  get_state_hash o = get_state_hash o'
  <-> Permutation (map normalize_point (values (points o)))
                  (map normalize_point (values (points o')))
      /\ Permutation (map normalize_line (values (lines o)))
                     (map normalize_line (values (lines o')))
      /\ Permutation (map normalize_circle (values (circles o)))
                     (map normalize_circle (values (circles o'))).
Proof.
  pose proof (@sorted_of_permutation _ _ pair_ltb_irrefl pair_ltb_trans
                pair_ltb_total) as Hp.
  pose proof (@sorted_of_permutation _ _ triple_ltb_irrefl triple_ltb_trans
                triple_ltb_total) as Ht.
  unfold get_state_hash. split.
  - intros H. inversion H as [[H1 H2 H3]].
    rewrite Hp, !Ht. auto.
  - intros (H1 & H2 & H3).
    apply Hp in H1. apply Ht in H2. apply Ht in H3.
    now rewrite H1, H2, H3.
Qed.
(* ================================================================== *)
(** * binary64: a negative radicand in [intersect_line_circle] *)
(* ================================================================== *)

Section Binary64Nan.
Local Open Scope float_scope.

Lemma is_nan_spec (x : float) : is_nan x = true <-> Prim2SF x = S754_nan.
Proof.
  unfold is_nan. rewrite FloatAxioms.eqb_spec. unfold SFeqb.
  destruct (Prim2SF x) as [s|s| |s m e]; simpl.
  - destruct s; simpl; split; intros H; discriminate.
  - destruct s; simpl; split; intros H; discriminate.
  - split; reflexivity.
  - rewrite Z.compare_refl, Pos.compare_refl.
    destruct s; simpl; split; intros H; discriminate.
Qed.

Lemma sqrt_negative_nan (x : float) :
  (x <? 0) = true -> is_nan (PrimFloat.sqrt x) = true.
Proof.
  rewrite FloatAxioms.ltb_spec, is_nan_spec, sqrt_spec. unfold SFltb, SF64sqrt.
  replace (Prim2SF 0) with (S754_zero false) by reflexivity.
  destruct (Prim2SF x) as [s|s| |s m e]; simpl;
    try destruct s; simpl; intros H; try discriminate; reflexivity.
Qed.

Lemma mul_nan_l (x y : float) : is_nan x = true -> is_nan (x * y) = true.
Proof.
  rewrite !is_nan_spec, mul_spec. intros ->. reflexivity.
Qed.

Lemma div_nan_l (x y : float) : is_nan x = true -> is_nan (x / y) = true.
Proof.
  rewrite !is_nan_spec, div_spec. intros ->. reflexivity.
Qed.

Lemma add_nan_r (x y : float) : is_nan y = true -> is_nan (x + y) = true.
Proof.
  rewrite !is_nan_spec, add_spec. intros ->.
  destruct (Prim2SF x); reflexivity.
Qed.

Lemma sub_nan_r (x y : float) : is_nan y = true -> is_nan (x - y) = true.
Proof.
  rewrite !is_nan_spec, sub_spec. intros ->.
  destruct (Prim2SF x); reflexivity.
Qed.
End Binary64Nan.

(** X16.  On binary64 [intersect_line_circle] can reach its last
    branch with a negative [r_sq - dist_sq] (when [dist_sq] is not
    above the rounded [r_sq + 1e-9] while the rounded difference
    [dist_sq - r_sq] is not below [1e-9]); it then returns count 2 and
    four coordinates that are all NaN. *)
Theorem line_circle_negative_radicand_gives_nan
        (A B C cx cy r_sq : float) :
  snd (intersect_line_circle (A, B, C) (cx, cy, r_sq)) = 2%nat ->
  (r_sq - dist_sq (A, B, C) (cx, cy, r_sq) <? 0)%float = true ->
  let '((x1, y1), (x2, y2)) :=
    fst (intersect_line_circle (A, B, C) (cx, cy, r_sq)) in
  is_nan x1 = true /\ is_nan y1 = true
  /\ is_nan x2 = true /\ is_nan y2 = true.
Proof.
  intros Hc Hneg.
  destruct ((A * A + B * B)%num <? EPSILON)%num eqn:Ed.
  - unfold intersect_line_circle in Hc. rewrite Ed in Hc. discriminate.
  - pose proof (@intersect_line_circle_branches float Num_float
                  (A, B, C) (cx, cy, r_sq)) as Hb.
    cbv beta iota in Hb. rewrite (Hb Ed) in Hc |- *. clear Hb.
    destruct (ngtb _ _); [discriminate|].
    destruct (_ <? _)%num; [discriminate|].
    cbv zeta. cbn [fst snd]. num_ops.
    apply sqrt_negative_nan in Hneg.
    repeat split;
      first [apply add_nan_r | apply sub_nan_r];
      apply div_nan_l, mul_nan_l; exact Hneg.
Qed.

Lemma line_circle_negative_radicand_gives_nan_witness :
  let '((x1, y1), (x2, y2)) :=
    fst (@intersect_line_circle float Num_float
           (1, 0, -1.0000000005)%float (0, 0, 1)%float) in
  is_nan x1 = true /\ is_nan y1 = true
  /\ is_nan x2 = true /\ is_nan y2 = true.
Proof.
  apply (@line_circle_negative_radicand_gives_nan
           1 0 (-1.0000000005) 0 0 1)%float; vm_compute; reflexivity.
Defined.
(* ================================================================== *)
(** * Lines and circles are never lost *)
(* ================================================================== *)

Section ShapesKept.
Context {T : Type} {NT : Num T}.
Implicit Types (o : @objects_t T) (s : @State T) (f : @figure T).

Lemma keeps_shapes_refl o : keeps_shapes o o.
Proof. intros t k f _ H. exact H. Qed.

Lemma keeps_shapes_trans o1 o2 o3 :
  keeps_shapes o1 o2 -> keeps_shapes o2 o3 -> keeps_shapes o1 o3.
Proof. intros H1 H2 t k f Ht H. apply H2; auto. Qed.

Lemma keeps_shapes_same o o' :
  lines o' = lines o -> circles o' = circles o -> keeps_shapes o o'.
Proof.
  intros Hl Hc t k f Ht. destruct t; [congruence| |]; simpl;
    [rewrite Hl|rewrite Hc]; auto.
Qed.

Lemma ordinals_below_snoc (ks : list string) (t : obj_type) (n : N) :
  ordinals_below ks n = true ->
  ordinals_below (ks ++ [make_id t n]) (n + 1) = true.
Proof.
  intros H. rewrite ordinals_below_app. apply andb_true_intro. split.
  - eapply ordinals_below_mono; [|exact H]. lia.
  - unfold ordinals_below. cbn [forallb]. rewrite ordinal_make_id.
    rewrite andb_true_r. apply N.ltb_lt. lia.
Qed.

(** A successor keeps every line and circle, and the counters that
    [solve] stores with it stay above the ordinals of lines and
    circles. *)
Lemma successor_shapes s x :
  shapes_above s = true ->
  In x (generate_successors s) ->
  keeps_shapes (objects s) (fst x) /\ shapes_above (child_state s x) = true.
Proof.
  unfold shapes_above. intros Hs Hin.
  apply andb_prop in Hs. destruct Hs as [Hl Hc].
  pose proof Hin as Hin0.
  unfold generate_successors in Hin.
  apply in_app_or in Hin. destruct Hin as [Hin|Hin].
  - apply intersection_successors_step in Hin.
    destruct Hin as (cfg & _ & _ & _ & Ht).
    destruct (successor_adds_new_figure _ _ Hin0) as [Hsame _].
    rewrite Ht in Hsame. destruct Hsame as [El Ec].
    split; [now apply keeps_shapes_same|].
    unfold child_state. cbn [objects next_ids]. rewrite El, Ec, Ht.
    destruct (ordinal _) as [m|]; [|now rewrite Hl, Hc].
    unfold advance_ids. cbn [get_next].
    destruct (_ <=? _)%N; cbn [set_next next_line next_circle];
      now rewrite Hl, Hc.
  - apply in_app_or in Hin. destruct Hin as [Hin|Hin].
    + unfold line_successors in Hin.
      destruct (2 <=? List.length (points (objects s)))%nat; [|destruct Hin].
      apply in_flat_map in Hin.
      destruct Hin as [[[p1_id p1] [p2_id p2]] [_ Hin]].
      destruct (_add_object (objects s) (next_line (next_ids s))
                  (Fline (construct_line_from_points p1 p2)))
        as [o' [id|]] eqn:E; [|destruct Hin].
      destruct Hin as [<-|[]].
      pose proof (@ordinals_below_fresh _ line_t _ _ Hl (N.le_refl _)) as Hf.
      split.
      * intros t k f _ H. cbn [fst]. eapply add_line_fresh; eauto.
      * unfold _add_object in E.
        destruct (line_known _ _); [discriminate|].
        inversion E; subst; clear E.
        unfold child_state.
        cbn [fst snd objects next_ids output_id output_type lines circles].
        rewrite ordinal_make_id. unfold advance_ids. cbn [get_next].
        rewrite N.leb_refl. cbn [set_next next_line next_circle].
        rewrite keys_dict_set_fresh by exact Hf.
        rewrite ordinals_below_snoc by exact Hl. now rewrite Hc.
    + unfold circle_successors in Hin.
      destruct (2 <=? List.length (points (objects s)))%nat; [|destruct Hin].
      apply in_flat_map in Hin.
      destruct Hin as [[[p1_id p1] [p2_id p2]] [_ Hin]].
      destruct (_add_object (objects s) (next_circle (next_ids s))
                  (Fcircle (construct_circle_from_points p1 p2)))
        as [o' [id|]] eqn:E; [|destruct Hin].
      destruct Hin as [<-|[]].
      pose proof (@ordinals_below_fresh _ circle_t _ _ Hc (N.le_refl _)) as Hf.
      split.
      * intros t k f _ H. cbn [fst]. eapply add_circle_fresh; eauto.
      * unfold _add_object in E.
        destruct (circle_known _ _); [discriminate|].
        inversion E; subst; clear E.
        unfold child_state.
        cbn [fst snd objects next_ids output_id output_type lines circles].
        rewrite ordinal_make_id. unfold advance_ids. cbn [get_next].
        rewrite N.leb_refl. cbn [set_next next_line next_circle].
        rewrite keys_dict_set_fresh by exact Hf.
        rewrite ordinals_below_snoc by exact Hc. now rewrite Hl.
Qed.

Lemma constructs_shapes s p s' :
  shapes_above s = true ->
  constructs s p s' ->
  keeps_shapes (objects s) (objects s') /\ shapes_above s' = true.
Proof.
  intros Hs. induction 1 as [|p s1 x Hc IH Hin].
  - split; [apply keeps_shapes_refl|exact Hs].
  - destruct IH as [Hk Ha].
    destruct (successor_shapes _ _ Ha Hin) as [Hk' Ha'].
    split; [|exact Ha'].
    eapply keeps_shapes_trans; [exact Hk|exact Hk'].
Qed.
End ShapesKept.

(** X17.  Lines and circles are never lost: when the line and circle
    counters of a state are above the ordinals in use, then along every
    chain of successor steps from it (with the counters advanced as
    [solve] advances them) the counters stay above, and every
    (id, line) and (id, circle) pair of the state is still a pair of
    the state reached.  An id that is assigned twice can only be the id
    of a point. *)
Theorem lines_and_circles_are_kept
        (T : Type) (NT : Num T) (s s' : @State T) (p : list step) :
  shapes_above s = true ->
  constructs s p s' ->
  shapes_above s' = true
  /\ forall t k f, t <> point_t ->
                   lookup_figure (objects s) t k = Some f ->
                   lookup_figure (objects s') t k = Some f.
Proof.
  intros Hs Hc. destruct (constructs_shapes Hs Hc) as [Hk Ha].
  split; [exact Ha|exact Hk].
Qed.

Lemma lines_and_circles_are_kept_witness :
  let x := (with_point Instances.after_circle_circle.(objects) "p6"%string
                       (-1, 0)%float,
            {| operation := Intersection; inputs := ["l1"; "c1"]%string;
               output_type := point_t; output_id := "p6"%string |}) in
  shapes_above (child_state Instances.after_circle_circle x) = true
  /\ forall t k f, t <> point_t ->
       lookup_figure (objects Instances.after_circle_circle) t k = Some f ->
       lookup_figure (objects (child_state Instances.after_circle_circle x))
                     t k = Some f.
Proof.
  intros x.
  apply (@lines_and_circles_are_kept float Num_float
           Instances.after_circle_circle
           (child_state Instances.after_circle_circle x) ([] ++ [snd x])).
  - vm_compute. reflexivity.
  - apply constructs_snoc; [constructor|]. vm_compute. left. reflexivity.
Defined.
(* ================================================================== *)
(** * binary64: [==] is symmetric and transitive *)
(* ================================================================== *)

Section Binary64Eq.
Lemma SFeqb_cases (x y : spec_float) :
  SFeqb x y = true ->
  (exists a b, x = S754_zero a /\ y = S754_zero b) \/ x = y.
Proof.
  unfold SFeqb, SFcompare.
  destruct x as [sx|sx| |sx mx ex], y as [sy|sy| |sy my ey];
    intros H; try discriminate;
    try (left; eexists; eexists; split; reflexivity);
    try (destruct sx; discriminate);
    try (destruct sy; discriminate).
  - destruct sx, sy; try discriminate; right; reflexivity.
  - destruct sx, sy; try discriminate;
      destruct (Z.compare ex ey) eqn:Ez; try discriminate;
      apply Z.compare_eq in Ez; subst ey;
      change (Pos.compare_cont Eq mx my) with (Pos.compare mx my) in H;
      destruct (Pos.compare mx my) eqn:Em; try discriminate;
      apply Pos.compare_eq in Em; subst my; right; reflexivity.
Qed.

Lemma float_eqb_sym (a b : float) :
  PrimFloat.eqb a b = true -> PrimFloat.eqb b a = true.
Proof.
  rewrite !FloatAxioms.eqb_spec. intros H.
  destruct (SFeqb_cases _ _ H) as [(s1 & s2 & -> & ->)|E].
  - reflexivity.
  - rewrite E in H |- *. exact H.
Qed.

Lemma float_eqb_trans (a b c : float) :
  PrimFloat.eqb a b = true -> PrimFloat.eqb b c = true ->
  PrimFloat.eqb a c = true.
Proof.
  rewrite !FloatAxioms.eqb_spec. intros H1 H2.
  destruct (SFeqb_cases _ _ H1) as [(s1 & s2 & E1 & E2)|E];
    [|now rewrite E].
  destruct (SFeqb_cases _ _ H2) as [(s3 & s4 & E3 & E4)|E'].
  - rewrite E1, E4. reflexivity.
  - rewrite <- E', E1, E2. reflexivity.
Qed.
End Binary64Eq.

(* ================================================================== *)
(** * A known line or circle is never found *)
(* ================================================================== *)

Section KnownTarget.
Context {T : Type} {NT : Num T}.
Hypothesis neqb_sym : forall a b : T, neqb a b = true -> neqb b a = true.
Hypothesis neqb_trans :
  forall a b c : T, neqb a b = true -> neqb b c = true -> neqb a c = true.

Lemma triple_eqb_sym (a b : T * T * T) :
  triple_eqb a b = true -> triple_eqb b a = true.
Proof.
  destruct a as [[a1 a2] a3], b as [[b1 b2] b3]. unfold triple_eqb.
  rewrite !andb_true_iff. intros [[H1 H2] H3]. auto.
Qed.

Lemma triple_eqb_trans (a b c : T * T * T) :
  triple_eqb a b = true -> triple_eqb b c = true -> triple_eqb a c = true.
Proof.
  destruct a as [[a1 a2] a3], b as [[b1 b2] b3], c as [[c1 c2] c3].
  unfold triple_eqb. rewrite !andb_true_iff.
  intros [[H1 H2] H3] [[H4 H5] H6]. repeat split; eapply neqb_trans; eauto.
Qed.

(** A figure that passes the goal test for a target the state holds
    canonically is itself held canonically. *)
Lemma goal_of_known_is_known (o : @objects_t T) (target f : @figure T) :
  figure_type target <> point_t ->
  figure_known o target = true ->
  is_goal target f = true ->
  figure_known o f = true.
Proof.
  intros Ht Hk Hg.
  destruct target as [t|t|t]; [elim Ht; reflexivity| |];
    destruct f as [q|l|c]; try discriminate;
    cbn [figure_known is_goal] in *;
    unfold line_known, circle_known in *;
    rewrite existsb_exists in *;
    destruct Hk as (e & Hin & He); exists e; (split; [exact Hin|]);
    (eapply triple_eqb_trans; [exact He|]); now apply triple_eqb_sym.
Qed.
End KnownTarget.

Section ShapeValues.
Context {T : Type} {NT : Num T}.

Lemma successor_shape_values (s : @State T) (x : @successor T) :
  shapes_above s = true ->
  In x (generate_successors s) ->
  incl (values (lines (objects s))) (values (lines (fst x)))
  /\ incl (values (circles (objects s))) (values (circles (fst x))).
Proof.
  intros Hs Hin.
  destruct (successor_adds_new_figure _ _ Hin) as [Hsame _].
  unfold shapes_above in Hs. apply andb_prop in Hs. destruct Hs as [Hl Hc].
  unfold generate_successors in Hin.
  apply in_app_or in Hin. destruct Hin as [Hin|Hin].
  - apply intersection_successors_step in Hin.
    destruct Hin as (cfg & _ & _ & _ & Ht).
    rewrite Ht in Hsame. destruct Hsame as [-> ->].
    split; apply incl_refl.
  - apply in_app_or in Hin. destruct Hin as [Hin|Hin].
    + unfold line_successors in Hin.
      destruct (2 <=? List.length (points (objects s)))%nat; [|destruct Hin].
      apply in_flat_map in Hin.
      destruct Hin as [[[p1_id p1] [p2_id p2]] [_ Hin]].
      unfold _add_object in Hin.
      destruct (line_known _ _); [destruct Hin|].
      destruct Hin as [<-|[]]. cbn [fst lines circles].
      split; [|apply incl_refl].
      rewrite dict_set_fresh
        by (eapply ordinals_below_fresh; [exact Hl|apply N.le_refl]).
      unfold values. rewrite map_app. apply incl_appl, incl_refl.
    + unfold circle_successors in Hin.
      destruct (2 <=? List.length (points (objects s)))%nat; [|destruct Hin].
      apply in_flat_map in Hin.
      destruct Hin as [[[p1_id p1] [p2_id p2]] [_ Hin]].
      unfold _add_object in Hin.
      destruct (circle_known _ _); [destruct Hin|].
      destruct Hin as [<-|[]]. cbn [fst lines circles].
      split; [apply incl_refl|].
      rewrite dict_set_fresh
        by (eapply ordinals_below_fresh; [exact Hc|apply N.le_refl]).
      unfold values. rewrite map_app. apply incl_appl, incl_refl.
Qed.

Lemma constructs_shape_values (s s' : @State T) (p : list step) :
  shapes_above s = true ->
  constructs s p s' ->
  incl (values (lines (objects s))) (values (lines (objects s')))
  /\ incl (values (circles (objects s))) (values (circles (objects s'))).
Proof.
  intros Hs. induction 1 as [|p s1 x Hc IH Hin].
  - split; apply incl_refl.
  - destruct IH as [Hl Hc'].
    destruct (constructs_shapes Hs Hc) as [_ Ha].
    destruct (successor_shape_values _ _ Ha Hin) as [Hl' Hc''].
    split; eapply incl_tran; eauto.
Qed.

Lemma known_shape_stays_known (o o' : @objects_t T) (target : @figure T) :
  figure_type target <> point_t ->
  incl (values (lines o)) (values (lines o')) ->
  incl (values (circles o)) (values (circles o')) ->
  figure_known o target = true -> figure_known o' target = true.
Proof.
  intros Ht Hl Hc.
  destruct target as [t|t|t]; [elim Ht; reflexivity| |];
    cbn [figure_known]; unfold line_known, circle_known;
    rewrite !existsb_exists; intros (e & Hin & He); exists e; auto.
Qed.
End ShapeValues.

Section KnownTargetRun.
Context {T : Type} {NT : Num T}.
Hypothesis neqb_sym : forall a b : T, neqb a b = true -> neqb b a = true.
Hypothesis neqb_trans :
  forall a b c : T, neqb a b = true -> neqb b c = true -> neqb a c = true.

Lemma known_shape_not_returned (initial_objects : @objects_t T)
      (target : @figure T) (max_steps : Z) (fuel : nat)
      (p : list step) (k : nat) :
  figure_type target <> point_t ->
  figure_known initial_objects target = true ->
  solve initial_objects target max_steps fuel
  <> Some (Returned (Some p) k).
Proof.
  intros Ht Hk H.
  destruct (initial_ids initial_objects) as [ids|] eqn:Ei;
    [|rewrite (@solve_unseeded _ _ _ target max_steps fuel Ei) in H;
      discriminate].
  rewrite (@solve_seeded _ _ _ target max_steps fuel _ Ei) in H.
  apply solve_loop_returns with (s0 := initial_state initial_objects) in H.
  2:{ unfold nodes_constructed, initial_engine, start_engine.
      cbn [open_list heappush insert_sorted]. repeat constructor. }
  destruct H as (p1 & s1 & x & f & _ & Hc & Hx & Hl & Hg & _).
  assert (Hs : shapes_above (initial_state initial_objects) = true).
  { pose proof (initial_state_counters_above initial_objects) as Ha.
    unfold counters_above in Ha. unfold shapes_above.
    apply andb_prop in Ha. destruct Ha as [Ha Hcc].
    apply andb_prop in Ha. destruct Ha as [_ Hll].
    now rewrite Hll, Hcc. }
  destruct (constructs_shape_values Hs Hc) as [Hil Hic].
  assert (Hk1 : figure_known (objects s1) target = true).
  { eapply known_shape_stays_known; eauto. }
  destruct (successor_adds_new_figure _ _ Hx) as (_ & f' & Hl' & _ & Hnew).
  rewrite Hl in Hl'. inversion Hl'; subst f'.
  rewrite (goal_of_known_is_known neqb_sym neqb_trans _ _ _ Ht Hk1 Hg)
    in Hnew.
  discriminate.
Qed.
End KnownTargetRun.

(** X18.  A line or a circle that is canonically among the knowns is
    never found: when the target is a line (a circle) and the initial
    objects hold a line (a circle) with the target's canonical form,
    [solve] on binary64 terminates with [(None, stats)] or with the
    [ValueError] of a conversion between [int] and [str]; no run of it
    returns a path.  (Only newly created figures are tested against
    the target, and a figure is created only when its canonical form is
    not yet held.) *)
Theorem known_line_or_circle_is_never_found
        (initial_objects : @objects_t float) (target : @figure float)
        (max_steps : Z) :
  figure_type target <> point_t ->
  figure_known initial_objects target = true ->
  (exists fuel o,
      solve initial_objects target max_steps fuel = Some o
      /\ (o = Raised ValueError \/ exists k, o = Returned None k))
  /\ (forall fuel p k,
         solve initial_objects target max_steps fuel
         <> Some (Returned (Some p) k)).
Proof.
  intros Ht Hk.
  assert (Hno : forall fuel p k,
             solve initial_objects target max_steps fuel
             <> Some (Returned (Some p) k)).
  { intros fuel p k.
    apply (@known_shape_not_returned float Num_float
             float_eqb_sym float_eqb_trans); assumption. }
  split; [|exact Hno].
  destruct (solve_terminates initial_objects target max_steps) as [o Ho].
  exists (S (open_weight max_steps (initial_engine target initial_objects))), o.
  split; [exact Ho|].
  pose proof (solve_allowed _ _ _ _ Ho) as Hp.
  destruct o as [[p|] k|[|]].
  - elim (Hno _ p k Ho).
  - right. eauto.
  - destruct Hp.
  - now left.
Qed.

Lemma known_line_or_circle_is_never_found_witness :
  (exists fuel o,
      solve Instances.two_points_and_line (Fline (0, 2, 0)%float) 2 fuel
      = Some o
      /\ (o = Raised ValueError \/ exists k, o = Returned None k))
  /\ (forall fuel p k,
         solve Instances.two_points_and_line (Fline (0, 2, 0)%float) 2 fuel
         <> Some (Returned (Some p) k)).
Proof.
  apply known_line_or_circle_is_never_found.
  - discriminate.
  - vm_compute. reflexivity.
Defined.
(* ================================================================== *)
(** * Marshalling of the knowns *)
(* ================================================================== *)

Section DictKeys.
Variable V : Type.

Lemma keys_dict_set (d : dict V) (k k' : string) (v : V) :
  In k (keys (dict_set d k' v)) <-> In k (keys d) \/ k = k'.
Proof.
  induction d as [|[k0 v0] d IH]; simpl.
  - split; [intros [->|[]]; auto|intros [[]| ->]; auto].
  - destruct (String.eqb k0 k') eqn:E; simpl.
    + apply String.eqb_eq in E. subst k0.
      split; [tauto|]. intros [H|H]; [exact H|left; now symmetry].
    + rewrite IH. tauto.
Qed.

Lemma dict_get_key (d : dict V) (k : string) :
  In k (keys d) <-> dict_get d k <> None.
Proof.
  split.
  - intros Hin E. now apply dict_get_None_not_key in E.
  - destruct (dict_get d k) as [v|] eqn:E; [|congruence].
    intros _. eapply dict_get_Some_key; eauto.
Qed.
End DictKeys.

Section MarshalFacts.
Context {T : Type} {NT : Num T}.
Implicit Types (knowns : list (@known T)) (pts : dict (@point T)).

Lemma fold_points_keys knowns :
  forall pts k,
    In k (keys (fold_left (fun d obj =>
                             match obj with
                             | PointKnown id coords => dict_set d id coords
                             | _ => d
                             end) knowns pts))
    <-> In k (keys pts) \/ In k (known_point_ids knowns).
Proof.
  induction knowns as [|obj rest IH]; intros pts k; simpl.
  - tauto.
  - rewrite IH. destruct obj as [id c|id ids|id c p]; simpl; try tauto.
    rewrite keys_dict_set. split; intros H; intuition auto.
Qed.

Lemma marshal_points_keys knowns k :
  In k (keys (marshal_points knowns)) <-> In k (known_point_ids knowns).
Proof.
  unfold marshal_points. rewrite fold_points_keys. simpl. tauto.
Qed.

Lemma fold_points_get knowns :
  forall pts k p,
    dict_get (fold_left (fun d obj =>
                           match obj with
                           | PointKnown id coords => dict_set d id coords
                           | _ => d
                           end) knowns pts) k = Some p ->
    dict_get pts k = Some p \/ In (PointKnown k p) knowns.
Proof.
  induction knowns as [|obj rest IH]; intros pts k p; simpl.
  - auto.
  - intros H. apply IH in H. destruct H as [H|H]; [|auto].
    destruct obj as [id c|id ids|id c q]; auto.
    rewrite dict_get_set in H.
    destruct (String.eqb id k) eqn:E; [|auto].
    apply String.eqb_eq in E. subst id. inversion H; subst. auto.
Qed.

(** The second loop succeeds exactly when every line names two ids
    and every id read is a key of the points. *)
Lemma marshal_figures_accepts pts knowns :
  forall ls cs,
    (exists o, marshal_figures pts ls cs knowns = Marshalled o)
    <-> Forall (fun obj => well_formed obj
                           /\ forall k, refers obj k -> In k (keys pts))
               knowns.
Proof.
  induction knowns as [|obj rest IH]; intros ls cs; simpl.
  - split; [constructor|eauto].
  - destruct obj as [id c|id ids|id c p].
    + rewrite IH. split.
      * intros H. constructor; [|exact H]. split; [exact I|intros k []].
      * intros H. now inversion H.
    + destruct ids as [|k1 [|k2 ids]]; cbn [nth_error].
      * split; [intros [o H]; discriminate|].
        intros H. inversion H as [|? ? [Hw _] _]. simpl in Hw. lia.
      * destruct (dict_get pts k1);
          (split; [intros [o H]; discriminate|]);
          intros H; inversion H as [|? ? [Hw _] _]; simpl in Hw; lia.
      * destruct (dict_get pts k1) as [p1|] eqn:E1.
        -- destruct (dict_get pts k2) as [p2|] eqn:E2.
           ++ rewrite IH. split.
              ** intros H. constructor; [|exact H]. split; [simpl; lia|].
                 intros k [Hk|Hk]; inversion Hk; subst;
                   eapply dict_get_Some_key; eauto.
              ** intros H. now inversion H.
           ++ split; [intros [o H]; discriminate|].
              intros H. inversion H as [|? ? [_ Hr] _].
              apply dict_get_None_not_key in E2. elim E2.
              apply Hr. right. reflexivity.
        -- split; [intros [o H]; discriminate|].
           intros H. inversion H as [|? ? [_ Hr] _].
           apply dict_get_None_not_key in E1. elim E1.
           apply Hr. left. reflexivity.
    + destruct (dict_get pts c) as [pc|] eqn:E1.
      * destruct (dict_get pts p) as [pp|] eqn:E2.
        -- rewrite IH. split.
           ++ intros H. constructor; [|exact H]. split; [exact I|].
              intros k [->| ->]; eapply dict_get_Some_key; eauto.
           ++ intros H. now inversion H.
        -- split; [intros [o H]; discriminate|].
           intros H. inversion H as [|? ? [_ Hr] _].
           apply dict_get_None_not_key in E2. elim E2.
           apply Hr. right. reflexivity.
      * split; [intros [o H]; discriminate|].
        intros H. inversion H as [|? ? [_ Hr] _].
        apply dict_get_None_not_key in E1. elim E1.
        apply Hr. left. reflexivity.
Qed.

(** The id a 422 reports is read by a known and is no key of the
    points. *)
Lemma marshal_figures_rejects pts knowns :
  forall ls cs k,
    marshal_figures pts ls cs knowns = Http422 k ->
    ~ In k (keys pts) /\ exists obj, In obj knowns /\ refers obj k.
Proof.
  induction knowns as [|obj rest IH]; intros ls cs k;
    cbn [marshal_figures].
  - discriminate.
  - destruct obj as [id c|id ids|id c p].
    + intros H. apply IH in H. destruct H as (Hn & obj & Hin & Hr).
      split; [exact Hn|]. exists obj. split; [now right|exact Hr].
    + destruct (nth_error ids 0) as [k1|] eqn:N1; [|discriminate].
      destruct (dict_get pts k1) as [p1|] eqn:E1.
      * destruct (nth_error ids 1) as [k2|] eqn:N2; [|discriminate].
        destruct (dict_get pts k2) as [p2|] eqn:E2.
        -- intros H. apply IH in H. destruct H as (Hn & obj & Hin & Hr).
           split; [exact Hn|]. exists obj. split; [now right|exact Hr].
        -- intros H. inversion H; subst k2. split.
           ++ now apply dict_get_None_not_key.
           ++ exists (LineKnown id ids). split; [now left|]. now right.
      * intros H. inversion H; subst k1. split.
        -- now apply dict_get_None_not_key.
        -- exists (LineKnown id ids). split; [now left|]. now left.
    + destruct (dict_get pts c) as [pc|] eqn:E1.
      * destruct (dict_get pts p) as [pp|] eqn:E2.
        -- intros H. apply IH in H. destruct H as (Hn & obj & Hin & Hr).
           split; [exact Hn|]. exists obj. split; [now right|exact Hr].
        -- intros H. inversion H; subst k. split.
           ++ now apply dict_get_None_not_key.
           ++ exists (CircleKnown id c p). split; [now left|]. now right.
      * intros H. inversion H; subst k. split.
        -- now apply dict_get_None_not_key.
        -- exists (CircleKnown id c p). split; [now left|]. now left.
Qed.

Lemma marshal_figures_result pts all knowns :
  (forall obj, In obj knowns -> In obj all) ->
  forall ls cs o,
    (forall id l, dict_get ls id = Some l -> line_built pts all id l) ->
    (forall id c, dict_get cs id = Some c -> circle_built pts all id c) ->
    marshal_figures pts ls cs knowns = Marshalled o ->
    points o = pts
    /\ (forall id l, dict_get (lines o) id = Some l ->
                     line_built pts all id l)
    /\ (forall id c, dict_get (circles o) id = Some c ->
                     circle_built pts all id c)
    /\ (forall id, In id (keys ls)
                   \/ (exists ids, In (LineKnown id ids) knowns) ->
                   In id (keys (lines o)))
    /\ (forall id, In id (keys cs)
                   \/ (exists k1 k2, In (CircleKnown id k1 k2) knowns) ->
                   In id (keys (circles o))).
Proof.
  induction knowns as [|obj rest IH]; intros Hall ls cs o Hl Hc;
    cbn [marshal_figures].
  - intros H. inversion H; subst; clear H. cbn [points lines circles].
    repeat split; auto.
    + intros id [H|[ids []]]. exact H.
    + intros id [H|(k1 & k2 & [])]. exact H.
  - assert (Hall' : forall obj', In obj' rest -> In obj' all)
      by (intros obj' H'; apply Hall; now right).
    destruct obj as [id c|id ids|id c p].
    + intros H. destruct (IH Hall' _ _ _ Hl Hc H) as (Hp & Hl' & Hc' & Kl & Kc).
      repeat split; auto.
      * intros id' [H'|(ids & [H'|H'])]; [auto|discriminate|eauto].
      * intros id' [H'|(k1 & k2 & [H'|H'])]; [auto|discriminate|eauto].
    + destruct (nth_error ids 0) as [k1|] eqn:N1; [|discriminate].
      destruct (dict_get pts k1) as [p1|] eqn:E1; [|discriminate].
      destruct (nth_error ids 1) as [k2|] eqn:N2; [|discriminate].
      destruct (dict_get pts k2) as [p2|] eqn:E2; [|discriminate].
      intros H.
      assert (Hl2 : forall id' l,
                 dict_get (dict_set ls id (construct_line_from_points p1 p2))
                          id' = Some l -> line_built pts all id' l).
      { intros id' l. rewrite dict_get_set.
        destruct (String.eqb id id') eqn:E; [|apply Hl].
        apply String.eqb_eq in E. subst id'. intros Hs. inversion Hs; subst l.
        exists ids, k1, k2, p1, p2. repeat split; auto.
        apply Hall. now left. }
      destruct (IH Hall' _ _ _ Hl2 Hc H) as (Hp & Hl' & Hc' & Kl & Kc).
      repeat split; auto.
      * intros id' [H'|(ids' & [H'|H'])]; apply Kl.
        -- left. apply keys_dict_set. now left.
        -- inversion H'; subst. left. apply keys_dict_set. now right.
        -- right. eauto.
      * intros id' [H'|(k1' & k2' & [H'|H'])]; [auto|discriminate|eauto].
    + destruct (dict_get pts c) as [pc|] eqn:E1; [|discriminate].
      destruct (dict_get pts p) as [pp|] eqn:E2; [|discriminate].
      intros H.
      assert (Hc2 : forall id' c',
                 dict_get (dict_set cs id
                             (construct_circle_from_points pc pp))
                          id' = Some c' -> circle_built pts all id' c').
      { intros id' c'. rewrite dict_get_set.
        destruct (String.eqb id id') eqn:E; [|apply Hc].
        apply String.eqb_eq in E. subst id'. intros Hs. inversion Hs; subst c'.
        exists c, p, pc, pp. repeat split; auto.
        apply Hall. now left. }
      destruct (IH Hall' _ _ _ Hl Hc2 H) as (Hp & Hl' & Hc' & Kl & Kc).
      repeat split; auto.
      * intros id' [H'|(ids' & [H'|H'])]; [auto|discriminate|eauto].
      * intros id' [H'|(k1' & k2' & [H'|H'])]; apply Kc.
        -- left. apply keys_dict_set. now left.
        -- inversion H'; subst. left. apply keys_dict_set. now right.
        -- right. eauto.
Qed.
End MarshalFacts.

(** X19.  Marshalling of the knowns does not depend on the order in
    which they are listed: it succeeds exactly when every line names at
    least two ids and every id a line or a circle reads is the id of
    some point among the knowns, wherever that point stands in the
    list; and when it answers 422, the id it reports is read by a line
    or a circle and is the id of no point among the knowns. *)
Theorem marshal_outcome (T : Type) (NT : Num T) (knowns : list (@known T)) :
  ((exists initial_objects, marshal knowns = Marshalled initial_objects)
   <-> Forall (fun obj =>
                 well_formed obj
                 /\ forall k, refers obj k -> In k (known_point_ids knowns))
              knowns)
  /\ (forall k, marshal knowns = Http422 k ->
                ~ In k (known_point_ids knowns)
                /\ exists obj, In obj knowns /\ refers obj k).
Proof.
  unfold marshal. split.
  - rewrite marshal_figures_accepts. split; intros H;
      (eapply Forall_impl; [|exact H]); intros obj [Hw Hr];
      (split; [exact Hw|]); intros k Hk; apply marshal_points_keys; auto.
  - intros k H. apply marshal_figures_rejects in H.
    destruct H as [Hn He]. split; [|exact He].
    intros Hin. apply Hn. now apply marshal_points_keys.
Qed.

(** X20.  What marshalling builds: the points are those of the first
    loop, each stored under its id with coordinates that a point known
    of that id gives; every line (circle) of the result is the
    kernel's line (circle) for two of those points, named by a known
    line (circle) of that id; and every known line and circle has an
    entry. *)
Theorem marshalled_figures_come_from_points
        (T : Type) (NT : Num T) (knowns : list (@known T))
        (initial_objects : @objects_t T) :
  marshal knowns = Marshalled initial_objects ->
  (forall k p, dict_get (points initial_objects) k = Some p ->
               In (PointKnown k p) knowns)
  /\ (forall id l, dict_get (lines initial_objects) id = Some l ->
                   line_built (points initial_objects) knowns id l)
  /\ (forall id c, dict_get (circles initial_objects) id = Some c ->
                   circle_built (points initial_objects) knowns id c)
  /\ (forall id ids, In (LineKnown id ids) knowns ->
                     In id (keys (lines initial_objects)))
  /\ (forall id k1 k2, In (CircleKnown id k1 k2) knowns ->
                       In id (keys (circles initial_objects))).
Proof.
  unfold marshal. intros H.
  apply (@marshal_figures_result T NT (marshal_points knowns) knowns knowns)
    in H; [|auto|intros id l; discriminate|intros id c; discriminate].
  destruct H as (Hp & Hl & Hc & Kl & Kc). rewrite Hp.
  repeat split; auto.
  - intros k p Hg. unfold marshal_points in Hg.
    apply fold_points_get in Hg. destruct Hg as [Hg|Hg]; [discriminate|exact Hg].
  - intros id ids Hin. apply Kl. right. eauto.
  - intros id k1 k2 Hin. apply Kc. right. eauto.
Qed.

Lemma marshalled_figures_come_from_points_witness :
  let knowns :=
    [LineKnown "l1" ["p1"; "p2"]%string;
     PointKnown "p1"%string Instances.origin;
     PointKnown "p2"%string Instances.unit_x] in
  let o := Instances.two_points_and_line in
  (forall k p, dict_get (points o) k = Some p -> In (PointKnown k p) knowns)
  /\ (forall id l, dict_get (lines o) id = Some l ->
                   line_built (points o) knowns id l)
  /\ (forall id c, dict_get (circles o) id = Some c ->
                   circle_built (points o) knowns id c)
  /\ (forall id ids, In (LineKnown id ids) knowns ->
                     In id (keys (lines o)))
  /\ (forall id k1 k2, In (CircleKnown id k1 k2) knowns ->
                       In id (keys (circles o))).
Proof.
  intros knowns o.
  apply (@marshalled_figures_come_from_points float Num_float knowns o).
  vm_compute. reflexivity.
Defined.
(* ================================================================== *)
(** * The heuristic along a step *)
(* ================================================================== *)

Section HeuristicAlongStep.
Context {T : Type} {NT : Num T}.
Implicit Types (o : @objects_t T) (s : @State T).

Lemma grows_refl o : grows o o.
Proof. unfold grows. auto. Qed.

Lemma grows_trans o1 o2 o3 : grows o1 o2 -> grows o2 o3 -> grows o1 o3.
Proof. unfold grows. intros (?&?&?) (?&?&?). repeat split; lia. Qed.

Lemma add_object_grows o n f o' r :
  _add_object o n f = (o', r) -> grows o o'.
Proof.
  unfold _add_object. intros H.
  destruct f as [p|l|c];
    match type of H with (if ?b then _ else _) = _ => destruct b end;
    inversion H; subst; clear H; try apply grows_refl;
    unfold grows; cbn [points lines circles];
    repeat split; auto; apply dict_set_length.
Qed.

Lemma fold_add_result_grows o (results : @buffer T) n idxs :
  forall acc,
    grows o (fst (fst acc)) ->
    grows o (fst (fst (fold_left (add_result results n) idxs acc))).
Proof.
  induction idxs as [|i idxs IH]; simpl; intros acc H; [exact H|].
  apply IH. destruct acc as [[o1 ids] g]. unfold add_result.
  destruct (_add_object o1 (n + g) (Fpoint (buffer_get results i)))
    as [o2 [id|]] eqn:E; cbn [fst] in *;
    (eapply grows_trans; [exact H|]); eapply add_object_grows; eauto.
Qed.

Lemma intersection_successors_grow o n cfgs :
  forall g x, In x (intersection_successors o n g cfgs) -> grows o (fst x).
Proof.
  induction cfgs as [|cfg rest IH]; simpl; intros g x Hin; [destruct Hin|].
  destruct (intersection_round o n g cfg) as [[y|] g'] eqn:E;
    [|eapply IH; eauto].
  destruct Hin as [<-|Hin]; [|eapply IH; eauto].
  unfold intersection_round in E.
  destruct (intersect cfg) as [results count].
  destruct (count =? 0)%nat; [discriminate|].
  pose proof (@fold_add_result_grows o results n (seq 0 count) (o, [], g)
                (grows_refl o)) as H.
  destruct (fold_left _ _ _) as [[o' ids] g1].
  destruct ids as [|id ids]; [discriminate|].
  inversion E; subst. exact H.
Qed.

(** A successor has at least as many figures of each type. *)
Lemma successor_grows s x :
  In x (generate_successors s) -> grows (objects s) (fst x).
Proof.
  unfold generate_successors. intros Hin.
  apply in_app_or in Hin. destruct Hin as [Hin|Hin].
  - eapply intersection_successors_grow; eauto.
  - apply in_app_or in Hin. destruct Hin as [Hin|Hin].
    + unfold line_successors in Hin.
      destruct (2 <=? List.length (points (objects s)))%nat; [|destruct Hin].
      apply in_flat_map in Hin.
      destruct Hin as [[[p1_id p1] [p2_id p2]] [_ Hin]].
      destruct (_add_object _ _ _) as [o' [id|]] eqn:E; [|destruct Hin].
      destruct Hin as [<-|[]]. eapply add_object_grows; eauto.
    + unfold circle_successors in Hin.
      destruct (2 <=? List.length (points (objects s)))%nat; [|destruct Hin].
      apply in_flat_map in Hin.
      destruct Hin as [[[p1_id p1] [p2_id p2]] [_ Hin]].
      destruct (_add_object _ _ _) as [o' [id|]] eqn:E; [|destruct Hin].
      destruct Hin as [<-|[]]. eapply add_object_grows; eauto.
Qed.

Lemma heuristic_point_value o :
  calculate_heuristic o "point"
  = if (2 <=? List.length (lines o))%nat
       || (2 <=? List.length (circles o))%nat
       || ((1 <=? List.length (lines o))%nat
           && (1 <=? List.length (circles o))%nat)
    then Finite 1
    else if (2 <=? List.length (points o))%nat then Finite 3 else Finite 5.
Proof.
  unfold calculate_heuristic. simpl String.eqb. cbv zeta.
  destruct (_ || _ || _); [reflexivity|].
  destruct (2 <=? _)%nat; [|reflexivity].
  destruct (4 <=? _)%nat; [reflexivity|].
  destruct (3 <=? _)%nat; reflexivity.
Qed.

Lemma heuristic_antitone o o' (t : obj_type) :
  grows o o' ->
  exists h h',
    calculate_heuristic o (type_name t) = Finite h
    /\ calculate_heuristic o' (type_name t) = Finite h'
    /\ h' <= h.
Proof.
  intros (Hp & Hl & Hc). destruct t; cbn [type_name].
  - rewrite !heuristic_point_value.
    repeat match goal with
           | |- context [(?a <=? ?b)%nat] => destruct (Nat.leb_spec a b)
           end; cbn [orb andb]; try lia;
      eexists; eexists; (split; [reflexivity|split; [reflexivity|lia]]).
  - unfold calculate_heuristic. simpl String.eqb. cbv zeta.
    repeat match goal with
           | |- context [(?a <=? ?b)%nat] => destruct (Nat.leb_spec a b)
           end; try lia;
      eexists; eexists; (split; [reflexivity|split; [reflexivity|lia]]).
  - unfold calculate_heuristic. simpl String.eqb. cbv zeta.
    repeat match goal with
           | |- context [(?a <=? ?b)%nat] => destruct (Nat.leb_spec a b)
           end; try lia;
      eexists; eexists; (split; [reflexivity|split; [reflexivity|lia]]).
Qed.
End HeuristicAlongStep.

(** X21.  The heuristic never increases along a step: a successor has
    at least as many points, lines and circles as the state it extends,
    and for each of the three target types [calculate_heuristic]
    returns for it a finite value not above the value for that
    state. *)
Theorem heuristic_never_increases
        (T : Type) (NT : Num T) (s : @State T) (x : @successor T)
        (t : obj_type) :
  In x (generate_successors s) ->
  grows (objects s) (fst x)
  /\ exists h h',
      calculate_heuristic (objects s) (type_name t) = Finite h
      /\ calculate_heuristic (fst x) (type_name t) = Finite h'
      /\ h' <= h.
Proof.
  intros Hin. pose proof (successor_grows _ _ Hin) as Hg.
  split; [exact Hg|]. now apply heuristic_antitone.
Qed.

Lemma heuristic_never_increases_witness :
  let x := ({| points := points Instances.two_points_and_line;
               lines := lines Instances.two_points_and_line;
               circles := [("c1"%string,
                            construct_circle_from_points
                              Instances.origin Instances.unit_x)] |},
            {| operation := Circle; inputs := ["p1"; "p2"]%string;
               output_type := circle_t; output_id := "c1"%string |}) in
  grows Instances.two_points_and_line (fst x)
  /\ exists h h',
      calculate_heuristic Instances.two_points_and_line (type_name point_t)
      = Finite h
      /\ calculate_heuristic (fst x) (type_name point_t) = Finite h'
      /\ h' <= h.
Proof.
  intros x.
  apply (@heuristic_never_increases float Num_float
           (initial_state Instances.two_points_and_line) x point_t).
  vm_compute. auto.
Defined.
(* ================================================================== *)
(** * Termination of the search *)
(* ================================================================== *)

(** X22.  [solve] terminates on every input: for all initial objects,
    every target and every budget (zero and negative ones included)
    there is a number of turns of the loop after which it has ended,
    with [(None, stats)], with a path of at least one step, or with the
    [ValueError] of a conversion between [int] and [str] (never a
    [KeyError], never an empty path), and more turns do not change the
    result. *)
Theorem solve_always_terminates
        (T : Type) (NT : Num T) (initial_objects : @objects_t T)
        (target : @figure T) (max_steps : Z) :
  exists fuel o,
    solve initial_objects target max_steps fuel = Some o
    /\ allowed_outcome o
    /\ forall fuel', fuel <= fuel' ->
                     solve initial_objects target max_steps fuel' = Some o.
Proof.
  destruct (solve_terminates initial_objects target max_steps) as [o Ho].
  exists (S (open_weight max_steps (initial_engine target initial_objects))), o.
  split; [exact Ho|]. split.
  - eapply solve_allowed; eauto.
  - intros fuel' Hle. eapply solve_more_fuel; eauto.
Qed.
